(** * Loss landscape: terrain, gradient map, particles and wave scheduler

    A shallow embedding of the simulation core of [LossLandscape]
    (the React component that renders the loss landscape): the elevation
    function [lossFunction], the pre-computed gradient map
    ([buildGradientMap], [gradient]) and the per-frame function [animate]
    (spawn loop, wave state machine, particle loop).

    Numbers.  JavaScript numbers are modelled by exact rationals [Q]:
    rounding, overflow and NaN are outside the model.  The functions of
    the host that are not rational functions ([Math.sin], [Math.pow],
    [Math.sqrt]) and the predicate [isFinite] are taken from a record
    [JSMath], so every statement holds for any implementation of them.
    An array read outside the array ([undefined] in JavaScript, which
    turns arithmetic into NaN) is [None]. *)

From Stdlib Require Import ZArith QArith Qround Qabs Lia Lqa List Bool.
From stdpp Require Import base tactics option list.

Local Open Scope Q_scope.

(** ** Host arithmetic *)

Record JSMath := {
  Math_sin : Q -> Q;
  Math_pow : Q -> Q -> Q;
  Math_sqrt : Q -> Q;
  isFinite : Q -> bool
}.

Definition Qnat (n : nat) : Q := inject_Z (Z.of_nat n).

(** [a < b] and [a > b] of the source, as booleans. *)
Definition Qltb (a b : Q) : bool := negb (Qle_bool b a).
Definition Qgtb (a b : Q) : bool := Qltb b a.

Definition Math_floor (x : Q) : Q := inject_Z (Qfloor x).
Definition Math_abs (x : Q) : Q := Qabs x.
Definition Math_min (a b : Q) : Q := if Qle_bool a b then a else b.
Definition Math_max (a b : Q) : Q := if Qle_bool a b then b else a.

(** three.js [MathUtils]: [lerp(x, y, t) = (1 - t) * x + t * y] and
    [clamp(value, min, max) = Math.max(min, Math.min(max, value))]. *)
Module MathUtils.
Definition lerp (x y t : Q) : Q := (1 - t) * x + t * y.
Definition clamp (value min max : Q) : Q := Math_max min (Math_min max value).
End MathUtils.

(** three.js [Vector3], with the two methods the particle loop calls. *)
Record Vector3 := { v_x : Q; v_y : Q; v_z : Q }.

Definition multiplyScalar (v : Vector3) (s : Q) : Vector3 :=
  {| v_x := v_x v * s; v_y := v_y v * s; v_z := v_z v * s |}.

(** ** Configuration: the fields of [VISUAL_CONFIG] the core reads *)

Record TerrainConfig := {
  WIDTH : Q;
  DEPTH : Q;
  GLOBAL_SCALE : Q;
  HEIGHT_MULTIPLIER : Q;
  SEED : Q;
  WIREFRAME_OPACITY : Q
}.

Record WavesConfig := {
  FIRST_WAVE_DELAY : Q;
  PARTICLES_PER_WAVE : Z;
  BATCH_SIZE : Z;
  MAX_WAVE_INTERVAL : Q;
  SWELL_TIME : Q;
  MAX_SWELL_OPACITY : Q;
  FLASH_DECAY : Q;
  VELOCITY_THRESHOLD : Q;
  FADE_OUT_SPEED : Q;
  BUFFER_TIME : Q;
  MIN_SPAWN_HEIGHT : Q
}.

Record PhysicsConfig := {
  LEARNING_RATE : Q;
  MOMENTUM : Q;
  MAX_AGE : nat;
  GRADIENT_MAP_RESOLUTION : nat
}.

Record ParticlesConfig := {
  HEIGHT_OFFSET : Q;
  SPAWN_HEIGHT_OFFSET : Q;
  LOSS_SCALE_SENSITIVITY : Q;
  MIN_LOSS_SCALE : Q;
  MAX_LOSS_SCALE : Q;
  REVERSE_SCALING : bool;
  SCALE_DISTRIBUTION_POWER : Q
}.

Record VisualConfig := {
  TERRAIN : TerrainConfig;
  WAVES : WavesConfig;
  PHYSICS : PhysicsConfig;
  PARTICLES : ParticlesConfig
}.

(** The configuration of the repository. *)
Definition VISUAL_CONFIG : VisualConfig := {|
  TERRAIN := {|
    WIDTH := 2000;
    DEPTH := 2000;
    GLOBAL_SCALE := 0.008;
    HEIGHT_MULTIPLIER := 3.0;
    SEED := 5520.35550386228;
    WIREFRAME_OPACITY := 0.07 |};
  WAVES := {|
    FIRST_WAVE_DELAY := 1.0;
    PARTICLES_PER_WAVE := 1000;
    BATCH_SIZE := 20;
    MAX_WAVE_INTERVAL := 15.0;
    SWELL_TIME := 2.0;
    MAX_SWELL_OPACITY := 0.22;
    FLASH_DECAY := 0.15;
    VELOCITY_THRESHOLD := 0.001;
    FADE_OUT_SPEED := 0.02;
    BUFFER_TIME := 1.0;
    MIN_SPAWN_HEIGHT := 0.0 |};
  PHYSICS := {|
    LEARNING_RATE := 0.002;
    MOMENTUM := 0.92;
    MAX_AGE := 1200;
    GRADIENT_MAP_RESOLUTION := 512 |};
  PARTICLES := {|
    HEIGHT_OFFSET := 5.0;
    SPAWN_HEIGHT_OFFSET := 2.0;
    LOSS_SCALE_SENSITIVITY := 3.0;
    MIN_LOSS_SCALE := 1.0;
    MAX_LOSS_SCALE := 20.0;
    REVERSE_SCALING := false;
    SCALE_DISTRIBUTION_POWER := 2.5 |}
|}.

(** ** Height field: [lossFunction] *)

Section HeightField.
Variable M : JSMath.
Variable T : TerrainConfig.

(** 1. pseudo-random hash *)
Definition hash (px pz : Q) : Q :=
    let x := Math_sin M ((px + SEED T) * 12.9898 + (pz + SEED T) * 78.233)
             * 43758.5453123 in
    x - Math_floor x.

(** 2. interpolated noise *)
Definition noise (tx tz : Q) : Q :=
    let ix := Math_floor tx in
    let iz := Math_floor tz in
    let fx := tx - ix in
    let fz := tz - iz in
    let a := hash ix iz in
    let b := hash (ix + 1) iz in
    let c := hash ix (iz + 1) in
    let d := hash (ix + 1) (iz + 1) in
    let ux := fx * fx * (3 - 2 * fx) in
    let uz := fz * fz * (3 - 2 * fz) in
    MathUtils.lerp a b ux + (c - a) * uz * (1 - ux) + (d - b) * ux * uz.

(** 3. the octave loop [for (let i = 0; i < 5; i++)]; the first argument
      counts the iterations that remain. *)
Fixpoint octaves (k : nat) (x z h amp freq : Q) : Q :=
    match k with
    | O => h
    | S k' =>
        let n := noise (x * freq) (z * freq) in
        let n := 1.0 - Math_abs (n * 2.0 - 1.0) in
        let n := Math_pow M n 3.0 in
        octaves k' x z (h + n * amp) (amp * 0.55) (freq * 2.1)
    end.

Definition lossFunction (x z : Q) : Q :=
    let h := octaves 5 x z 0 28.0 (GLOBAL_SCALE T * 0.5) in
    (h - 12) * HEIGHT_MULTIPLIER T.
End HeightField.

(** ** Gradient map *)

Record GradientMapConfig := {
  RESOLUTION : nat;
  MIN_X : Q;
  MAX_X : Q;
  MIN_Z : Q;
  MAX_Z : Q
}.

Definition GRADIENT_MAP_CONFIG (cfg : VisualConfig) : GradientMapConfig := {|
  RESOLUTION := GRADIENT_MAP_RESOLUTION (PHYSICS cfg);
  MIN_X := - WIDTH (TERRAIN cfg) / 2;
  MAX_X := WIDTH (TERRAIN cfg) / 2;
  MIN_Z := - DEPTH (TERRAIN cfg) / 2;
  MAX_Z := DEPTH (TERRAIN cfg) / 2
|}.

(** What [buildGradientMap] returns; the two typed arrays are lists. *)
Record GradientMap := {
  dxMap : list Q;
  dzMap : list Q;
  stepX : Q;
  stepZ : Q
}.

Record Grad := { dx : Q; dz : Q }.

(** [array[i]] for a number [i] that is an integer: [None] outside the
    array. *)
Definition aget (array : list Q) (i : Z) : option Q :=
  if (i <? 0)%Z then None else array !! Z.to_nat i.

Section GradientField.
Variable M : JSMath.
Variable cfg : VisualConfig.

Let G := GRADIENT_MAP_CONFIG cfg.
Let loss := lossFunction M (TERRAIN cfg).

(** The step [h] of the central difference. *)
Definition grad_h : Q := 0.05.

Definition build_stepX : Q := (MAX_X G - MIN_X G) / (Qnat (RESOLUTION G) - 1).
Definition build_stepZ : Q := (MAX_Z G - MIN_Z G) / (Qnat (RESOLUTION G) - 1).

(** World coordinates of grid column [ix] and grid row [iz]. *)
Definition cell_x (ix : nat) : Q := MIN_X G + Qnat ix * build_stepX.
Definition cell_z (iz : nat) : Q := MIN_Z G + Qnat iz * build_stepZ.

(** The central differences at a world point. *)
Definition central_dx (x z : Q) : Q :=
    (loss (x + grad_h) z - loss (x - grad_h) z) / (2 * grad_h).
Definition central_dz (x z : Q) : Q :=
    (loss x (z + grad_h) - loss x (z - grad_h)) / (2 * grad_h).

Definition finite_or_zero (v : Q) : Q := if isFinite M v then v else 0.

(** Body of the inner loop: the two writes for cell [(ix, iz)]. *)
Definition build_cell (iz : nat) (maps : list Q * list Q) (ix : nat)
    : list Q * list Q :=
    let z := cell_z iz in
    let x := cell_x ix in
    let idx := (iz * RESOLUTION G + ix)%nat in
    let dx := central_dx x z in
    let dz := central_dz x z in
    (<[idx := finite_or_zero dx]> (fst maps),
     <[idx := finite_or_zero dz]> (snd maps)).

(** [for (let ix = 0; ix < RESOLUTION; ix++)] *)
Definition build_row (maps : list Q * list Q) (iz : nat) : list Q * list Q :=
    foldl (build_cell iz) maps (seq 0 (RESOLUTION G)).

(** [for (let iz = 0; iz < RESOLUTION; iz++)] over two zero-filled
      arrays of [RESOLUTION * RESOLUTION] entries. *)
Definition buildGradientMap : GradientMap :=
    let n := (RESOLUTION G * RESOLUTION G)%nat in
    let maps := foldl build_row (replicate n 0, replicate n 0)
                      (seq 0 (RESOLUTION G)) in
    {| dxMap := fst maps; dzMap := snd maps;
       stepX := build_stepX; stepZ := build_stepZ |}.

(** World to grid space. *)
Definition grid_x (x : Q) : Q :=
    ((x - MIN_X G) / (MAX_X G - MIN_X G)) * (Qnat (RESOLUTION G) - 1).
Definition grid_z (z : Q) : Q :=
    ((z - MIN_Z G) / (MAX_Z G - MIN_Z G)) * (Qnat (RESOLUTION G) - 1).

(** [Math.floor(clamp(g, 0, RESOLUTION - 2))]: the lower cell index. *)
Definition cell0 (g : Q) : Z :=
    Qfloor (MathUtils.clamp g 0 (Qnat (RESOLUTION G) - 2)).

(** The inner function [sample] of [gradient], with its free variables
      [x0], [z0], [tx], [tz] as arguments ([x1 = x0 + 1], [z1 = z0 + 1]). *)
Definition sample (x0 z0 : Z) (tx tz : Q) (array : list Q) : option Q :=
    let x1 := (x0 + 1)%Z in
    let z1 := (z0 + 1)%Z in
    let R := Z.of_nat (RESOLUTION G) in
    v00 ← aget array (z0 * R + x0)%Z;
    v10 ← aget array (z0 * R + x1)%Z;
    v01 ← aget array (z1 * R + x0)%Z;
    v11 ← aget array (z1 * R + x1)%Z;
    Some ((1 - tx) * (1 - tz) * v00 + tx * (1 - tz) * v10
          + (1 - tx) * tz * v01 + tx * tz * v11).

(** [gradient(x, z)], reading the map held by [gradientMapRef]. *)
Definition gradient (map : option GradientMap) (x z : Q) : option Grad :=
    match map with
    | None => Some {| dx := 0; dz := 0 |}
    | Some map =>
        let gx := grid_x x in
        let gz := grid_z z in
        let x0 := cell0 gx in
        let z0 := cell0 gz in
        let tx := gx - inject_Z x0 in
        let tz := gz - inject_Z z0 in
        dx ← sample x0 z0 tx tz (dxMap map);
        dz ← sample x0 z0 tx tz (dzMap map);
        Some {| dx := dx; dz := dz |}
    end.
End GradientField.

(** ** Particles and simulation state *)

Inductive WaveState := WAITING | SWELLING | ACTIVE.

(** One entry of [particlesRef.current].  [pid] stands for the identity
    of the JavaScript object: [spawnParticle] numbers the objects it
    creates.  Of the mesh only position and scale are kept; the trail
    buffer, colours and shader uniforms are written by [animate] and read
    by the renderer only. *)
Record Particle := {
  pid : nat;
  mesh_position : Vector3;
  mesh_scale : Vector3;
  p_x : Q;
  p_z : Q;
  p_vx : Q;
  p_vz : Q;
  age : nat;
  isFading : bool
}.

(** The refs of the component that [animate] reads and writes.
    [nextId] counts the particle objects created so far and [disposed]
    lists the particles whose mesh and trail were removed from the scene
    and disposed, most recent first. *)
Record State := {
  particles : list Particle;
  timeRef : Q;
  waveState : WaveState;
  stateStartTime : Q;
  lastWaveTime : Q;
  spawnQueue : Z;
  gradientMap : option GradientMap;
  lastFrameTime : Q;
  wireframe_opacity : Q;
  nextId : nat;
  disposed : list nat
}.

Definition set_particles (l : list Particle) (s : State) : State :=
  {| particles := l; timeRef := timeRef s; waveState := waveState s;
     stateStartTime := stateStartTime s; lastWaveTime := lastWaveTime s;
     spawnQueue := spawnQueue s; gradientMap := gradientMap s;
     lastFrameTime := lastFrameTime s;
     wireframe_opacity := wireframe_opacity s; nextId := nextId s;
     disposed := disposed s |}.

Definition set_clock (t last : Q) (s : State) : State :=
  {| particles := particles s; timeRef := t; waveState := waveState s;
     stateStartTime := stateStartTime s; lastWaveTime := lastWaveTime s;
     spawnQueue := spawnQueue s; gradientMap := gradientMap s;
     lastFrameTime := last;
     wireframe_opacity := wireframe_opacity s; nextId := nextId s;
     disposed := disposed s |}.

Definition set_wave (w : WaveState) (start : Q) (s : State) : State :=
  {| particles := particles s; timeRef := timeRef s; waveState := w;
     stateStartTime := start; lastWaveTime := lastWaveTime s;
     spawnQueue := spawnQueue s; gradientMap := gradientMap s;
     lastFrameTime := lastFrameTime s;
     wireframe_opacity := wireframe_opacity s; nextId := nextId s;
     disposed := disposed s |}.

Definition set_lastWaveTime (t : Q) (s : State) : State :=
  {| particles := particles s; timeRef := timeRef s; waveState := waveState s;
     stateStartTime := stateStartTime s; lastWaveTime := t;
     spawnQueue := spawnQueue s; gradientMap := gradientMap s;
     lastFrameTime := lastFrameTime s;
     wireframe_opacity := wireframe_opacity s; nextId := nextId s;
     disposed := disposed s |}.

Definition set_spawnQueue (q : Z) (s : State) : State :=
  {| particles := particles s; timeRef := timeRef s; waveState := waveState s;
     stateStartTime := stateStartTime s; lastWaveTime := lastWaveTime s;
     spawnQueue := q; gradientMap := gradientMap s;
     lastFrameTime := lastFrameTime s;
     wireframe_opacity := wireframe_opacity s; nextId := nextId s;
     disposed := disposed s |}.

Definition set_opacity (o : Q) (s : State) : State :=
  {| particles := particles s; timeRef := timeRef s; waveState := waveState s;
     stateStartTime := stateStartTime s; lastWaveTime := lastWaveTime s;
     spawnQueue := spawnQueue s; gradientMap := gradientMap s;
     lastFrameTime := lastFrameTime s;
     wireframe_opacity := o; nextId := nextId s;
     disposed := disposed s |}.

Definition set_nextId (n : nat) (s : State) : State :=
  {| particles := particles s; timeRef := timeRef s; waveState := waveState s;
     stateStartTime := stateStartTime s; lastWaveTime := lastWaveTime s;
     spawnQueue := spawnQueue s; gradientMap := gradientMap s;
     lastFrameTime := lastFrameTime s;
     wireframe_opacity := wireframe_opacity s; nextId := n;
     disposed := disposed s |}.

Definition set_disposed (d : list nat) (s : State) : State :=
  {| particles := particles s; timeRef := timeRef s; waveState := waveState s;
     stateStartTime := stateStartTime s; lastWaveTime := lastWaveTime s;
     spawnQueue := spawnQueue s; gradientMap := gradientMap s;
     lastFrameTime := lastFrameTime s;
     wireframe_opacity := wireframe_opacity s; nextId := nextId s;
     disposed := d |}.

Definition set_isFading (b : bool) (p : Particle) : Particle :=
  {| pid := pid p; mesh_position := mesh_position p;
     mesh_scale := mesh_scale p; p_x := p_x p; p_z := p_z p;
     p_vx := p_vx p; p_vz := p_vz p; age := age p; isFading := b |}.

Definition set_age (a : nat) (p : Particle) : Particle :=
  {| pid := pid p; mesh_position := mesh_position p;
     mesh_scale := mesh_scale p; p_x := p_x p; p_z := p_z p;
     p_vx := p_vx p; p_vz := p_vz p; age := a; isFading := isFading p |}.

Definition set_mesh_scale (v : Vector3) (p : Particle) : Particle :=
  {| pid := pid p; mesh_position := mesh_position p;
     mesh_scale := v; p_x := p_x p; p_z := p_z p;
     p_vx := p_vx p; p_vz := p_vz p; age := age p; isFading := isFading p |}.

Definition set_mesh_position (v : Vector3) (p : Particle) : Particle :=
  {| pid := pid p; mesh_position := v;
     mesh_scale := mesh_scale p; p_x := p_x p; p_z := p_z p;
     p_vx := p_vx p; p_vz := p_vz p; age := age p; isFading := isFading p |}.

Definition set_motion (x z vx vz : Q) (p : Particle) : Particle :=
  {| pid := pid p; mesh_position := mesh_position p;
     mesh_scale := mesh_scale p; p_x := x; p_z := z;
     p_vx := vx; p_vz := vz; age := age p; isFading := isFading p |}.

(** What one call of [animate] reads from outside the component: the
    three readings of [performance.now()] (milliseconds), the camera
    position, and the result of the [k]-th [intersectPlane] of the frame,
    [None] for [null] and [Some (hit.x, hit.z)] otherwise (the two
    [Math.random()] draws and the ray through the camera are the
    renderer's). *)
Record Frame := {
  now : Q;
  now_placed : Q;
  now_check : Q;
  camPos : Vector3;
  casts : nat -> option (Q * Q)
}.

(** How a run of the model can stop without a state: the loop did not end
    within the given number of iterations, or an array read was outside
    the array. *)
Inductive Err := OutOfFuel | UndefinedRead.

Inductive res (A : Type) :=
| Ok (a : A)
| Fail (e : Err).
Arguments Ok {A} a.
Arguments Fail {A} e.

Definition res_bind {A B : Type} (r : res A) (k : A -> res B) : res B :=
  match r with
  | Ok a => k a
  | Fail e => Fail e
  end.

Notation "'do' x <- r ; k" := (res_bind r (fun x => k))
  (at level 10, x name, r at level 100, k at level 200).

(** ** The component: initialisation, spawning, scheduler, particle loop *)

Section Simulation.
Variable M : JSMath.
Variable cfg : VisualConfig.

Let loss := lossFunction M (TERRAIN cfg).
Let W := WAVES cfg.
Let P := PARTICLES cfg.

(** The refs after the effect has run up to the first [animate()], at
    which [performance.now()] read [now0]. *)
Definition init (now0 : Q) : State :=
  {| particles := [];
     timeRef := 0;
     waveState := WAITING;
     stateStartTime := FIRST_WAVE_DELAY W - BUFFER_TIME W;
     lastWaveTime := 0;
     spawnQueue := 0;
     gradientMap := Some (buildGradientMap M cfg);
     lastFrameTime := now0;
     wireframe_opacity := WIREFRAME_OPACITY (TERRAIN cfg);
     nextId := 0;
     disposed := [] |}.

(** [spawnParticle(x, z, overrideY = null)]; a new mesh has scale
    [(1, 1, 1)]. *)
Definition spawnParticle (x z : Q) (overrideY : option Q) (s : State) : State :=
  let groundHeight :=
    match overrideY with Some y => y | None => loss x z end in
  let spawnY := groundHeight + SPAWN_HEIGHT_OFFSET P in
  let p := {| pid := nextId s;
              mesh_position := {| v_x := x; v_y := spawnY; v_z := - z |};
              mesh_scale := {| v_x := 1; v_y := 1; v_z := 1 |};
              p_x := x; p_z := z; p_vx := 0; p_vz := 0;
              age := 0; isFading := false |} in
  set_nextId (S (nextId s)) (set_particles (particles s ++ [p]) s).

(** [handleClick]: the reticle is the renderer's; [None] when it is not
    visible, its position otherwise. *)
Definition handleClick (reticle : option Vector3) (s : State) : State :=
  match reticle with
  | Some pos => spawnParticle (v_x pos) (- v_z pos) (Some (v_y pos)) s
  | None => s
  end.

(** The line-of-sight test of the spawn loop,
    [for (let t = 0.3; t < 1.0; t += 0.3)]: [t] takes the values
    0.3, 0.6 and 0.9, and the first hidden point ends the loop. *)
Definition isVisible (cam : Vector3) (hx hz realHeight : Q) : bool :=
  forallb
    (fun t =>
       let checkX := MathUtils.lerp (v_x cam) hx t in
       let checkZ := MathUtils.lerp (v_z cam) hz t in
       let lineOfSightHeight := MathUtils.lerp (v_y cam) realHeight t in
       negb (Qgtb (loss checkX checkZ) (lineOfSightHeight + 2.0)))
    [0.3; 0.6; 0.9].

(** What one iteration of the spawn loop does with its candidate. *)
Inductive Candidate :=
| Missed                       (* no hit, or outside the terrain *)
| TooLow                       (* below MIN_SPAWN_HEIGHT: [i--; continue] *)
| Hidden                       (* not visible: [i--] *)
| Accepted (x z y : Q).        (* [spawnParticle(x, z, y)] *)

Definition classify (f : Frame) (hit : option (Q * Q)) : Candidate :=
  match hit with
  | None => Missed
  | Some (hx, hz) =>
      if Qle_bool (Math_abs hx) (WIDTH (TERRAIN cfg) / 2)
         && Qle_bool (Math_abs hz) (DEPTH (TERRAIN cfg) / 2)
      then
        let realHeight := loss hx hz in
        if Qltb realHeight (MIN_SPAWN_HEIGHT W) then TooLow
        else if isVisible (camPos f) hx hz realHeight
             then Accepted hx (- hz) realHeight
             else Hidden
      else Missed
  end.

(** The placement of an accepted candidate: the particle, the queue
    decrement and, when the queue reaches zero, the time stamp. *)
Definition place (f : Frame) (x z y : Q) (s : State) : State :=
  let s := spawnParticle x z (Some y) s in
  let s := set_spawnQueue (spawnQueue s - 1) s in
  if (spawnQueue s =? 0)%Z
  then set_lastWaveTime (now_placed f / 1000) s
  else s.

(** [for (let i = 0; i < toSpawn; i++)], from the test of the loop
    condition with counter [i], before the [k]-th candidate of the frame.
    [fuel] bounds the number of times the condition is tested.  A
    rejected candidate runs [i--] and then the loop's [i++]. *)
Fixpoint spawn_loop (fuel : nat) (f : Frame) (toSpawn i : Z) (k : nat)
    (s : State) : res State :=
  match fuel with
  | O => Fail OutOfFuel
  | S fuel' =>
      if (i <? toSpawn)%Z then
        match classify f (casts f k) with
        | Missed => spawn_loop fuel' f toSpawn (i + 1) (S k) s
        | TooLow => spawn_loop fuel' f toSpawn (i - 1 + 1) (S k) s
        | Hidden => spawn_loop fuel' f toSpawn (i - 1 + 1) (S k) s
        | Accepted x z y =>
            spawn_loop fuel' f toSpawn (i + 1) (S k) (place f x z y s)
        end
      else Ok s
  end.

(** [if (spawnQueueRef.current > 0) { ... }] *)
Definition spawn_phase (fuel : nat) (f : Frame) (s : State) : res State :=
  if (0 <? spawnQueue s)%Z then
    let toSpawn := Z.min (spawnQueue s) (BATCH_SIZE W) in
    spawn_loop fuel f toSpawn 0 0 s
  else Ok s.

Definition speed (p : Particle) : Q :=
  Math_sqrt M (p_vx p * p_vx p + p_vz p * p_vz p).

(** 1. analyse current state *)
Definition activeParticles (s : State) : list Particle :=
  List.filter (fun p => negb (isFading p)) (particles s).

Definition allParticlesStopped (s : State) : bool :=
  let isSpawning := (0 <? spawnQueue s)%Z in
  negb isSpawning
  && (0 <? length (activeParticles s))%nat
  && forallb (fun p => Qltb (speed p) (VELOCITY_THRESHOLD W)
                       && (100 <? age p)%nat)
             (activeParticles s).

(** 2. state machine transitions: the three [if] statements in turn. *)
Definition waveTimedOut (f : Frame) (s : State) : bool :=
  Qgtb (now_check f / 1000 - lastWaveTime s) (MAX_WAVE_INTERVAL W).

Definition leave_ACTIVE (f : Frame) (s : State) : State :=
  match waveState s with
  | ACTIVE =>
      let currentTime := now_check f / 1000 in
      if (spawnQueue s =? 0)%Z && (allParticlesStopped s || waveTimedOut f s)
      then set_particles (map (set_isFading true) (particles s))
             (set_wave WAITING currentTime s)
      else s
  | _ => s
  end.

Definition leave_WAITING (s : State) : State :=
  let currentTime := timeRef s in
  match waveState s with
  | WAITING =>
      if Qgtb (currentTime - stateStartTime s) (BUFFER_TIME W)
      then set_wave SWELLING currentTime s
      else s
  | _ => s
  end.

Definition leave_SWELLING (s : State) : State :=
  let currentTime := timeRef s in
  match waveState s with
  | SWELLING =>
      if Qgtb (currentTime - stateStartTime s) (SWELL_TIME W)
      then set_opacity (MAX_SWELL_OPACITY W)
             (set_wave ACTIVE (stateStartTime s)
                (set_spawnQueue (PARTICLES_PER_WAVE W) s))
      else s
  | _ => s
  end.

Definition scheduler (f : Frame) (s : State) : State :=
  leave_SWELLING (leave_WAITING (leave_ACTIVE f s)).

(** 3. opacity sync *)
Definition opacity_sync (s : State) : State :=
  let currentTime := timeRef s in
  let base := WIREFRAME_OPACITY (TERRAIN cfg) in
  match waveState s with
  | SWELLING =>
      let progress := (currentTime - stateStartTime s) / SWELL_TIME W in
      let eased := Math_pow M progress 2.0 in
      set_opacity (MathUtils.lerp base (MAX_SWELL_OPACITY W) eased) s
  | _ =>
      if Qgtb (wireframe_opacity s) base
      then set_opacity (wireframe_opacity s
                        - (wireframe_opacity s - base) * FLASH_DECAY W) s
      else s
  end.

(** The four statements of "2. physics & movement" for a gradient
    [grad]. *)
Definition move (frameScale : Q) (grad : Grad) (p : Particle) : Particle :=
  let vx := p_vx p * MOMENTUM (PHYSICS cfg) in
  let vz := p_vz p * MOMENTUM (PHYSICS cfg) in
  let vx := vx - dx grad * LEARNING_RATE (PHYSICS cfg) * frameScale in
  let vz := vz - dz grad * LEARNING_RATE (PHYSICS cfg) * frameScale in
  set_motion (p_x p + vx * frameScale) (p_z p + vz * frameScale) vx vz p.

(** The scale the mesh of a particle that is not fading moves towards. *)
Definition finalScale (newY speedFactor : Q) : Q :=
  let currentHeight := newY in
  let heightRange := 60 in
  let normalizedLoss :=
    MathUtils.clamp ((currentHeight + 20) / heightRange) 0 1 in
  let emphasisPower := SCALE_DISTRIBUTION_POWER P in
  let lossScaleFactor :=
    if REVERSE_SCALING P
    then 1.0 + Math_pow M normalizedLoss emphasisPower
               * LOSS_SCALE_SENSITIVITY P
    else 1.0 + Math_pow M (1.0 - normalizedLoss) emphasisPower
               * LOSS_SCALE_SENSITIVITY P in
  let lossScaleFactor :=
    MathUtils.clamp lossScaleFactor (MIN_LOSS_SCALE P) (MAX_LOSS_SCALE P) in
  let baseScale := 1.0 + speedFactor * 0.5 in
  baseScale * lossScaleFactor.

(** The body of the particle loop for the particle [p]: [None] when the
    particle is spliced out of the list, the updated particle otherwise.
    [queue] is [spawnQueueRef.current] and [map] is
    [gradientMapRef.current], which the loop does not write. *)
Definition particle_body (frameScale : Q) (queue : Z)
    (map : option GradientMap) (p : Particle) : res (option Particle) :=
  let p := set_age (S (age p)) p in
  (* 1. shrink & fade *)
  let p :=
    if isFading p
    then set_mesh_scale
           (multiplyScalar (mesh_scale p) (1.0 - FADE_OUT_SPEED W)) p
    else p in
  if isFading p && Qltb (v_x (mesh_scale p)) 0.01 then Ok None
  else
    (* 2. physics & movement *)
    do p <- (if negb (isFading p) && (queue =? 0)%Z
             then match gradient cfg map (p_x p) (p_z p) with
                  | Some grad => Ok (move frameScale grad p)
                  | None => Fail UndefinedRead
                  end
             else Ok p);
    let newY := loss (p_x p) (p_z p) + HEIGHT_OFFSET P in
    let p := set_mesh_position
               {| v_x := p_x p; v_y := newY; v_z := - p_z p |} p in
    (* 3. the speed factor, also used for the colours *)
    let speed := speed p in
    let speedFactor := Math_min (speed / 0.15) 1.0 in
    let speedFactor := Math_pow M speedFactor 1.2 in
    (* scale *)
    let finalScale := finalScale newY speedFactor in
    let p :=
      if isFading p
      then set_mesh_scale
             (multiplyScalar (mesh_scale p) (1.0 - FADE_OUT_SPEED W)) p
      else
        let lerpSpeed := if Qltb speed 0.01 then 0.02 else 0.1 in
        set_mesh_scale
          {| v_x := MathUtils.lerp (v_x (mesh_scale p)) finalScale lerpSpeed;
             v_y := MathUtils.lerp (v_y (mesh_scale p)) finalScale lerpSpeed;
             v_z := MathUtils.lerp (v_z (mesh_scale p)) finalScale lerpSpeed |}
          p in
    Ok (Some p).

(** [for (let i = particles.length - 1; i >= 0; i--)]: [particle_loop n]
    runs the iterations with [i = n - 1] down to [0]. *)
Fixpoint particle_loop (n : nat) (frameScale : Q) (s : State) : res State :=
  match n with
  | O => Ok s
  | S i =>
      match particles s !! i with
      | None => Fail UndefinedRead
      | Some p =>
          do r <- particle_body frameScale (spawnQueue s) (gradientMap s) p;
          match r with
          | None =>
              particle_loop i frameScale
                (set_disposed (pid p :: disposed s)
                   (set_particles (delete i (particles s)) s))
          | Some p' =>
              particle_loop i frameScale
                (set_particles (<[i := p']> (particles s)) s)
          end
      end
  end.

(** [frameScale] of the frame [f] entered in state [s]. *)
Definition deltaTimeSec (f : Frame) (s : State) : Q :=
  (now f - lastFrameTime s) / 1000.

Definition frameScale (f : Frame) (s : State) : Q :=
  deltaTimeSec f s / 0.0166.

(** The clock update at the top of [animate]. *)
Definition tick_clock (f : Frame) (s : State) : State :=
  set_clock (timeRef s + deltaTimeSec f s) (now f) s.

(** One call of [animate], without what only the renderer reads (FPS
    counter, dust, camera, reticle, composer). *)
Definition animate (fuel : nat) (f : Frame) (s : State) : res State :=
  let frameScale := frameScale f s in
  let s := tick_clock f s in
  do s <- spawn_phase fuel f s;
  let s := scheduler f s in
  let s := opacity_sync s in
  particle_loop (length (particles s)) frameScale s.

(** What happens to the component: a frame, with the fuel of its spawn
    loop, or a click. *)
Inductive Event :=
| Animate (fuel : nat) (f : Frame)
| Click (reticle : option Vector3).

Definition step (e : Event) (s : State) : res State :=
  match e with
  | Animate fuel f => animate fuel f s
  | Click reticle => Ok (handleClick reticle s)
  end.

Fixpoint run (es : list Event) (s : State) : res State :=
  match es with
  | [] => Ok s
  | e :: es' => do s' <- step e s; run es' s'
  end.

End Simulation.

(** ** Vocabulary of the statements *)

(** The terrain fields [lossFunction] reads. *)
Definition same_terrain_inputs (T1 T2 : TerrainConfig) : Prop :=
  SEED T1 = SEED T2
  /\ GLOBAL_SCALE T1 = GLOBAL_SCALE T2
  /\ HEIGHT_MULTIPLIER T1 = HEIGHT_MULTIPLIER T2.

(** What [buildGradientMap] reads of the configuration. *)
Definition same_build_inputs (c1 c2 : VisualConfig) : Prop :=
  same_terrain_inputs (TERRAIN c1) (TERRAIN c2)
  /\ GRADIENT_MAP_RESOLUTION (PHYSICS c1) = GRADIENT_MAP_RESOLUTION (PHYSICS c2)
  /\ WIDTH (TERRAIN c1) = WIDTH (TERRAIN c2)
  /\ DEPTH (TERRAIN c1) = DEPTH (TERRAIN c2).

(** A host for evaluating examples: a flat terrain ([Math.sin] is
    constantly 0), with [Math.pow(x, y) = x] and [Math.sqrt(x) = x]. *)
Definition Math0 : JSMath := {|
  Math_sin := fun _ => 0;
  Math_pow := fun x _ => x;
  Math_sqrt := fun x => x;
  isFinite := fun _ => true
|}.

(** The configuration of the repository with another wave size. *)
Definition SMALL_WAVES : VisualConfig := {|
  TERRAIN := TERRAIN VISUAL_CONFIG;
  WAVES := {|
    FIRST_WAVE_DELAY := 1.0;
    PARTICLES_PER_WAVE := 3;
    BATCH_SIZE := 2;
    MAX_WAVE_INTERVAL := 15.0;
    SWELL_TIME := 2.0;
    MAX_SWELL_OPACITY := 0.22;
    FLASH_DECAY := 0.15;
    VELOCITY_THRESHOLD := 0.001;
    FADE_OUT_SPEED := 0.02;
    BUFFER_TIME := 1.0;
    MIN_SPAWN_HEIGHT := 0.0 |};
  PHYSICS := PHYSICS VISUAL_CONFIG;
  PARTICLES := PARTICLES VISUAL_CONFIG
|}.

(** The configuration of the repository with a 3 x 3 gradient map. *)
Definition GRID3 : VisualConfig := {|
  TERRAIN := TERRAIN VISUAL_CONFIG;
  WAVES := WAVES VISUAL_CONFIG;
  PHYSICS := {|
    LEARNING_RATE := 0.002;
    MOMENTUM := 0.92;
    MAX_AGE := 1200;
    GRADIENT_MAP_RESOLUTION := 3 |};
  PARTICLES := PARTICLES VISUAL_CONFIG
|}.

(** The writes of one row and of the first rows of the build, for one
    array of a grid with [R] columns that receives [v iz ix] at cell
    [(ix, iz)]. *)
Definition fill_row (R : nat) (v : nat -> nat -> Q) (iz : nat) (l : list Q)
    (n : nat) : list Q :=
  foldl (fun l ix => <[(iz * R + ix)%nat := v iz ix]> l) l (seq 0 n).

Definition fill_rows (R : nat) (v : nat -> nat -> Q) (l : list Q) (m : nat)
    : list Q :=
  foldl (fun l iz => fill_row R v iz l R) l (seq 0 m).

(** The values [buildGradientMap] writes for cell [(ix, iz)]. *)
Definition stored_dx (M : JSMath) (cfg : VisualConfig) (iz ix : nat) : Q :=
  finite_or_zero M (central_dx M cfg (cell_x cfg ix) (cell_z cfg iz)).
Definition stored_dz (M : JSMath) (cfg : VisualConfig) (iz ix : nat) : Q :=
  finite_or_zero M (central_dz M cfg (cell_x cfg ix) (cell_z cfg iz)).

(** The arrays of a gradient map have one entry per cell of the grid. *)
Definition well_formed_map (cfg : VisualConfig) (map : GradientMap) : Prop :=
  let R := GRADIENT_MAP_RESOLUTION (PHYSICS cfg) in
  length (dxMap map) = (R * R)%nat /\ length (dzMap map) = (R * R)%nat.

(** An array of the [R] x [R] grid that holds, in every row, the column
    index of the cell: 0, 1, ..., [R - 1]. *)
Definition ramp (R : nat) : list Q :=
  map (fun i => Qnat (i mod R)) (seq 0 (R * R)).

Definition RAMP_MAP : GradientMap := {|
  dxMap := ramp 512;
  dzMap := ramp 512;
  stepX := 2000 / 511;
  stepZ := 2000 / 511
|}.

(** The gradient map of a state can be sampled everywhere. *)
Definition map_ok (cfg : VisualConfig) (s : State) : Prop :=
  (2 <= GRADIENT_MAP_RESOLUTION (PHYSICS cfg))%nat
  /\ match gradientMap s with
     | Some map => well_formed_map cfg map
     | None => True
     end.

(** The particle objects of a state are distinct, were created by
    [spawnParticle], and none of them has been disposed. *)
Definition ids_ok (s : State) : Prop :=
  NoDup (pid <$> particles s)
  /\ (forall p, p ∈ particles s -> (pid p < nextId s)%nat)
  /\ (forall d, d ∈ disposed s ->
                (d < nextId s)%nat /\ d ∉ (pid <$> particles s)).

(** [Steps body l kept removed]: running [body] on the particles of [l]
    keeps [kept] and removes the particles whose identities are
    [removed], both in the order of [l]. *)
Inductive Steps (body : Particle -> res (option Particle))
  : list Particle -> list Particle -> list nat -> Prop :=
| Steps_nil : Steps body [] [] []
| Steps_keep p p' l kept removed :
    body p = Ok (Some p') -> Steps body l kept removed ->
    Steps body (p :: l) (p' :: kept) removed
| Steps_remove p l kept removed :
    body p = Ok None -> Steps body l kept removed ->
    Steps body (p :: l) kept (pid p :: removed).

(** Frames that are at most [delta] seconds apart, the first one at most
    [delta] after the reading [last] of the clock. *)
Fixpoint paced (delta last : Q) (es : list Event) : Prop :=
  match es with
  | [] => True
  | Animate _ f :: es' =>
      0 <= (now f - last) / 1000 <= delta /\ paced delta (now f) es'
  | Click _ :: es' => paced delta last es'
  end.

(** The value of [timeRef] after the events [es], from the value [t] and
    the last reading [last] of the clock. *)
Fixpoint clock_after (t last : Q) (es : list Event) : Q :=
  match es with
  | [] => t
  | Animate _ f :: es' => clock_after (t + (now f - last) / 1000) (now f) es'
  | Click _ :: es' => clock_after t last es'
  end.

(** Is the [k]-th candidate of the frame drawn again in the same frame? *)
Definition redrawn (M : JSMath) (cfg : VisualConfig) (f : Frame) (k : nat)
    : bool :=
  match classify M cfg f (casts f k) with
  | TooLow | Hidden => true
  | Missed | Accepted _ _ _ => false
  end.

(** The number of candidates among the [n] candidates from the [k]-th
    on that are not drawn again: each of them uses up one slot of the
    batch. *)
Fixpoint slots_used (M : JSMath) (cfg : VisualConfig) (f : Frame) (k n : nat)
    : Z :=
  match n with
  | O => 0
  | S n' => (if redrawn M cfg f k then 0 else 1)
            + slots_used M cfg f (S k) n'
  end%Z.

(** [x * k ^ n] for the repeated shrinking of a scale. *)
Fixpoint shrunk (x k : Q) (n : nat) : Q :=
  match n with
  | O => x
  | S n' => shrunk x k n' * k
  end.

(** What the spawn loop leaves alone. *)
Definition same_outside_spawn (s s' : State) : Prop :=
  timeRef s' = timeRef s /\ waveState s' = waveState s
  /\ stateStartTime s' = stateStartTime s
  /\ gradientMap s' = gradientMap s
  /\ lastFrameTime s' = lastFrameTime s
  /\ wireframe_opacity s' = wireframe_opacity s
  /\ disposed s' = disposed s.

(** The particles a frame has placed: new objects, appended in the order
    of their creation, not fading and of age 0; each takes one off the
    spawn queue. *)
Definition placed (f : Frame) (s s' : State) (new : list Particle) : Prop :=
  particles s' = particles s ++ new
  /\ spawnQueue s' = (spawnQueue s - Z.of_nat (length new))%Z
  /\ nextId s' = (nextId s + length new)%nat
  /\ pid <$> new = seq (nextId s) (length new)
  /\ Forall (fun p => isFading p = false /\ age p = 0%nat) new
  /\ same_outside_spawn s s'
  /\ (lastWaveTime s' = lastWaveTime s
      \/ lastWaveTime s' = now_placed f / 1000).

(** Frames for the examples: the camera at its position after the first
    frame, the three readings of the clock equal, and either no ray that
    hits the ground plane or every ray hitting it at the origin. *)
Definition camera0 : Vector3 := {| v_x := 0; v_y := 160; v_z := 700 |}.

Definition no_hit : nat -> option (Q * Q) := fun _ => None.
Definition hit_origin : nat -> option (Q * Q) := fun _ => Some (0, 0).

Definition frame_at (t : Q) (c : nat -> option (Q * Q)) : Frame :=
  {| now := t; now_placed := t; now_check := t; camPos := camera0;
     casts := c |}.

(** Five frames 0.9 s apart after a mount at time 0: they take the wave
    from WAITING through SWELLING to ACTIVE. *)
Definition first_frames : list Event :=
  [ Animate 30 (frame_at 900 no_hit); Animate 30 (frame_at 1800 no_hit);
    Animate 30 (frame_at 2700 no_hit); Animate 30 (frame_at 3600 no_hit);
    Animate 30 (frame_at 4500 no_hit) ].

(** What the scheduler and the opacity sync leave alone. *)
Definition same_outside_scheduler (s s' : State) : Prop :=
  timeRef s' = timeRef s /\ lastWaveTime s' = lastWaveTime s
  /\ gradientMap s' = gradientMap s /\ lastFrameTime s' = lastFrameTime s
  /\ nextId s' = nextId s /\ disposed s' = disposed s
  /\ (particles s' = particles s
      \/ particles s' = map (set_isFading true) (particles s)).

(** The particle loop of a frame entered in state [s], run on the state
    [s2] the scheduler and the opacity sync have left. *)
Definition frame_body (M : JSMath) (cfg : VisualConfig) (f : Frame)
    (s s2 : State) : Particle -> res (option Particle) :=
  particle_body M cfg (frameScale f s) (spawnQueue s2) (gradientMap s2).

(** An event that places no particle: a click is none of these, and a
    frame is one when none of its candidates is accepted. *)
Definition places_nothing (M : JSMath) (cfg : VisualConfig) (e : Event)
    : Prop :=
  match e with
  | Animate _ f =>
      forall k x z y, classify M cfg f (casts f k) <> Accepted x z y
  | Click _ => False
  end.

(** The scheduler leaves ACTIVE in a frame whose spawn phase has left
    [s1]. *)
Definition leaves_ACTIVE (M : JSMath) (cfg : VisualConfig) (f : Frame)
    (s1 : State) : Prop :=
  spawnQueue s1 = 0%Z
  /\ (allParticlesStopped M cfg s1 = true
      \/ MAX_WAVE_INTERVAL (WAVES cfg)
         < now_check f / 1000 - lastWaveTime s1).

(** Two more frames, ten seconds apart, in which no ray hits the ground
    plane. *)
Definition late_frames : list Event :=
  [ Animate 30 (frame_at 14500 no_hit); Animate 30 (frame_at 24500 no_hit) ].

(** A component that was mounted 50 s after the time origin of
    [performance.now()], 20 s later: the wave is ACTIVE, its queue has
    drained, and the last particle was placed at 55.4 s on
    [performance.now()].  [ps] are its particles. *)
Definition drained (M : JSMath) (ps : list Particle) : State :=
  {| particles := ps;
     timeRef := 20;
     waveState := ACTIVE;
     stateStartTime := 1.8;
     lastWaveTime := 55.4;
     spawnQueue := 0;
     gradientMap := Some (buildGradientMap M VISUAL_CONFIG);
     lastFrameTime := 70000;
     wireframe_opacity := 0.07;
     nextId := 1000;
     disposed := [] |}.

(** A state with one particle, spawned by a click and now moving, over a
    3 x 3 gradient map; the scheduler is in WAITING. *)
Definition MAP3 : GradientMap := {|
  dxMap := [1; 2; 3; 4; 5; 6; 7; 8; 9];
  dzMap := [0; 0; 0; 1; 1; 1; 2; 2; 2];
  stepX := 1000;
  stepZ := 1000
|}.

Definition rolling : Particle := {|
  pid := 0;
  mesh_position := {| v_x := 10; v_y := -31; v_z := -20 |};
  mesh_scale := {| v_x := 1; v_y := 1; v_z := 1 |};
  p_x := 10; p_z := 20; p_vx := 0.5; p_vz := -0.25;
  age := 7;
  isFading := false
|}.

Definition one_rolling : State := {|
  particles := [rolling];
  timeRef := 0.5;
  waveState := WAITING;
  stateStartTime := 0;
  lastWaveTime := 0;
  spawnQueue := 0;
  gradientMap := Some MAP3;
  lastFrameTime := 500;
  wireframe_opacity := 0.07;
  nextId := 1;
  disposed := []
|}.

(** The same state once the particle has been flagged as fading. *)
Definition one_fading : State :=
  set_particles [set_isFading true rolling] one_rolling.

(** The number of frames among the events. *)
Fixpoint frames_in (es : list Event) : nat :=
  match es with
  | [] => 0
  | Animate _ _ :: es' => S (frames_in es')
  | Click _ :: es' => frames_in es'
  end.

(** The particle objects with identity [d] in a state are fading. *)
Definition fading_id (d : nat) (s : State) : Prop :=
  forall p, p ∈ particles s -> pid p = d -> isFading p = true.

(** The particle object [d] is gone: disposed, and not in the list. *)
Definition gone (d : nat) (s : State) : Prop :=
  d ∈ disposed s /\ d ∉ (pid <$> particles s).

(** The configuration with the lifespan [PHYSICS.MAX_AGE] set to [n]. *)
Definition with_MAX_AGE (n : nat) (cfg : VisualConfig) : VisualConfig :=
  {| TERRAIN := TERRAIN cfg;
     WAVES := WAVES cfg;
     PHYSICS := {| LEARNING_RATE := LEARNING_RATE (PHYSICS cfg);
                   MOMENTUM := MOMENTUM (PHYSICS cfg);
                   MAX_AGE := n;
                   GRADIENT_MAP_RESOLUTION :=
                     GRADIENT_MAP_RESOLUTION (PHYSICS cfg) |};
     PARTICLES := PARTICLES cfg |}.

(** * The rest of the component

    The parts of [LossLandscape] beside the simulation core: the colours
    of the terrain mesh, the pointer handlers and the camera, the FPS
    counter, the screen coordinates of the spawn candidates, the ambient
    dust, what the particle loop writes to the materials and the trail
    of a particle, and the [gradient] of the earlier version of the
    component. *)

(** ** Host constants and functions *)

(** [Math.PI], the double nearest to pi. *)
Definition Math_PI : Q := 884279719003555 # 281474976710656.

Definition Math_sign (x : Q) : Q :=
  if Qltb 0 x then 1 else if Qltb x 0 then -1 else 0.

(** ** Terrain colours (4. terrain geometry & material) *)

Record RGB := { rgb_r : Q; rgb_g : Q; rgb_b : Q }.

(** The entries of [VISUAL_CONFIG.TERRAIN] the colour passes read. *)
Record TerrainColours := {
  BASE_COLOR_RGB : RGB;
  PEAK_COLOR_OFFSET : RGB;
  HEIGHT_INTENSITY : Q;
  HEIGHT_BLOOM : Q
}.

Definition TERRAIN_COLOURS : TerrainColours := {|
  BASE_COLOR_RGB := {| rgb_r := 0.0; rgb_g := 0.01; rgb_b := 0.03 |};
  PEAK_COLOR_OFFSET := {| rgb_r := 0.6; rgb_g := 1.0; rgb_b := 0.8 |};
  HEIGHT_INTENSITY := 8.0;
  HEIGHT_BLOOM := 10.0
|}.

(** [minH] and [maxH] of pass 1: [None] is the [Infinity] and the
    [-Infinity] they start from, for which [h < minH] and [h > maxH]
    hold. *)
Definition below (h : Q) (minH : option Q) : bool :=
  match minH with None => true | Some m => Qltb h m end.

Definition above (h : Q) (maxH : option Q) : bool :=
  match maxH with None => true | Some m => Qgtb h m end.

(** Pass 1, on the heights of the vertices in the order of the loop. *)
Definition discover_range (hs : list Q) : option Q * option Q :=
  foldl (fun mm h =>
           (if below h (fst mm) then Some h else fst mm,
            if above h (snd mm) then Some h else snd mm))
        (None, None) hs.

(** [(maxH - minH) || 1.0] *)
Definition height_range (minH maxH : Q) : Q :=
  if Qeq_bool (maxH - minH) 0 then 1.0 else maxH - minH.

Section TerrainColouring.
Variable M : JSMath.
Variable T : TerrainConfig.
Variable C : TerrainColours.

(** [positions.setZ(i, lossFunction(positions.getX(i), positions.getY(i)))]
    for the vertices of the plane, given by their [x] and [y]. *)
Definition vertex_heights (positions : list (Q * Q)) : list Q :=
  map (fun xy => lossFunction M T (fst xy) (snd xy)) positions.

Definition normalizedHeight (minH range h : Q) : Q := (h - minH) / range.

(** The three numbers pass 2 pushes for a vertex of height [h]. *)
Definition vertex_colour (minH range h : Q) : list Q :=
  let normalizedHeight := normalizedHeight minH range h in
  let intensity := Math_pow M normalizedHeight (HEIGHT_INTENSITY C) in
  let bloom := Math_pow M normalizedHeight (HEIGHT_BLOOM C) in
  let r := Math_min 1.0 (rgb_r (BASE_COLOR_RGB C)
                         + intensity * rgb_r (PEAK_COLOR_OFFSET C) + bloom) in
  let g := Math_min 1.0 (rgb_g (BASE_COLOR_RGB C)
                         + intensity * rgb_g (PEAK_COLOR_OFFSET C) + bloom) in
  let b := Math_min 1.0 (rgb_b (BASE_COLOR_RGB C)
                         + intensity * rgb_b (PEAK_COLOR_OFFSET C)
                         + bloom * 0.7) in
  [r; g; b].

(** The array [colors] after pass 2.  Without a vertex neither loop runs
    and the array stays empty. *)
Definition terrain_colours (positions : list (Q * Q)) : list Q :=
  let hs := vertex_heights positions in
  match discover_range hs with
  | (Some minH, Some maxH) =>
      let range := height_range minH maxH in
      concat (map (vertex_colour minH range) hs)
  | _ => []
  end.

End TerrainColouring.

(** ** Pointer handlers and camera *)

Record CameraLimits := { LEFT : Q; RIGHT : Q; UP : Q; DOWN : Q }.

Record CameraConfig := {
  INITIAL_POS : Vector3;
  INITIAL_YAW : Q;
  INITIAL_PITCH : Q;
  MOUSE_SMOOTHING : Q;
  ZOOM_STEER_STRENGTH : Q;
  RELATIVE_SENSITIVITY_X : Q;
  RELATIVE_SENSITIVITY_Y : Q;
  LIMITS : CameraLimits
}.

Definition CAMERA : CameraConfig := {|
  INITIAL_POS := {| v_x := 0; v_y := 160; v_z := 300 |};
  INITIAL_YAW := 0.0;
  INITIAL_PITCH := -0.3;
  MOUSE_SMOOTHING := 0.05;
  ZOOM_STEER_STRENGTH := 0.0;
  RELATIVE_SENSITIVITY_X := 0.001;
  RELATIVE_SENSITIVITY_Y := 0.002;
  LIMITS := {| LEFT := 80; RIGHT := 80; UP := 10; DOWN := 60 |}
|}.

(** The refs and variables of the effect the pointer handlers and the
    camera block of [animate] use. *)
Record Controls := {
  mouse : Q * Q;                  (* mouseRef.current: x, y *)
  isMiddleClickDown : bool;
  yaw : Q;                        (* cameraRotation.current.yaw *)
  pitch : Q;
  lastMousePos : Q * Q;
  smoothMouse : Q * Q             (* smoothMouseX, smoothMouseY *)
}.

(** [getBoundingClientRect()] of the container. *)
Record Rect := {
  rect_left : Q;
  rect_top : Q;
  rect_width : Q;
  rect_height : Q
}.

Inductive PointerEvent :=
| mousemove (clientX clientY : Q) (rect : Rect)
| mousedown (button : Z) (clientX clientY : Q)
| mouseup (button : Z).

Section Pointer.
Variable C : CameraConfig.

Definition initial_controls : Controls :=
  {| mouse := (0, 0);
     isMiddleClickDown := false;
     yaw := INITIAL_YAW C;
     pitch := INITIAL_PITCH C;
     lastMousePos := (0, 0);
     smoothMouse := (0, 0) |}.

Definition handleMouseMove (clientX clientY : Q) (rect : Rect)
    (c : Controls) : Controls :=
  let mouse_x := ((clientX - rect_left rect) / rect_width rect) * 2 - 1 in
  let mouse_y := - ((clientY - rect_top rect) / rect_height rect) * 2 + 1 in
  if isMiddleClickDown c then
    let deltaX := clientX - fst (lastMousePos c) in
    let deltaY := clientY - snd (lastMousePos c) in
    (* 1. new yaw with limits *)
    let newYaw := yaw c - deltaX * RELATIVE_SENSITIVITY_X C in
    let maxLeft := - LEFT (LIMITS C) * (Math_PI / 180) in
    let maxRight := RIGHT (LIMITS C) * (Math_PI / 180) in
    (* 2. new pitch with limits *)
    let newPitch := pitch c - deltaY * RELATIVE_SENSITIVITY_Y C in
    let maxUp := UP (LIMITS C) * (Math_PI / 180) in
    let maxDown := - DOWN (LIMITS C) * (Math_PI / 180) in
    {| mouse := (mouse_x, mouse_y);
       isMiddleClickDown := true;
       yaw := Math_max maxLeft (Math_min maxRight newYaw);
       pitch := Math_max maxDown (Math_min maxUp newPitch);
       lastMousePos := (clientX, clientY);
       smoothMouse := smoothMouse c |}
  else
    {| mouse := (mouse_x, mouse_y);
       isMiddleClickDown := false;
       yaw := yaw c;
       pitch := pitch c;
       lastMousePos := lastMousePos c;
       smoothMouse := smoothMouse c |}.

Definition handleMouseDown (button : Z) (clientX clientY : Q)
    (c : Controls) : Controls :=
  if (button =? 1)%Z then
    {| mouse := mouse c;
       isMiddleClickDown := true;
       yaw := yaw c;
       pitch := pitch c;
       lastMousePos := (clientX, clientY);
       smoothMouse := smoothMouse c |}
  else c.

Definition handleMouseUp (button : Z) (c : Controls) : Controls :=
  if (button =? 1)%Z then
    {| mouse := mouse c;
       isMiddleClickDown := false;
       yaw := yaw c;
       pitch := pitch c;
       lastMousePos := lastMousePos c;
       smoothMouse := smoothMouse c |}
  else c.

Definition dispatch (e : PointerEvent) (c : Controls) : Controls :=
  match e with
  | mousemove clientX clientY rect => handleMouseMove clientX clientY rect c
  | mousedown button clientX clientY => handleMouseDown button clientX clientY c
  | mouseup button => handleMouseUp button c
  end.

Definition dispatch_all (es : list PointerEvent) (c : Controls) : Controls :=
  foldl (fun c e => dispatch e c) c es.

(** "2. camera" of [animate]: the smoothed mouse and the position the
    camera is set to. *)
Definition smooth_mouse (frameScale : Q) (c : Controls) : Q * Q :=
  if isMiddleClickDown c then
    (fst (smoothMouse c)
     + (fst (mouse c) - fst (smoothMouse c)) * MOUSE_SMOOTHING C * frameScale,
     snd (smoothMouse c)
     + (snd (mouse c) - snd (smoothMouse c)) * MOUSE_SMOOTHING C * frameScale)
  else smoothMouse c.

Definition camera_position (T : TerrainConfig) (smooth : Q * Q) : Vector3 :=
  let fixedZ := DEPTH T / 2.0 - v_z (INITIAL_POS C) in
  let leanX := fst smooth * (fixedZ * ZOOM_STEER_STRENGTH C) in
  let leanY := snd smooth * (fixedZ * ZOOM_STEER_STRENGTH C) in
  {| v_x := v_x (INITIAL_POS C) + leanX;
     v_y := v_y (INITIAL_POS C) + leanY;
     v_z := fixedZ |}.

(** The camera block on the controls: the new smoothed mouse is kept
    for the next frame. *)
Definition animate_camera (frameScale : Q) (c : Controls) : Controls :=
  {| mouse := mouse c;
     isMiddleClickDown := isMiddleClickDown c;
     yaw := yaw c;
     pitch := pitch c;
     lastMousePos := lastMousePos c;
     smoothMouse := smooth_mouse frameScale c |}.

End Pointer.

(** ** FPS counter *)

(** [frameCountRef], [lastFpsUpdateTimeRef] and the number in the text
    of the element [fpsRef] points to ([None]: the text "FPS: --" it is
    rendered with). *)
Record FpsCounter := {
  frameCount : nat;
  lastFpsUpdateTime : Q;
  innerText : option nat
}.

(** The block [if (VISUAL_CONFIG.DEBUG.SHOW_FPS) { ... }] of [animate];
    [mounted] says whether [fpsRef.current] is set. *)
Definition count_frame (SHOW_FPS mounted : bool) (now : Q) (c : FpsCounter)
    : FpsCounter :=
  if SHOW_FPS then
    let count := S (frameCount c) in
    if Qle_bool 1000 (now - lastFpsUpdateTime c) then
      {| frameCount := 0;
         lastFpsUpdateTime := now;
         innerText := if mounted then Some count else innerText c |}
    else
      {| frameCount := count;
         lastFpsUpdateTime := lastFpsUpdateTime c;
         innerText := innerText c |}
  else c.

Definition count_frames (SHOW_FPS mounted : bool) (nows : list Q)
    (c : FpsCounter) : FpsCounter :=
  foldl (fun c now => count_frame SHOW_FPS mounted now c) c nows.

(** ** Screen coordinates of a spawn candidate *)

Record SpawnBias := { DISTANCE_BIAS : Q; HORIZONTAL_CENTRAL_BIAS : Q }.

Definition SPAWN_BIAS : SpawnBias :=
  {| DISTANCE_BIAS := 4.0; HORIZONTAL_CENTRAL_BIAS := 1.2 |}.

Section Candidates.
Variable M : JSMath.
Variable B : SpawnBias.

(** From the two draws [Math.random()] of an iteration of the spawn
    loop. *)
Definition screenX (random1 : Q) : Q :=
  let rawX := random1 * 2 - 1 in
  Math_pow M (Math_abs rawX) (HORIZONTAL_CENTRAL_BIAS B) * Math_sign rawX.

Definition screenY (random2 : Q) : Q :=
  let bias := DISTANCE_BIAS B in
  let rawY := random2 in
  let biasedY := Math_pow M rawY (1 / bias) in
  biasedY * 2 - 1.

End Candidates.

(** ** Ambient dust *)

Record DustConfig := { COUNT : nat; MIN_HEIGHT : Q; HEIGHT_RANGE : Q }.

Definition AMBIENT_DUST : DustConfig :=
  {| COUNT := 1500; MIN_HEIGHT := 150; HEIGHT_RANGE := 300 |}.

Section Dust.
Variable M : JSMath.
Variable Math_cos : Q -> Q.
Variable T : TerrainConfig.
Variable D : DustConfig.

(** The position of mote [i] at the mount; [random] gives the draws of
    [Math.random()] in their order, six for each mote (the last three go
    to [dustVelocities], which nothing reads). *)
Definition dust_position (random : nat -> Q) (i : nat) : Vector3 :=
  {| v_x := (random (6 * i)%nat - 0.5) * WIDTH T;
     v_y := MIN_HEIGHT D + random (6 * i + 1)%nat * HEIGHT_RANGE D;
     v_z := (random (6 * i + 2)%nat - 0.5) * DEPTH T |}.

Definition dustPositions (random : nat -> Q) : list Vector3 :=
  map (dust_position random) (seq 0 (COUNT D)).

(** The body of the dust loop of [animate] for mote [i]. *)
Definition drift (time : Q) (i : nat) (p : Vector3) : Vector3 :=
  let x := v_x p in
  let y := v_y p in
  let z := v_z p in
  let y := y + Math_sin M (time + Qnat i) * 0.05 in
  let x := x + Math_cos (time * 0.5 + Qnat i) * 0.02 in
  let y := if Qgtb y (HEIGHT_RANGE D) then 0 else y in
  {| v_x := x; v_y := y; v_z := z |}.

Definition animate_dust (time : Q) (positions : list Vector3)
    : list Vector3 :=
  imap (drift time) positions.

End Dust.

(** ** Materials and trail of a particle *)

(** A [THREE.Color] by the call that last set it: [setHex(h)] (or the
    constructor) and [lerpColors(c1, c2, alpha)] on two colours given by
    their hex numbers. *)
Inductive Colour :=
| setHex (h : N)
| lerpColors (c1 c2 : N) (alpha : Q).

Record ReactionConfig := {
  MIN_GLOW : Q;
  MAX_GLOW : Q;
  MIN_OPACITY : Q;
  MAX_OPACITY : Q;
  SENSITIVITY : Q
}.

(** The entries of [VISUAL_CONFIG.PARTICLES] the materials and the trail
    read. *)
Record MaterialsConfig := {
  GLOW_COLOR : N;
  STAGING_COLOR : N;
  TRAIL_LENGTH : nat;
  REACTION : ReactionConfig
}.

Definition MATERIALS : MaterialsConfig := {|
  GLOW_COLOR := 65535;        (* 0x00ffff *)
  STAGING_COLOR := 65484;     (* 0x00ffcc *)
  TRAIL_LENGTH := 150;
  REACTION := {| MIN_GLOW := 0.0; MAX_GLOW := 15.0;
                 MIN_OPACITY := 0.05; MAX_OPACITY := 1.0;
                 SENSITIVITY := 15.0 |}
|}.

(** The uniforms of the mesh material and the trail of a particle: the
    colour and opacity of its line material and the points of its
    position attribute, the head first. *)
Record Visual := {
  uColor : Colour;
  uOpacity : Q;
  uGlowIntensity : Q;
  trail_color : Colour;
  trail_opacity : Q;
  trail : list Vector3
}.

(** [for (let j = posAttr.count - 1; j > 0; j--) body(j)] on the points
    of a trail. *)
Definition for_down (body : list Vector3 -> nat -> list Vector3)
    (points : list Vector3) : list Vector3 :=
  foldl body points (rev (seq 1 (length points - 1))).

(** The point [curr] moved towards the point [next] ahead of it. *)
Definition towards (curr next : Vector3) : Vector3 :=
  {| v_x := v_x curr + (v_x next - v_x curr) * 0.15;
     v_y := v_y curr + (v_y next - v_y curr) * 0.15;
     v_z := v_z curr + (v_z next - v_z curr) * 0.15 |}.

(** The trail of a fading particle: each point is pulled towards the
    point ahead of it. *)
Definition collapse_point (points : list Vector3) (j : nat)
    : list Vector3 :=
  match points !! j, points !! (j - 1)%nat with
  | Some curr, Some next => <[j := towards curr next]> points
  | _, _ => points
  end.

Definition collapse_trail (points : list Vector3) : list Vector3 :=
  for_down collapse_point points.

(** The trail of a moving particle: each point takes the place of the
    one behind it and the head is set to the position [head]. *)
Definition shift_point (points : list Vector3) (j : nat) : list Vector3 :=
  match points !! (j - 1)%nat with
  | Some ahead => <[j := ahead]> points
  | None => points
  end.

Definition advance_trail (head : Vector3) (points : list Vector3)
    : list Vector3 :=
  <[0%nat := head]> (for_down shift_point points).

(** The trail of a staged particle: every point is at [head]. *)
Definition lock_trail (head : Vector3) (points : list Vector3)
    : list Vector3 :=
  foldl (fun points j => <[j := head]> points) points
        (seq 0 (length points)).

Section Materials.
Variable M : JSMath.
Variable cfg : VisualConfig.
Variable V : MaterialsConfig.

Let loss := lossFunction M (TERRAIN cfg).
Let W := WAVES cfg.
Let P := PARTICLES cfg.

(** What [spawnParticle(x, z, overrideY)] gives the new particle: a
    clone of [ParticleShader.uniforms] and a trail of [TRAIL_LENGTH]
    points at the spawn position. *)
Definition spawn_visual (x z : Q) (overrideY : option Q) : Visual :=
  let groundHeight :=
    match overrideY with Some y => y | None => loss x z end in
  let spawnY := groundHeight + SPAWN_HEIGHT_OFFSET P in
  {| uColor := setHex 65416;  (* 0x00ff88 *)
     uOpacity := 1.0;
     uGlowIntensity := 1.5;
     trail_color := setHex (GLOW_COLOR V);
     trail_opacity := 0.8;
     trail := lock_trail {| v_x := x; v_y := spawnY; v_z := - z |}
                (replicate (TRAIL_LENGTH V) {| v_x := 0; v_y := 0; v_z := 0 |})
  |}.

(** What an iteration of the particle loop that does not splice the
    particle out writes to its materials and its trail.  [p] is the
    particle after "2. physics & movement"; [queue] is
    [spawnQueueRef.current]. *)
Definition visual_body (queue : Z) (p : Particle) (v : Visual) : Visual :=
  (* 1. shrink & fade *)
  let v :=
    if isFading p
    then {| uColor := uColor v; uOpacity := uOpacity v;
            uGlowIntensity := uGlowIntensity v;
            trail_color := trail_color v;
            trail_opacity := trail_opacity v * (1.0 - FADE_OUT_SPEED W);
            trail := collapse_trail (trail v) |}
    else v in
  let newY := loss (p_x p) (p_z p) + HEIGHT_OFFSET P in
  (* 3. colour & shader updates *)
  let speed := speed M p in
  let speedFactor := Math_min (speed / 0.15) 1.0 in
  let speedFactor := Math_pow M speedFactor 1.2 in
  let cActive := 65416%N in    (* 0x00ff88 *)
  let cFlash := 16777215%N in  (* 0xffffff *)
  let v :=
    if isFading p
    then {| uColor := uColor v;
            uOpacity := uOpacity v * (1.0 - FADE_OUT_SPEED W);
            uGlowIntensity := uGlowIntensity v * (1.0 - FADE_OUT_SPEED W);
            trail_color := trail_color v;
            trail_opacity := trail_opacity v;
            trail := trail v |}
    else if (0 <? queue)%Z
    then (* staging phase *)
         {| uColor := setHex (STAGING_COLOR V);
            uOpacity := 1.0;
            uGlowIntensity := 2.5;
            trail_color := setHex (STAGING_COLOR V);
            trail_opacity := 0.8;
            trail := trail v |}
    else (* active phase *)
         let reactionFactor :=
           Math_min 1.0 (speed * SENSITIVITY (REACTION V)) in
         {| uColor := lerpColors cActive cFlash speedFactor;
            uOpacity := MathUtils.lerp (MIN_OPACITY (REACTION V))
                          (MAX_OPACITY (REACTION V)) reactionFactor;
            uGlowIntensity := MathUtils.lerp (MIN_GLOW (REACTION V))
                                (MAX_GLOW (REACTION V)) reactionFactor;
            trail_color := lerpColors cActive cFlash speedFactor;
            trail_opacity := trail_opacity v;
            trail := trail v |} in
  (* 4. trail buffer update *)
  let head := {| v_x := p_x p; v_y := newY; v_z := - p_z p |} in
  if negb (isFading p) && (queue =? 0)%Z
  then {| uColor := lerpColors cActive cFlash speedFactor;
          uOpacity := uOpacity v;
          uGlowIntensity := uGlowIntensity v;
          trail_color := lerpColors cActive cFlash speedFactor;
          trail_opacity := trail_opacity v;
          trail := advance_trail head (trail v) |}
  else if negb (isFading p) && (0 <? queue)%Z
  then {| uColor := uColor v; uOpacity := uOpacity v;
          uGlowIntensity := uGlowIntensity v;
          trail_color := trail_color v;
          trail_opacity := trail_opacity v;
          trail := lock_trail head (trail v) |}
  else v.

(** The body of the particle loop on a particle with its materials and
    trail. *)
Definition sprite_body (frameScale : Q) (queue : Z)
    (map : option GradientMap) (pv : Particle * Visual)
    : res (option (Particle * Visual)) :=
  do r <- particle_body M cfg frameScale queue map (fst pv);
  match r with
  | None => Ok None
  | Some p' => Ok (Some (p', visual_body queue p' (snd pv)))
  end.

End Materials.

(** ** The [gradient] of the earlier version of the component *)

Module Legacy.
Section Legacy.
Variable M : JSMath.
Variable cfg : VisualConfig.

Let lossFunction := lossFunction M (TERRAIN cfg).

(** [gradient(x, z)] of [src/components/Hero/LossLandscape.jsx]: the
    central differences at the point itself. *)
Definition gradient (x z : Q) : Grad :=
  let h := 0.05 in
  let f0 := lossFunction x z in
  if negb (isFinite M f0) then {| dx := 0; dz := 0 |}
  else
    let dx := (lossFunction (x + h) z - lossFunction (x - h) z) / (2 * h) in
    let dz := (lossFunction x (z + h) - lossFunction x (z - h)) / (2 * h) in
    {| dx := if isFinite M dx then dx else 0;
       dz := if isFinite M dz then dz else 0 |}.

End Legacy.
End Legacy.

(** ** Vocabulary of the properties of the rest of the component *)

(** The sum of the amplitudes of [k] octaves of [lossFunction], the
    first of amplitude [amp]: every octave has 0.55 of the amplitude of
    the one before it. *)
Fixpoint octave_total (k : nat) (amp : Q) : Q :=
  match k with
  | O => 0
  | S k' => amp + octave_total k' (amp * 0.55)
  end.

(** Yaw and pitch are within the limits of the camera, which are given
    in degrees. *)
Definition in_limits (C : CameraConfig) (c : Controls) : Prop :=
  - LEFT (LIMITS C) * (Math_PI / 180) <= yaw c <= RIGHT (LIMITS C) * (Math_PI / 180)
  /\ - DOWN (LIMITS C) * (Math_PI / 180) <= pitch c <= UP (LIMITS C) * (Math_PI / 180).

(** The events that start a drag: a [mousedown] of the middle button. *)
Definition starts_drag (e : PointerEvent) : bool :=
  match e with
  | mousedown button _ _ => (button =? 1)%Z
  | _ => false
  end.

(** The pointer is inside the bounding rectangle of the container. *)
Definition inside (clientX clientY : Q) (rect : Rect) : Prop :=
  rect_left rect <= clientX <= rect_left rect + rect_width rect
  /\ rect_top rect <= clientY <= rect_top rect + rect_height rect.

(** The three components of the scale of the mesh are equal. *)
Definition uniform_scale (p : Particle) : Prop :=
  v_y (mesh_scale p) = v_x (mesh_scale p)
  /\ v_z (mesh_scale p) = v_x (mesh_scale p).

(** The mesh is at the particle: world z is minus the particle's z. *)
Definition mesh_mirrors (p : Particle) : Prop :=
  v_x (mesh_position p) = p_x p /\ v_z (mesh_position p) = - p_z p.

(** The scale of the mesh is positive and at most 1.5 times
    [MAX_LOSS_SCALE], and at least [MIN_LOSS_SCALE] while the particle
    is not fading. *)
Definition scale_in_range (cfg : VisualConfig) (p : Particle) : Prop :=
  0 < v_x (mesh_scale p) <= 1.5 * MAX_LOSS_SCALE (PARTICLES cfg)
  /\ (isFading p = false -> MIN_LOSS_SCALE (PARTICLES cfg) <= v_x (mesh_scale p)).

(** The spawn queue is between 0 and [PARTICLES_PER_WAVE], and positive
    in ACTIVE only. *)
Definition queue_ok (cfg : VisualConfig) (s : State) : Prop :=
  (0 <= spawnQueue s <= PARTICLES_PER_WAVE (WAVES cfg))%Z
  /\ ((0 < spawnQueue s)%Z -> waveState s = ACTIVE).

(** [q] is where [p] is, with the velocity of [p]. *)
Definition same_motion (p q : Particle) : Prop :=
  p_x q = p_x p /\ p_z q = p_z p /\ p_vx q = p_vx p /\ p_vz q = p_vz p.

(** The particle object of [p], if it is in the list of [s], is fading
    and has not moved. *)
Definition frozen_as (p : Particle) (s : State) : Prop :=
  forall q, q ∈ particles s -> pid q = pid p ->
    isFading q = true /\ same_motion p q.

(** A particle as the spawn loop of frame [f] places it: on a point
    [(hx, hz)] of the ground plane inside the terrain bounds, at which
    [lossFunction(hx, hz)] is not below [MIN_SPAWN_HEIGHT] and which is
    visible from the camera. *)
Definition spawn_site (M : JSMath) (cfg : VisualConfig) (f : Frame)
    (p : Particle) : Prop :=
  exists hx hz,
    let realHeight := lossFunction M (TERRAIN cfg) hx hz in
    Math_abs hx <= WIDTH (TERRAIN cfg) / 2
    /\ Math_abs hz <= DEPTH (TERRAIN cfg) / 2
    /\ MIN_SPAWN_HEIGHT (WAVES cfg) <= realHeight
    /\ isVisible M cfg (camPos f) hx hz realHeight = true
    /\ p_x p = hx /\ p_z p = - hz
    /\ mesh_position p
       = {| v_x := hx;
            v_y := realHeight + SPAWN_HEIGHT_OFFSET (PARTICLES cfg);
            v_z := - - hz |}
    /\ p_vx p = 0 /\ p_vz p = 0 /\ age p = 0%nat /\ isFading p = false.

(** ** Values for the examples of these properties *)

(** A host whose [Math.pow] squares and whose [Math.sqrt] is the
    absolute value. *)
Definition MathSq : JSMath := {|
  Math_sin := fun _ => 0;
  Math_pow := fun x _ => x * x;
  Math_sqrt := fun x => Qabs x;
  isFinite := fun _ => true
|}.

(** A container of 800 x 600 pixels at the origin of the page. *)
Definition CONTAINER : Rect :=
  {| rect_left := 0; rect_top := 0; rect_width := 800; rect_height := 600 |}.

(** The middle button goes down at (400, 300); the pointer moves far to
    the right and up, and the button is released. *)
Definition long_drag : list PointerEvent :=
  [ mousedown 1 400 300; mousemove 5000 (-3000) CONTAINER; mouseup 1 ].

(** Moves and a click of the left button. *)
Definition left_button : list PointerEvent :=
  [ mousemove 10 10 CONTAINER; mousedown 0 10 10; mouseup 0;
    mousemove 700 500 CONTAINER ].

(** The state [one_rolling] while a wave is being released: ACTIVE, with
    five particles left in the queue. *)
Definition one_staged : State :=
  set_wave ACTIVE 0 (set_spawnQueue 5 one_rolling).

(** The materials as configured, with a trail of three points. *)
Definition SHORT_TRAILS : MaterialsConfig := {|
  GLOW_COLOR := 65535;
  STAGING_COLOR := 65484;
  TRAIL_LENGTH := 3;
  REACTION := REACTION MATERIALS
|}.

(** Materials and trail of a new particle at the place of [rolling]. *)
Definition new_visual : Visual :=
  spawn_visual Math0 GRID3 SHORT_TRAILS 10 20 (Some (-33)).

(** The configuration [GRID3] with [MIN_SPAWN_HEIGHT] lowered to -40,
    below the elevation -36 that the terrain of [Math0] has everywhere. *)
Definition VALLEY_SITES : VisualConfig := {|
  TERRAIN := TERRAIN GRID3;
  WAVES := {|
    FIRST_WAVE_DELAY := FIRST_WAVE_DELAY (WAVES GRID3);
    PARTICLES_PER_WAVE := PARTICLES_PER_WAVE (WAVES GRID3);
    BATCH_SIZE := BATCH_SIZE (WAVES GRID3);
    MAX_WAVE_INTERVAL := MAX_WAVE_INTERVAL (WAVES GRID3);
    SWELL_TIME := SWELL_TIME (WAVES GRID3);
    MAX_SWELL_OPACITY := MAX_SWELL_OPACITY (WAVES GRID3);
    FLASH_DECAY := FLASH_DECAY (WAVES GRID3);
    VELOCITY_THRESHOLD := VELOCITY_THRESHOLD (WAVES GRID3);
    FADE_OUT_SPEED := FADE_OUT_SPEED (WAVES GRID3);
    BUFFER_TIME := BUFFER_TIME (WAVES GRID3);
    MIN_SPAWN_HEIGHT := -40 |};
  PHYSICS := PHYSICS GRID3;
  PARTICLES := PARTICLES GRID3
|}.

(** * Properties *)

(** ** Comparisons, [Math.min], [Math.max], [clamp] *)

Lemma Qltb_lt (a b : Q) : Qltb a b = true <-> a < b.
Proof.
  unfold Qltb. rewrite negb_true_iff.
  destruct (Qle_bool b a) eqn:E.
  - apply Qle_bool_iff in E. split; [discriminate | lra].
  - split; [intros _ | reflexivity].
    destruct (Qlt_le_dec a b) as [H | H]; [exact H |].
    apply Qle_bool_iff in H. congruence.
Qed.

Lemma Qltb_ge (a b : Q) : Qltb a b = false <-> b <= a.
Proof.
  destruct (Qltb a b) eqn:E.
  - apply Qltb_lt in E. split; [discriminate | lra].
  - split; [intros _ | reflexivity].
    destruct (Qlt_le_dec a b) as [H | H]; [| exact H].
    apply Qltb_lt in H. congruence.
Qed.

Lemma Qgtb_gt (a b : Q) : Qgtb a b = true <-> b < a.
Proof. unfold Qgtb. apply Qltb_lt. Qed.

Lemma Qgtb_le (a b : Q) : Qgtb a b = false <-> a <= b.
Proof. unfold Qgtb. apply Qltb_ge. Qed.

Lemma Math_min_spec (a b : Q) :
  (a <= b /\ Math_min a b = a) \/ (b < a /\ Math_min a b = b).
Proof.
  unfold Math_min. destruct (Qle_bool a b) eqn:E.
  - left. apply Qle_bool_iff in E. auto.
  - right. split; [| reflexivity].
    destruct (Qlt_le_dec b a) as [H | H]; [exact H |].
    apply Qle_bool_iff in H. congruence.
Qed.

Lemma Math_max_spec (a b : Q) :
  (a <= b /\ Math_max a b = b) \/ (b < a /\ Math_max a b = a).
Proof.
  unfold Math_max. destruct (Qle_bool a b) eqn:E.
  - left. apply Qle_bool_iff in E. auto.
  - right. split; [| reflexivity].
    destruct (Qlt_le_dec b a) as [H | H]; [exact H |].
    apply Qle_bool_iff in H. congruence.
Qed.

Lemma clamp_bounds (v lo hi : Q) :
  lo <= hi -> lo <= MathUtils.clamp v lo hi <= hi.
Proof.
  intros Hlohi. unfold MathUtils.clamp.
  destruct (Math_min_spec hi v) as [[H1 ->] | [H1 ->]];
    [destruct (Math_max_spec lo hi) as [[H2 ->] | [H2 ->]]
    | destruct (Math_max_spec lo v) as [[H2 ->] | [H2 ->]]]; lra.
Qed.

(** Inside the bounds [clamp] is the identity. *)
Lemma clamp_inside (v lo hi : Q) :
  lo <= v <= hi -> MathUtils.clamp v lo hi == v.
Proof.
  intros [Hlo Hhi]. unfold MathUtils.clamp.
  destruct (Math_min_spec hi v) as [[H1 ->] | [H1 ->]];
    [destruct (Math_max_spec lo hi) as [[H2 ->] | [H2 ->]]
    | destruct (Math_max_spec lo v) as [[H2 ->] | [H2 ->]]]; lra.
Qed.

Lemma Qnat_minus_Z (n : nat) (k : Z) :
  Qnat n - inject_Z k == inject_Z (Z.of_nat n - k).
Proof.
  unfold Qnat. rewrite <- (Z.add_opp_r (Z.of_nat n) k).
  rewrite inject_Z_plus, inject_Z_opp. reflexivity.
Qed.

(** ** Determinism of the height field and of the gradient map *)

Section Determinism.
Variable M : JSMath.

Lemma hash_seed (T1 T2 : TerrainConfig) (px pz : Q) :
  SEED T1 = SEED T2 -> hash M T1 px pz = hash M T2 px pz.
Proof. unfold hash. intros ->. reflexivity. Qed.

Lemma noise_seed (T1 T2 : TerrainConfig) (tx tz : Q) :
  SEED T1 = SEED T2 -> noise M T1 tx tz = noise M T2 tx tz.
Proof.
  intros H. unfold noise.
  rewrite !(hash_seed T1 T2) by exact H. reflexivity.
Qed.

Lemma octaves_seed (T1 T2 : TerrainConfig) (k : nat) (x z h amp freq : Q) :
  SEED T1 = SEED T2 ->
  octaves M T1 k x z h amp freq = octaves M T2 k x z h amp freq.
Proof.
  intros H. revert h amp freq.
  induction k as [| k IH]; intros h amp freq; cbn [octaves]; [reflexivity |].
  rewrite (noise_seed T1 T2) by exact H. apply IH.
Qed.

Lemma lossFunction_same_inputs (T1 T2 : TerrainConfig) (x z : Q) :
  same_terrain_inputs T1 T2 ->
  lossFunction M T1 x z = lossFunction M T2 x z.
Proof.
  intros (Hs & Hg & Hh). unfold lossFunction.
  rewrite Hg, Hh, (octaves_seed T1 T2) by exact Hs. reflexivity.
Qed.

Lemma GRADIENT_MAP_CONFIG_same (c1 c2 : VisualConfig) :
  same_build_inputs c1 c2 -> GRADIENT_MAP_CONFIG c1 = GRADIENT_MAP_CONFIG c2.
Proof.
  intros (_ & Hr & Hw & Hd). unfold GRADIENT_MAP_CONFIG.
  rewrite Hr, Hw, Hd. reflexivity.
Qed.

Lemma build_cell_same (c1 c2 : VisualConfig) (iz ix : nat) maps :
  same_build_inputs c1 c2 ->
  build_cell M c1 iz maps ix = build_cell M c2 iz maps ix.
Proof.
  intros H. pose proof (GRADIENT_MAP_CONFIG_same c1 c2 H) as HG.
  destruct H as (HT & _).
  unfold build_cell, central_dx, central_dz, cell_x, cell_z,
    build_stepX, build_stepZ.
  rewrite HG.
  rewrite !(lossFunction_same_inputs (TERRAIN c1) (TERRAIN c2)) by exact HT.
  reflexivity.
Qed.

Lemma build_row_same (c1 c2 : VisualConfig) (iz : nat) maps :
  same_build_inputs c1 c2 ->
  build_row M c1 maps iz = build_row M c2 maps iz.
Proof.
  intros H. unfold build_row.
  rewrite (GRADIENT_MAP_CONFIG_same c1 c2 H).
  generalize (seq 0 (RESOLUTION (GRADIENT_MAP_CONFIG c2))). intros l.
  revert maps. induction l as [| ix l IH]; intros maps; simpl; [reflexivity |].
  rewrite (build_cell_same c1 c2) by exact H. apply IH.
Qed.

Lemma buildGradientMap_same (c1 c2 : VisualConfig) :
  same_build_inputs c1 c2 ->
  buildGradientMap M c1 = buildGradientMap M c2.
Proof.
  intros H. unfold buildGradientMap, build_stepX, build_stepZ.
  rewrite (GRADIENT_MAP_CONFIG_same c1 c2 H).
  set (n := (RESOLUTION (GRADIENT_MAP_CONFIG c2)
             * RESOLUTION (GRADIENT_MAP_CONFIG c2))%nat).
  assert (Hfold : forall l maps,
             foldl (build_row M c1) maps l = foldl (build_row M c2) maps l).
  { induction l as [| iz l IH]; intros maps; simpl; [reflexivity |].
    rewrite (build_row_same c1 c2) by exact H. apply IH. }
  rewrite Hfold. reflexivity.
Qed.

End Determinism.



(** ** The build of the gradient map *)

Section GridFill.
Variable R : nat.
Variable v : nat -> nat -> Q.

Lemma fill_row_S (iz : nat) (l : list Q) (n : nat) :
  fill_row R v iz l (S n) = <[(iz * R + n)%nat := v iz n]> (fill_row R v iz l n).
Proof. unfold fill_row. rewrite seq_S, foldl_app. reflexivity. Qed.

Lemma fill_rows_S (l : list Q) (m : nat) :
  fill_rows R v l (S m) = fill_row R v m (fill_rows R v l m) R.
Proof. unfold fill_rows. rewrite seq_S, foldl_app. reflexivity. Qed.

Lemma fill_row_length (iz : nat) (l : list Q) (n : nat) :
  length (fill_row R v iz l n) = length l.
Proof.
  induction n as [| n IH]; [reflexivity |].
  rewrite fill_row_S, length_insert. exact IH.
Qed.

Lemma fill_rows_length (l : list Q) (m : nat) :
  length (fill_rows R v l m) = length l.
Proof.
  induction m as [| m IH]; [reflexivity |].
  rewrite fill_rows_S, fill_row_length. exact IH.
Qed.

Lemma fill_row_other (iz : nat) (l : list Q) (n j : nat) :
  (forall ix, (ix < n)%nat -> j <> (iz * R + ix)%nat) ->
  fill_row R v iz l n !! j = l !! j.
Proof.
  induction n as [| n IH]; intros H; [reflexivity |].
  rewrite fill_row_S, list_lookup_insert_ne.
  - apply IH. intros ix Hix. apply H. lia.
  - intros E. apply (H n); [lia | congruence].
Qed.

Lemma fill_row_written (iz : nat) (l : list Q) (n ix : nat) :
  (ix < n)%nat -> (iz * R + ix < length l)%nat ->
  fill_row R v iz l n !! (iz * R + ix)%nat = Some (v iz ix).
Proof.
  induction n as [| n IH]; intros Hix Hlen; [lia |].
  rewrite fill_row_S.
  destruct (decide (ix = n)) as [-> | Hne].
  - apply list_lookup_insert_eq. rewrite fill_row_length. exact Hlen.
  - rewrite list_lookup_insert_ne by lia. apply IH; [lia | exact Hlen].
Qed.

Lemma fill_rows_written (l : list Q) (m iz ix : nat) :
  (iz < m)%nat -> (ix < R)%nat -> (m * R <= length l)%nat ->
  fill_rows R v l m !! (iz * R + ix)%nat = Some (v iz ix).
Proof.
  induction m as [| m IH]; intros Hiz Hix Hlen; [lia |].
  rewrite fill_rows_S.
  destruct (decide (iz = m)) as [-> | Hne].
  - apply fill_row_written; [exact Hix |].
    rewrite fill_rows_length. nia.
  - rewrite fill_row_other.
    + apply IH; [lia | exact Hix | nia].
    + intros ix' Hix'. nia.
Qed.

End GridFill.

Section Build.
Variable M : JSMath.
Variable cfg : VisualConfig.

Let G := GRADIENT_MAP_CONFIG cfg.
Let R := RESOLUTION G.

Lemma build_row_fill (iz n : nat) (maps : list Q * list Q) :
  foldl (build_cell M cfg iz) maps (seq 0 n)
  = (fill_row R (stored_dx M cfg) iz (fst maps) n, fill_row R (stored_dz M cfg) iz (snd maps) n).
Proof.
  induction n as [| n IH].
  - destruct maps; reflexivity.
  - rewrite seq_S, foldl_app, IH, !fill_row_S. reflexivity.
Qed.

Lemma build_rows_fill (m : nat) (maps : list Q * list Q) :
  foldl (build_row M cfg) maps (seq 0 m)
  = (fill_rows R (stored_dx M cfg) (fst maps) m, fill_rows R (stored_dz M cfg) (snd maps) m).
Proof.
  induction m as [| m IH].
  - destruct maps; reflexivity.
  - rewrite seq_S, foldl_app, IH, !fill_rows_S.
    cbn [foldl]. unfold build_row. rewrite build_row_fill. reflexivity.
Qed.

Lemma buildGradientMap_fill :
  dxMap (buildGradientMap M cfg) = fill_rows R (stored_dx M cfg) (replicate (R * R) 0) R
  /\ dzMap (buildGradientMap M cfg) = fill_rows R (stored_dz M cfg) (replicate (R * R) 0) R.
Proof.
  unfold buildGradientMap. cbn [dxMap dzMap].
  rewrite build_rows_fill. split; reflexivity.
Qed.

Lemma buildGradientMap_length :
  length (dxMap (buildGradientMap M cfg)) = (R * R)%nat
  /\ length (dzMap (buildGradientMap M cfg)) = (R * R)%nat.
Proof.
  destruct buildGradientMap_fill as [-> ->].
  rewrite !fill_rows_length, length_replicate. split; reflexivity.
Qed.

Lemma cell_x_first : cell_x cfg 0 == MIN_X G.
Proof. unfold cell_x, Qnat. simpl. fold G. ring. Qed.

Lemma cell_x_last : (2 <= R)%nat -> cell_x cfg (R - 1) == MAX_X G.
Proof.
  intros HR. unfold cell_x, build_stepX. fold G. fold R.
  assert (E : Qnat (R - 1) == Qnat R - 1).
  { unfold Qnat. rewrite Nat2Z.inj_sub by lia.
    rewrite <- Z.add_opp_r, inject_Z_plus, inject_Z_opp. reflexivity. }
  assert (Hpos : 0 < Qnat R - 1).
  { unfold Qnat. rewrite (Qnat_minus_Z R 1%Z).
    rewrite <- (Zlt_Qlt 0). lia. }
  rewrite E. field. lra.
Qed.

Lemma cell_z_first : cell_z cfg 0 == MIN_Z G.
Proof. unfold cell_z, Qnat. simpl. fold G. ring. Qed.

Lemma cell_z_last : (2 <= R)%nat -> cell_z cfg (R - 1) == MAX_Z G.
Proof.
  intros HR. unfold cell_z, build_stepZ. fold G. fold R.
  assert (E : Qnat (R - 1) == Qnat R - 1).
  { unfold Qnat. rewrite Nat2Z.inj_sub by lia.
    rewrite <- Z.add_opp_r, inject_Z_plus, inject_Z_opp. reflexivity. }
  assert (Hpos : 0 < Qnat R - 1).
  { unfold Qnat. rewrite (Qnat_minus_Z R 1%Z).
    rewrite <- (Zlt_Qlt 0). lia. }
  rewrite E. field. lra.
Qed.

End Build.



(** Comparisons of closed rationals, by evaluation. *)
Ltac q_closed :=
  first [ apply Qle_bool_iff; reflexivity | apply Qltb_lt; reflexivity ].

(** A comparison of closed rationals that evaluates to false. *)
Ltac q_absurd H :=
  first [ apply Qltb_lt in H | apply Qle_bool_iff in H ];
  lazy in H; discriminate H.

(** ** Sampling the gradient map *)

Ltac in_list :=
  repeat first [apply list_elem_of_here | apply list_elem_of_further].

Section Sampling.
Variable cfg : VisualConfig.

Let R := GRADIENT_MAP_RESOLUTION (PHYSICS cfg).

Lemma cell0_bounds (g : Q) :
  (2 <= R)%nat -> (0 <= cell0 cfg g <= Z.of_nat R - 2)%Z.
Proof.
  intros HR. unfold cell0. cbn [GRADIENT_MAP_CONFIG RESOLUTION]. fold R.
  assert (Hhi : 0 <= Qnat R - 2).
  { rewrite (Qnat_minus_Z R 2%Z). rewrite <- (Zle_Qle 0). lia. }
  destruct (clamp_bounds g 0 (Qnat R - 2) Hhi) as [H0 H1].
  split.
  - rewrite <- (Qfloor_Z 0). apply Qfloor_resp_le. exact H0.
  - rewrite <- (Qfloor_Z (Z.of_nat R - 2)).
    apply Qfloor_resp_le. rewrite <- (Qnat_minus_Z R 2%Z). exact H1.
Qed.

Lemma aget_in_range (a : list Q) (i : Z) :
  (0 <= i < Z.of_nat (length a))%Z -> exists v, aget a i = Some v.
Proof.
  intros [H0 H1]. unfold aget.
  destruct (Z.ltb_spec i 0) as [H | _]; [lia |].
  apply lookup_lt_is_Some_2. lia.
Qed.

Lemma sample_reads_inside (x0 z0 : Z) (i : Z) :
  (2 <= R)%nat ->
  (0 <= x0 <= Z.of_nat R - 2)%Z -> (0 <= z0 <= Z.of_nat R - 2)%Z ->
  i ∈ [ (z0 * Z.of_nat R + x0)%Z; (z0 * Z.of_nat R + (x0 + 1))%Z;
        ((z0 + 1) * Z.of_nat R + x0)%Z; ((z0 + 1) * Z.of_nat R + (x0 + 1))%Z ] ->
  (0 <= i <= Z.of_nat R * Z.of_nat R - 1)%Z.
Proof.
  intros HR Hx Hz Hi.
  repeat (apply elem_of_cons in Hi; destruct Hi as [-> | Hi]);
    [nia | nia | nia | nia | inversion Hi].
Qed.

Lemma sample_defined (x0 z0 : Z) (tx tz : Q) (a : list Q) :
  (2 <= R)%nat -> length a = (R * R)%nat ->
  (0 <= x0 <= Z.of_nat R - 2)%Z -> (0 <= z0 <= Z.of_nat R - 2)%Z ->
  exists v, sample cfg x0 z0 tx tz a = Some v.
Proof.
  intros HR Hlen Hx Hz. unfold sample.
  cbn [GRADIENT_MAP_CONFIG RESOLUTION]. fold R.
  assert (Hin : forall i,
             i ∈ [ (z0 * Z.of_nat R + x0)%Z; (z0 * Z.of_nat R + (x0 + 1))%Z;
                   ((z0 + 1) * Z.of_nat R + x0)%Z;
                   ((z0 + 1) * Z.of_nat R + (x0 + 1))%Z ] ->
             exists v, aget a i = Some v).
  { intros i Hi. apply aget_in_range. rewrite Hlen.
    pose proof (sample_reads_inside x0 z0 i HR Hx Hz Hi). lia. }
  destruct (Hin (z0 * Z.of_nat R + x0)%Z) as [v00 ->]; [in_list |].
  destruct (Hin (z0 * Z.of_nat R + (x0 + 1))%Z) as [v10 ->]; [in_list |].
  destruct (Hin ((z0 + 1) * Z.of_nat R + x0)%Z) as [v01 ->]; [in_list |].
  destruct (Hin ((z0 + 1) * Z.of_nat R + (x0 + 1))%Z) as [v11 ->];
    [in_list |].
  eexists. reflexivity.
Qed.

Lemma gradient_defined (map : GradientMap) (x z : Q) :
  (2 <= R)%nat -> well_formed_map cfg map ->
  exists g, gradient cfg (Some map) x z = Some g.
Proof.
  intros HR [Lx Lz]. unfold gradient.
  destruct (sample_defined (cell0 cfg (grid_x cfg x)) (cell0 cfg (grid_z cfg z))
              (grid_x cfg x - inject_Z (cell0 cfg (grid_x cfg x)))
              (grid_z cfg z - inject_Z (cell0 cfg (grid_z cfg z)))
              (dxMap map) HR Lx (cell0_bounds _ HR) (cell0_bounds _ HR))
    as [vx ->].
  destruct (sample_defined (cell0 cfg (grid_x cfg x)) (cell0 cfg (grid_z cfg z))
              (grid_x cfg x - inject_Z (cell0 cfg (grid_x cfg x)))
              (grid_z cfg z - inject_Z (cell0 cfg (grid_z cfg z)))
              (dzMap map) HR Lz (cell0_bounds _ HR) (cell0_bounds _ HR))
    as [vz ->].
  eexists. reflexivity.
Qed.

End Sampling.

(** C4.  For every rational point [(x, z)], however far outside the
    terrain, the cell coordinates [x0], [x0 + 1], [z0], [z0 + 1] of
    [gradient] lie in [0, RESOLUTION - 1], the four indices [sample] reads
    lie in [0, RESOLUTION * RESOLUTION - 1], and [gradient] returns a
    value: no read is outside the arrays.  Without a map it returns the
    zero gradient.  (The terrain has a positive extent and the grid at
    least two cells a side; the arrays have [RESOLUTION * RESOLUTION]
    entries, as [buildGradientMap] makes them.) *)
Theorem C4_gradient_never_out_of_bounds (cfg : VisualConfig)
    (map : GradientMap) (x z : Q) :
  let R := Z.of_nat (GRADIENT_MAP_RESOLUTION (PHYSICS cfg)) in
  let x0 := cell0 cfg (grid_x cfg x) in
  let z0 := cell0 cfg (grid_z cfg z) in
  let x1 := (x0 + 1)%Z in
  let z1 := (z0 + 1)%Z in
  0 < WIDTH (TERRAIN cfg) -> 0 < DEPTH (TERRAIN cfg) ->
  (2 <= R)%Z ->
  well_formed_map cfg map ->
  ((0 <= x0 <= R - 1)%Z /\ (0 <= x1 <= R - 1)%Z
   /\ (0 <= z0 <= R - 1)%Z /\ (0 <= z1 <= R - 1)%Z)
  /\ (forall i, i ∈ [ (z0 * R + x0)%Z; (z0 * R + x1)%Z;
                      (z1 * R + x0)%Z; (z1 * R + x1)%Z ] ->
                (0 <= i <= R * R - 1)%Z)
  /\ (exists g, gradient cfg (Some map) x z = Some g)
  /\ gradient cfg None x z = Some {| dx := 0; dz := 0 |}.
Proof.
  intros R x0 z0 x1 z1 _ _ HR Hwf.
  assert (HR' : (2 <= GRADIENT_MAP_RESOLUTION (PHYSICS cfg))%nat)
    by (subst R; lia).
  pose proof (cell0_bounds cfg (grid_x cfg x) HR') as Hx.
  pose proof (cell0_bounds cfg (grid_z cfg z) HR') as Hz.
  fold x0 in Hx. fold z0 in Hz. fold R in Hx, Hz.
  split; [subst x1 z1; lia |].
  split; [intros i Hi; exact (sample_reads_inside cfg x0 z0 i HR' Hx Hz Hi) |].
  split; [exact (gradient_defined cfg map x z HR' Hwf) | reflexivity].
Qed.

Lemma ramp_length (R : nat) : length (ramp R) = (R * R)%nat.
Proof. unfold ramp. rewrite length_map, length_seq. reflexivity. Qed.

Lemma ramp_lookup (R i : nat) :
  (i < R * R)%nat -> ramp R !! i = Some (Qnat (i mod R)).
Proof.
  intros Hi. unfold ramp. rewrite list_lookup_fmap, lookup_seq_lt by exact Hi.
  reflexivity.
Qed.

Lemma RAMP_MAP_well_formed : well_formed_map VISUAL_CONFIG RAMP_MAP.
Proof. split; apply ramp_length. Qed.

Lemma C4_gradient_never_out_of_bounds_witness :
  0 < WIDTH (TERRAIN VISUAL_CONFIG)
  /\ 0 < DEPTH (TERRAIN VISUAL_CONFIG)
  /\ (2 <= Z.of_nat (GRADIENT_MAP_RESOLUTION (PHYSICS VISUAL_CONFIG)))%Z
  /\ well_formed_map VISUAL_CONFIG RAMP_MAP
  /\ exists g, gradient VISUAL_CONFIG (Some RAMP_MAP) 1000000 (-1000000) = Some g.
Proof.
  assert (HW : 0 < WIDTH (TERRAIN VISUAL_CONFIG)) by reflexivity.
  assert (HD : 0 < DEPTH (TERRAIN VISUAL_CONFIG)) by reflexivity.
  assert (HR : (2 <= Z.of_nat (GRADIENT_MAP_RESOLUTION (PHYSICS VISUAL_CONFIG)))%Z)
    by (simpl; lia).
  split; [exact HW | split; [exact HD | split; [exact HR |]]].
  split; [exact RAMP_MAP_well_formed |].
  exact (proj1 (proj2 (proj2
    (C4_gradient_never_out_of_bounds VISUAL_CONFIG RAMP_MAP 1000000 (-1000000)
       HW HD HR RAMP_MAP_well_formed)))).
Defined.

Lemma aget_ramp (R : nat) (i : Z) :
  (0 <= i < Z.of_nat (R * R))%Z ->
  aget (ramp R) i = Some (Qnat (Z.to_nat i mod R)).
Proof.
  intros [H0 H1]. unfold aget.
  destruct (Z.ltb_spec i 0) as [H | _]; [lia |].
  apply ramp_lookup. lia.
Qed.

(** [sample] once its four reads are known. *)
Lemma sample_reads (cfg : VisualConfig) (x0 z0 : Z) (tx tz : Q) (a : list Q)
    (v00 v10 v01 v11 : Q) :
  let R := Z.of_nat (GRADIENT_MAP_RESOLUTION (PHYSICS cfg)) in
  aget a (z0 * R + x0)%Z = Some v00 ->
  aget a (z0 * R + (x0 + 1))%Z = Some v10 ->
  aget a ((z0 + 1) * R + x0)%Z = Some v01 ->
  aget a ((z0 + 1) * R + (x0 + 1))%Z = Some v11 ->
  sample cfg x0 z0 tx tz a
  = Some ((1 - tx) * (1 - tz) * v00 + tx * (1 - tz) * v10
          + (1 - tx) * tz * v01 + tx * tz * v11).
Proof.
  intros R H00 H10 H01 H11. unfold sample.
  cbn [GRADIENT_MAP_CONFIG RESOLUTION]. fold R.
  rewrite H00, H10, H01, H11. reflexivity.
Qed.

(** C9, evaluated.  Under the configuration of the repository the point
    [(-2000, -1000)] lies outside the extent [-1000, 1000] of the map, and
    the nearest point of the extent is [(-1000, -1000)].  The cell index is
    clamped to 0, but the weight [tx = gx - x0] is computed from the grid
    coordinate that was not clamped: it is [-255.5].  On a map whose four
    boundary values there are 0, 1, 0, 1, [gradient] returns
    [dx = -255.5] at the outside point and [dx = 0] at the nearest point
    of the extent. *)
Theorem C9_gradient_extrapolates_outside :
  let gx := grid_x VISUAL_CONFIG (-2000) in
  let x0 := cell0 VISUAL_CONFIG gx in
  gx == -255.5 /\ x0 = 0%Z /\ gx - inject_Z x0 == -255.5
  /\ well_formed_map VISUAL_CONFIG RAMP_MAP
  /\ aget (dxMap RAMP_MAP) 0 = Some 0
  /\ aget (dxMap RAMP_MAP) 1 = Some 1
  /\ aget (dxMap RAMP_MAP) 512 = Some 0
  /\ aget (dxMap RAMP_MAP) 513 = Some 1
  /\ (exists g, gradient VISUAL_CONFIG (Some RAMP_MAP) (-2000) (-1000) = Some g
                /\ dx g == -255.5)
  /\ (exists g, gradient VISUAL_CONFIG (Some RAMP_MAP) (-1000) (-1000) = Some g
                /\ dx g == 0).
Proof.
  assert (A0 : aget (ramp 512) 0 = Some 0)
    by (rewrite aget_ramp by lia; reflexivity).
  assert (A1 : aget (ramp 512) 1 = Some 1)
    by (rewrite aget_ramp by lia; reflexivity).
  assert (A512 : aget (ramp 512) 512 = Some 0)
    by (rewrite aget_ramp by lia; reflexivity).
  assert (A513 : aget (ramp 512) 513 = Some 1)
    by (rewrite aget_ramp by lia; reflexivity).
  assert (Ex : cell0 VISUAL_CONFIG (grid_x VISUAL_CONFIG (-2000)) = 0%Z)
    by (vm_compute; reflexivity).
  assert (Ex' : cell0 VISUAL_CONFIG (grid_x VISUAL_CONFIG (-1000)) = 0%Z)
    by (vm_compute; reflexivity).
  assert (Ez : cell0 VISUAL_CONFIG (grid_z VISUAL_CONFIG (-1000)) = 0%Z)
    by (vm_compute; reflexivity).
  cbv zeta.
  split; [vm_compute; reflexivity |].
  split; [exact Ex |].
  split; [rewrite Ex; vm_compute; reflexivity |].
  split; [exact RAMP_MAP_well_formed |].
  split; [exact A0 | split; [exact A1 | split; [exact A512 | split; [exact A513 |]]]].
  split.
  - unfold gradient. rewrite Ex, Ez. cbn [dxMap dzMap RAMP_MAP].
    rewrite !(sample_reads VISUAL_CONFIG 0 0 _ _ (ramp 512) 0 1 0 1)
      by assumption.
    eexists. split; [reflexivity |]. cbn [dx]. vm_compute. reflexivity.
  - unfold gradient. rewrite Ex', Ez. cbn [dxMap dzMap RAMP_MAP].
    rewrite !(sample_reads VISUAL_CONFIG 0 0 _ _ (ramp 512) 0 1 0 1)
      by assumption.
    eexists. split; [reflexivity |]. cbn [dx]. vm_compute. reflexivity.
Qed.

(** The same for every map and every point outside the extent: the
    weight of [gradient] along x is negative to the left of the map and
    greater than 1 to its right. *)
Lemma gradient_weight_outside (cfg : VisualConfig) (x : Q) :
  let G := GRADIENT_MAP_CONFIG cfg in
  let tx := grid_x cfg x - inject_Z (cell0 cfg (grid_x cfg x)) in
  (2 <= RESOLUTION G)%nat -> MIN_X G < MAX_X G ->
  (x < MIN_X G -> tx < 0) /\ (MAX_X G < x -> 1 < tx).
Proof.
  intros G tx HR Hext. subst tx.
  set (R := RESOLUTION G) in *.
  assert (HRq : 1 <= Qnat R - 1).
  { rewrite (Qnat_minus_Z R 1%Z). rewrite <- (Zle_Qle 1). lia. }
  assert (Hd : 0 < / (MAX_X G - MIN_X G)) by (apply Qinv_lt_0_compat; lra).
  assert (Hdd : (MAX_X G - MIN_X G) * / (MAX_X G - MIN_X G) == 1)
    by (apply Qmult_inv_r; lra).
  unfold cell0, grid_x, MathUtils.clamp. fold G. fold R.
  unfold Qdiv.
  set (a := (x - MIN_X G) * / (MAX_X G - MIN_X G)).
  set (gx := a * (Qnat R - 1)).
  split; intros Hx.
  - assert (Ha : a < 0) by (subst a; nra).
    assert (Hgx : gx < 0) by (subst gx; nra).
    destruct (Math_min_spec (Qnat R - 2) gx) as [[H1 ->] | [H1 ->]]; [lra |].
    destruct (Math_max_spec 0 gx) as [[H2 ->] | [H2 ->]]; [lra |].
    change (Qfloor 0) with 0%Z. change (inject_Z 0) with 0. lra.
  - assert (Ha : 1 < a).
    { subst a.
      assert (E : (x - MIN_X G) * / (MAX_X G - MIN_X G)
                  == 1 + (x - MAX_X G) * / (MAX_X G - MIN_X G)) by lra.
      rewrite E. nra. }
    assert (Hgx : Qnat R - 1 < gx) by (subst gx; nra).
    destruct (Math_min_spec (Qnat R - 2) gx) as [[H1 ->] | [H1 ->]]; [| lra].
    destruct (Math_max_spec 0 (Qnat R - 2)) as [[H2 ->] | [H2 ->]]; [| lra].
    assert (E : inject_Z (Qfloor (Qnat R - 2)) == Qnat R - 2).
    { change (Qnat R - 2) with (Qnat R - inject_Z 2).
      rewrite (Qfloor_comp _ _ (Qnat_minus_Z R 2%Z)), Qfloor_Z.
      symmetry. apply (Qnat_minus_Z R 2%Z). }
    rewrite E. lra.
Qed.

(** ** The particle loop *)

Ltac simp_body :=
  cbn [isFading set_age age pid mesh_scale mesh_position set_mesh_scale
       set_mesh_position set_motion p_x p_z p_vx p_vz andb negb res_bind].

Section ParticleLoop.
Variable M : JSMath.
Variable cfg : VisualConfig.

Let k := 1.0 - FADE_OUT_SPEED (WAVES cfg).

Local Opaque lossFunction gradient finalScale speed Math_min MathUtils.lerp.

(** What the body does to a particle it keeps. *)
Lemma particle_body_kept (fs : Q) (q : Z) (map : option GradientMap)
    (p p' : Particle) :
  particle_body M cfg fs q map p = Ok (Some p') ->
  pid p' = pid p /\ isFading p' = isFading p /\ age p' = S (age p)
  /\ (isFading p = true ->
      mesh_scale p' = multiplyScalar (multiplyScalar (mesh_scale p) k) k
      /\ 0.01 <= v_x (mesh_scale p) * k
      /\ p_x p' = p_x p /\ p_z p' = p_z p
      /\ p_vx p' = p_vx p /\ p_vz p' = p_vz p)
  /\ (isFading p = false -> q = 0%Z ->
      exists grad, gradient cfg map (p_x p) (p_z p) = Some grad
        /\ p_vx p' = p_vx p * MOMENTUM (PHYSICS cfg)
                     - dx grad * LEARNING_RATE (PHYSICS cfg) * fs
        /\ p_vz p' = p_vz p * MOMENTUM (PHYSICS cfg)
                     - dz grad * LEARNING_RATE (PHYSICS cfg) * fs
        /\ p_x p' = p_x p + p_vx p' * fs
        /\ p_z p' = p_z p + p_vz p' * fs)
  /\ (isFading p = false -> q <> 0%Z ->
      p_x p' = p_x p /\ p_z p' = p_z p
      /\ p_vx p' = p_vx p /\ p_vz p' = p_vz p).
Proof.
  destruct p as [id pos sc x z vx vz a fading].
  unfold particle_body. simp_body.
  destruct fading; simp_body.
  - destruct (Qltb (v_x (multiplyScalar sc (1.0 - FADE_OUT_SPEED (WAVES cfg))))
                0.01) eqn:E; [discriminate |].
    intros [= <-]. cbn. apply Qltb_ge in E. cbn in E.
    split; [reflexivity | split; [reflexivity | split; [reflexivity |]]].
    split; [| split; discriminate].
    intros _. split; [reflexivity | split; [exact E |]].
    repeat split; reflexivity.
  - destruct (q =? 0)%Z eqn:Eq.
    + apply Z.eqb_eq in Eq. subst q.
      destruct (gradient cfg map x z) as [grad |] eqn:Eg;
        cbn [res_bind]; [| discriminate].
      intros [= <-]. cbn.
      split; [reflexivity | split; [reflexivity | split; [reflexivity |]]].
      split; [discriminate |]. split.
      * intros _ _. exists grad. repeat split; reflexivity.
      * intros _ Hq. contradiction Hq. reflexivity.
    + apply Z.eqb_neq in Eq. cbn [res_bind]. intros [= <-]. cbn.
      split; [reflexivity | split; [reflexivity | split; [reflexivity |]]].
      split; [discriminate |]. split.
      * intros _ Hq. contradiction.
      * intros _ _. repeat split; reflexivity.
Qed.

(** The body removes fading particles only, when the shrunk scale is
    below 0.01. *)
Lemma particle_body_removed (fs : Q) (q : Z) (map : option GradientMap)
    (p : Particle) :
  particle_body M cfg fs q map p = Ok None ->
  isFading p = true /\ v_x (mesh_scale p) * k < 0.01.
Proof.
  destruct p as [id pos sc x z vx vz a fading].
  unfold particle_body. simp_body.
  destruct fading; simp_body.
  - destruct (Qltb (v_x (multiplyScalar sc (1.0 - FADE_OUT_SPEED (WAVES cfg))))
                0.01) eqn:E; [| discriminate].
    intros _. apply Qltb_lt in E. cbn in E. split; [reflexivity | exact E].
  - destruct (q =? 0)%Z; [destruct (gradient cfg map x z) |];
      cbn [res_bind]; discriminate.
Qed.

(** A fading particle: removed when the shrunk scale is below 0.01, kept
    otherwise. *)
Lemma particle_body_fading (fs : Q) (q : Z) (map : option GradientMap)
    (p : Particle) :
  isFading p = true ->
  (v_x (mesh_scale p) * k < 0.01 /\ particle_body M cfg fs q map p = Ok None)
  \/ (0.01 <= v_x (mesh_scale p) * k
      /\ exists p', particle_body M cfg fs q map p = Ok (Some p')).
Proof.
  destruct p as [id pos sc x z vx vz a fading]. cbn [isFading]. intros ->.
  unfold particle_body. simp_body.
  destruct (Qltb (v_x (multiplyScalar sc (1.0 - FADE_OUT_SPEED (WAVES cfg))))
              0.01) eqn:E.
  - left. apply Qltb_lt in E. cbn in E. split; [exact E | reflexivity].
  - right. apply Qltb_ge in E. cbn in E. split; [exact E |].
    eexists. reflexivity.
Qed.

(** The body returns when the gradient is defined at the particle. *)
Lemma particle_body_returns (fs : Q) (q : Z) (map : option GradientMap)
    (p : Particle) :
  (exists grad, gradient cfg map (p_x p) (p_z p) = Some grad) ->
  exists r, particle_body M cfg fs q map p = Ok r.
Proof.
  intros [grad Hg].
  destruct p as [id pos sc x z vx vz a fading]. cbn [p_x p_z] in Hg.
  unfold particle_body. simp_body.
  destruct fading; simp_body.
  - destruct (Qltb _ _); eexists; reflexivity.
  - destruct (q =? 0)%Z; [rewrite Hg |]; cbn [res_bind]; eexists; reflexivity.
Qed.

End ParticleLoop.

Section ParticleLoopSpec.
Variable M : JSMath.
Variable cfg : VisualConfig.

Lemma Steps_snoc_keep body l kept removed (p p' : Particle) :
  Steps body l kept removed -> body p = Ok (Some p') ->
  Steps body (l ++ [p]) (kept ++ [p']) removed.
Proof.
  intros H Hb. induction H; cbn.
  - apply Steps_keep; [exact Hb | apply Steps_nil].
  - apply Steps_keep; assumption.
  - apply Steps_remove; assumption.
Qed.

Lemma Steps_snoc_remove body l kept removed (p : Particle) :
  Steps body l kept removed -> body p = Ok None ->
  Steps body (l ++ [p]) kept (removed ++ [pid p]).
Proof.
  intros H Hb. induction H; cbn.
  - apply Steps_remove; [exact Hb | apply Steps_nil].
  - apply Steps_keep; assumption.
  - apply Steps_remove; assumption.
Qed.

(** The particle loop runs the body on each particle: it returns the
    state with the kept particles, in their order, and with the removed
    ones added to the disposed. *)
Lemma particle_loop_spec (fs : Q) (n : nat) (s s' : State) :
  (n <= length (particles s))%nat ->
  particle_loop M cfg n fs s = Ok s' ->
  exists kept removed,
    Steps (particle_body M cfg fs (spawnQueue s) (gradientMap s))
          (take n (particles s)) kept removed
    /\ s' = set_disposed (removed ++ disposed s)
              (set_particles (kept ++ drop n (particles s)) s).
Proof.
  revert s s'. induction n as [| i IH]; intros s s' Hn H.
  - cbn in H. injection H as <-. exists [], []. split; [apply Steps_nil |].
    destruct s; reflexivity.
  - cbn [particle_loop] in H.
    destruct (particles s !! i) as [p |] eqn:El; [| discriminate].
    destruct (particle_body M cfg fs (spawnQueue s) (gradientMap s) p)
      as [[p' |] | e] eqn:Eb; cbn [res_bind] in H; [| | discriminate].
    + apply IH in H; [| cbn; rewrite length_insert; lia].
      destruct H as (kept & removed & HS & ->). cbn in HS |- *.
      rewrite insert_take_drop in HS |- * by lia.
      rewrite take_app_length' in HS by (rewrite length_take_le; lia).
      rewrite drop_app_length' by (rewrite length_take_le; lia).
      exists (kept ++ [p']), removed. split.
      * rewrite (take_S_r _ _ _ El). apply Steps_snoc_keep; assumption.
      * rewrite <- app_assoc. reflexivity.
    + apply IH in H;
        [| cbn; rewrite delete_take_drop, length_app, length_take_le,
             length_drop; lia].
      destruct H as (kept & removed & HS & ->). cbn in HS |- *.
      rewrite delete_take_drop in HS |- *.
      rewrite take_app_length' in HS by (rewrite length_take_le; lia).
      rewrite drop_app_length' by (rewrite length_take_le; lia).
      exists kept, (removed ++ [pid p]). split.
      * rewrite (take_S_r _ _ _ El). apply Steps_snoc_remove; assumption.
      * rewrite <- app_assoc. reflexivity.
Qed.

(** The loop returns when the body returns for every particle. *)
Lemma particle_loop_returns (fs : Q) (n : nat) (s : State) :
  (n <= length (particles s))%nat ->
  (forall p, exists r,
      particle_body M cfg fs (spawnQueue s) (gradientMap s) p = Ok r) ->
  exists s', particle_loop M cfg n fs s = Ok s'.
Proof.
  revert s. induction n as [| i IH]; intros s Hn Hb.
  - eexists. reflexivity.
  - cbn [particle_loop].
    destruct (lookup_lt_is_Some_2 (particles s) i) as [p ->]; [lia |].
    destruct (Hb p) as [[p' |] ->]; cbn [res_bind].
    + apply IH; [cbn; rewrite length_insert; lia | exact Hb].
    + apply IH; [| exact Hb].
      cbn. rewrite delete_take_drop, length_app, length_take_le, length_drop;
        lia.
Qed.

Lemma Steps_of_elem body l kept removed (p : Particle) :
  Steps body l kept removed -> p ∈ l ->
  (exists p', body p = Ok (Some p') /\ p' ∈ kept)
  \/ (body p = Ok None /\ pid p ∈ removed).
Proof.
  intros H. induction H as [| q q' l kept removed Hb H IH
                             | q l kept removed Hb H IH]; intros Hin.
  - inversion Hin.
  - apply elem_of_cons in Hin. destruct Hin as [-> | Hin].
    + left. exists q'. split; [exact Hb | apply list_elem_of_here].
    + destruct (IH Hin) as [(p' & Hp & Hk) | [Hp Hr]].
      * left. exists p'. split; [exact Hp | apply list_elem_of_further, Hk].
      * right. split; assumption.
  - apply elem_of_cons in Hin. destruct Hin as [-> | Hin].
    + right. split; [exact Hb | apply list_elem_of_here].
    + destruct (IH Hin) as [(p' & Hp & Hk) | [Hp Hr]].
      * left. exists p'. split; assumption.
      * right. split; [exact Hp | apply list_elem_of_further, Hr].
Qed.

Lemma Steps_kept_from body l kept removed (p' : Particle) :
  Steps body l kept removed -> p' ∈ kept ->
  exists p, p ∈ l /\ body p = Ok (Some p').
Proof.
  intros H. induction H as [| q q' l kept removed Hb H IH
                             | q l kept removed Hb H IH]; intros Hin.
  - inversion Hin.
  - apply elem_of_cons in Hin. destruct Hin as [-> | Hin].
    + exists q. split; [apply list_elem_of_here | exact Hb].
    + destruct (IH Hin) as (p & Hp & Hbp).
      exists p. split; [apply list_elem_of_further, Hp | exact Hbp].
  - destruct (IH Hin) as (p & Hp & Hbp).
    exists p. split; [apply list_elem_of_further, Hp | exact Hbp].
Qed.

Lemma Steps_removed_from body l kept removed (d : nat) :
  Steps body l kept removed -> d ∈ removed ->
  exists p, p ∈ l /\ pid p = d /\ body p = Ok None.
Proof.
  intros H. induction H as [| q q' l kept removed Hb H IH
                             | q l kept removed Hb H IH]; intros Hin.
  - inversion Hin.
  - destruct (IH Hin) as (p & Hp & Hd & Hbp).
    exists p. split; [apply list_elem_of_further, Hp | split; assumption].
  - apply elem_of_cons in Hin. destruct Hin as [-> | Hin].
    + exists q. split; [apply list_elem_of_here | split; [reflexivity | exact Hb]].
    + destruct (IH Hin) as (p & Hp & Hd & Hbp).
      exists p. split; [apply list_elem_of_further, Hp | split; assumption].
Qed.

End ParticleLoopSpec.

(** ** The spawn loop *)

Section SpawnLoop.
Variable M : JSMath.
Variable cfg : VisualConfig.

Local Opaque lossFunction.

Lemma placed_none (f : Frame) (s : State) : placed f s s [].
Proof.
  unfold placed, same_outside_spawn. cbn.
  rewrite app_nil_r, Z.sub_0_r, Nat.add_0_r.
  repeat split; auto.
Qed.

Lemma placed_one (f : Frame) (x z y : Q) (s s' : State) (new : list Particle) :
  placed f (place M cfg f x z y s) s' new ->
  exists p, placed f s s' (p :: new).
Proof.
  unfold place, spawnParticle.
  set (p := {| pid := nextId s; mesh_position := _; mesh_scale := _;
               p_x := x; p_z := z; p_vx := 0; p_vz := 0;
               age := 0; isFading := false |}).
  intros H. exists p.
  destruct (_ =? 0)%Z eqn:E; unfold placed, same_outside_spawn in *;
    cbn in *; destruct H as (H1 & H2 & H3 & H4 & H5 & H6 & H7);
    rewrite <- app_assoc in H1; cbn in H1;
    (split; [exact H1 |]); (split; [lia |]); (split; [lia |]);
    (split; [cbn; f_equal; exact H4 |]);
    (split; [apply Forall_cons; split; [split; reflexivity | exact H5] |]);
    (split; [exact H6 |]).
  - destruct H7 as [H7 | H7]; [right | right]; exact H7.
  - exact H7.
Qed.

(** The spawn loop places particles, at most one for each value of the
    counter that remains. *)
Lemma spawn_loop_placed (f : Frame) (toSpawn : Z) (fuel : nat) :
  forall (i : Z) (k : nat) (s s' : State),
    spawn_loop M cfg fuel f toSpawn i k s = Ok s' ->
    exists new, placed f s s' new
                /\ (Z.of_nat (length new) <= Z.max 0 (toSpawn - i))%Z.
Proof.
  induction fuel as [| fuel IH]; intros i k s s' H; [discriminate |].
  cbn [spawn_loop] in H.
  destruct (Z.ltb_spec i toSpawn) as [Hi | Hi].
  - destruct (classify M cfg f (casts f k)) as [| | | x z y].
    + apply IH in H. destruct H as (new & Hp & Hl).
      exists new. split; [exact Hp | lia].
    + replace (i - 1 + 1)%Z with i in H by lia.
      apply IH in H. destruct H as (new & Hp & Hl).
      exists new. split; [exact Hp | lia].
    + replace (i - 1 + 1)%Z with i in H by lia.
      apply IH in H. destruct H as (new & Hp & Hl).
      exists new. split; [exact Hp | lia].
    + apply IH in H. destruct H as (new & Hp & Hl).
      destruct (placed_one f x z y s s' new Hp) as [p Hp'].
      exists (p :: new). split; [exact Hp' | cbn [length]; lia].
  - injection H as <-. exists []. split; [apply placed_none | cbn; lia].
Qed.

(** The loop ends within [n + 1] tests of its condition once [n]
    candidates have used up the slots that remain. *)
Lemma spawn_loop_returns (f : Frame) (toSpawn : Z) (n : nat) :
  forall (fuel : nat) (i : Z) (k : nat) (s : State),
    (toSpawn <= i + slots_used M cfg f k n)%Z -> (n < fuel)%nat ->
    exists s', spawn_loop M cfg fuel f toSpawn i k s = Ok s'.
Proof.
  induction n as [| n IH]; intros fuel i k s Hs Hf;
    (destruct fuel as [| fuel]; [lia |]); cbn [spawn_loop];
    destruct (Z.ltb_spec i toSpawn) as [Hi | Hi];
    try (eexists; reflexivity).
  - cbn in Hs. lia.
  - cbn [slots_used] in Hs. unfold redrawn in Hs.
    destruct (classify M cfg f (casts f k)) as [| | | x z y];
      try replace (i - 1 + 1)%Z with i by lia;
      apply IH; lia.
Qed.

(** Conversely, when the loop has ended the candidates it has seen have
    used up the slots. *)
Lemma spawn_loop_returned (f : Frame) (toSpawn : Z) (fuel : nat) :
  forall (i : Z) (k : nat) (s s' : State),
    spawn_loop M cfg fuel f toSpawn i k s = Ok s' ->
    exists n, (n < fuel)%nat /\ (toSpawn <= i + slots_used M cfg f k n)%Z.
Proof.
  induction fuel as [| fuel IH]; intros i k s s' H; [discriminate |].
  cbn [spawn_loop] in H.
  destruct (Z.ltb_spec i toSpawn) as [Hi | Hi].
  - assert (Hstep : exists i' s1,
               spawn_loop M cfg fuel f toSpawn i' (S k) s1 = Ok s'
               /\ i' = (i + (if redrawn M cfg f k then 0 else 1))%Z).
    { unfold redrawn.
      destruct (classify M cfg f (casts f k)) as [| | | x z y];
        try replace (i - 1 + 1)%Z with i in H by lia;
        eexists; eexists; (split; [exact H | lia]). }
    destruct Hstep as (i' & s1 & H1 & ->).
    apply IH in H1. destruct H1 as (n & Hn & Hs).
    exists (S n). split; [lia |]. cbn [slots_used]. lia.
  - exists 0%nat. split; [lia | cbn; lia].
Qed.

(** A loop whose candidates are all drawn again does not end. *)
Lemma spawn_loop_diverges (f : Frame) (toSpawn : Z) (fuel : nat) :
  (forall k, redrawn M cfg f k = true) ->
  forall (i : Z) (k : nat) (s : State),
    (i < toSpawn)%Z ->
    spawn_loop M cfg fuel f toSpawn i k s = Fail OutOfFuel.
Proof.
  intros Hall. induction fuel as [| fuel IH]; intros i k s Hi; [reflexivity |].
  cbn [spawn_loop].
  destruct (Z.ltb_spec i toSpawn) as [_ | Hge]; [| lia].
  specialize (Hall k). unfold redrawn in Hall.
  destruct (classify M cfg f (casts f k)) as [| | | x z y];
    try discriminate;
    replace (i - 1 + 1)%Z with i by lia; apply IH; exact Hi.
Qed.

End SpawnLoop.

(** Which candidates are drawn again: the ray hits the ground plane
    inside the terrain, and the point is below [MIN_SPAWN_HEIGHT] or
    hidden from the camera. *)
Lemma redrawn_iff (M : JSMath) (cfg : VisualConfig) (f : Frame) (k : nat) :
  redrawn M cfg f k = true <->
  exists hx hz,
    casts f k = Some (hx, hz)
    /\ Math_abs hx <= WIDTH (TERRAIN cfg) / 2
    /\ Math_abs hz <= DEPTH (TERRAIN cfg) / 2
    /\ (lossFunction M (TERRAIN cfg) hx hz < MIN_SPAWN_HEIGHT (WAVES cfg)
        \/ isVisible M cfg (camPos f) hx hz
             (lossFunction M (TERRAIN cfg) hx hz) = false).
Proof.
  unfold redrawn, classify.
  destruct (casts f k) as [[hx hz] |]; [| split; [discriminate |]].
  - destruct (Qle_bool (Math_abs hx) (WIDTH (TERRAIN cfg) / 2)) eqn:E1;
      [| split; [discriminate |]].
    + destruct (Qle_bool (Math_abs hz) (DEPTH (TERRAIN cfg) / 2)) eqn:E2;
        [| split; [discriminate |]].
      * apply Qle_bool_iff in E1, E2. cbn [andb].
        destruct (Qltb _ _) eqn:E3.
        -- apply Qltb_lt in E3. split; [intros _ | reflexivity].
           exists hx, hz. auto.
        -- destruct (isVisible _ _ _ _ _ _) eqn:E4.
           ++ split; [discriminate |].
              intros (hx' & hz' & [= <- <-] & _ & _ & [H | H]).
              ** apply Qltb_ge in E3. lra.
              ** congruence.
           ++ split; [intros _ | reflexivity]. exists hx, hz. auto.
      * intros (hx' & hz' & [= <- <-] & _ & H & _).
        apply Qle_bool_iff in H. congruence.
    + intros (hx' & hz' & [= <- <-] & H & _).
      apply Qle_bool_iff in H. congruence.
  - intros (hx' & hz' & H & _). discriminate.
Qed.


(** ** Runs *)

Lemma run_app (M : JSMath) (cfg : VisualConfig) (es1 es2 : list Event)
    (s : State) :
  run M cfg (es1 ++ es2) s = (do s1 <- run M cfg es1 s; run M cfg es2 s1).
Proof.
  revert s. induction es1 as [| e es1 IH]; intros s; cbn [run app res_bind].
  - reflexivity.
  - destruct (step M cfg e s) as [s1 | err]; cbn [res_bind]; [apply IH | reflexivity].
Qed.

(** After a mount at time 0 the five [first_frames] release the first
    wave: the scheduler is ACTIVE, the queue holds the whole wave and
    there is no particle yet. *)
Lemma first_frames_release (M : JSMath) :
  exists s5,
    run M VISUAL_CONFIG first_frames (init M VISUAL_CONFIG 0) = Ok s5
    /\ waveState s5 = ACTIVE /\ spawnQueue s5 = 1000%Z /\ particles s5 = []
    /\ timeRef s5 == 4.5 /\ lastFrameTime s5 = 4500 /\ lastWaveTime s5 = 0.
Proof.
  assert (H : match run M VISUAL_CONFIG first_frames (init M VISUAL_CONFIG 0)
              with
              | Ok s => waveState s = ACTIVE /\ spawnQueue s = 1000%Z
                        /\ particles s = [] /\ timeRef s == 4.5
                        /\ lastFrameTime s = 4500 /\ lastWaveTime s = 0
              | Fail _ => False
              end)
    by (lazy; repeat split; reflexivity).
  destruct (run M VISUAL_CONFIG first_frames (init M VISUAL_CONFIG 0))
    as [s5 | e]; [| contradiction].
  exists s5. split; [reflexivity | exact H].
Qed.



(** ** The scheduler *)

Section Scheduler.
Variable M : JSMath.
Variable cfg : VisualConfig.

Lemma same_outside_scheduler_refl (s : State) : same_outside_scheduler s s.
Proof. unfold same_outside_scheduler. repeat split; auto. Qed.

Lemma same_outside_scheduler_trans (s1 s2 s3 : State) :
  same_outside_scheduler s1 s2 -> same_outside_scheduler s2 s3 ->
  same_outside_scheduler s1 s3.
Proof.
  unfold same_outside_scheduler.
  intros (A1 & A2 & A3 & A4 & A5 & A6 & A7) (B1 & B2 & B3 & B4 & B5 & B6 & B7).
  repeat (split; [congruence |]).
  destruct A7 as [A7 | A7], B7 as [B7 | B7]; rewrite B7, A7; auto.
  right. rewrite map_map. apply map_ext. intros p. reflexivity.
Qed.

Lemma leave_ACTIVE_same (f : Frame) (s : State) :
  same_outside_scheduler s (leave_ACTIVE M cfg f s)
  /\ spawnQueue (leave_ACTIVE M cfg f s) = spawnQueue s
  /\ wireframe_opacity (leave_ACTIVE M cfg f s) = wireframe_opacity s.
Proof.
  unfold leave_ACTIVE, same_outside_scheduler.
  destruct (waveState s); try (cbn; repeat split; auto; fail).
  destruct (_ && _); cbn; repeat split; auto.
Qed.

Lemma leave_WAITING_same (s : State) :
  same_outside_scheduler s (leave_WAITING cfg s)
  /\ spawnQueue (leave_WAITING cfg s) = spawnQueue s
  /\ wireframe_opacity (leave_WAITING cfg s) = wireframe_opacity s
  /\ particles (leave_WAITING cfg s) = particles s.
Proof.
  unfold leave_WAITING, same_outside_scheduler.
  destruct (waveState s); try (cbn; repeat split; auto; fail).
  destruct (Qgtb _ _); cbn; repeat split; auto.
Qed.

Lemma leave_SWELLING_same (s : State) :
  same_outside_scheduler s (leave_SWELLING cfg s)
  /\ stateStartTime (leave_SWELLING cfg s) = stateStartTime s
  /\ particles (leave_SWELLING cfg s) = particles s.
Proof.
  unfold leave_SWELLING, same_outside_scheduler.
  destruct (waveState s); try (cbn; repeat split; auto; fail).
  destruct (Qgtb _ _); cbn; repeat split; auto.
Qed.

Lemma opacity_sync_same (s : State) :
  same_outside_scheduler s (opacity_sync M cfg s)
  /\ waveState (opacity_sync M cfg s) = waveState s
  /\ stateStartTime (opacity_sync M cfg s) = stateStartTime s
  /\ spawnQueue (opacity_sync M cfg s) = spawnQueue s
  /\ particles (opacity_sync M cfg s) = particles s.
Proof.
  unfold opacity_sync, same_outside_scheduler.
  destruct (waveState s) eqn:E;
    try match goal with |- context [Qgtb ?a ?b] => destruct (Qgtb a b) end;
    cbn; repeat split; auto.
Qed.

Lemma scheduler_same (f : Frame) (s : State) :
  same_outside_scheduler s (opacity_sync M cfg (scheduler M cfg f s)).
Proof.
  unfold scheduler.
  eapply same_outside_scheduler_trans; [apply (leave_ACTIVE_same f s) |].
  eapply same_outside_scheduler_trans; [apply leave_WAITING_same |].
  eapply same_outside_scheduler_trans; [apply leave_SWELLING_same |].
  apply opacity_sync_same.
Qed.

End Scheduler.

(** ** One frame *)

Section Animate.
Variable M : JSMath.
Variable cfg : VisualConfig.

(** A frame that ends: its spawn phase has ended, and the particle loop
    has run the body on every particle the scheduler has left. *)
Lemma animate_inv (fuel : nat) (f : Frame) (s s' : State) :
  animate M cfg fuel f s = Ok s' ->
  exists s1 kept removed,
    spawn_phase M cfg fuel f (tick_clock f s) = Ok s1
    /\ Steps (frame_body M cfg f s (opacity_sync M cfg (scheduler M cfg f s1)))
             (particles (opacity_sync M cfg (scheduler M cfg f s1)))
             kept removed
    /\ s' = set_disposed
              (removed ++ disposed (opacity_sync M cfg (scheduler M cfg f s1)))
              (set_particles kept (opacity_sync M cfg (scheduler M cfg f s1))).
Proof.
  unfold animate. intros H.
  destruct (spawn_phase M cfg fuel f (tick_clock f s)) as [s1 | e];
    cbn [res_bind] in H; [| discriminate].
  exists s1.
  apply particle_loop_spec in H; [| apply Nat.le_refl].
  destruct H as (kept & removed & HS & ->).
  rewrite firstn_all in HS. rewrite drop_all, app_nil_r.
  exists kept, removed. split; [reflexivity | split; [exact HS | reflexivity]].
Qed.

(** A frame ends when its spawn phase ends and the gradient map can be
    sampled. *)
Lemma animate_returns (fuel : nat) (f : Frame) (s s1 : State) :
  spawn_phase M cfg fuel f (tick_clock f s) = Ok s1 ->
  map_ok cfg s1 ->
  exists s', animate M cfg fuel f s = Ok s'.
Proof.
  intros H1 [HR Hmap]. unfold animate. rewrite H1. cbn [res_bind].
  apply particle_loop_returns; [apply Nat.le_refl |].
  intros p. apply particle_body_returns.
  destruct (scheduler_same M cfg f s1) as (_ & _ & E & _). rewrite E.
  destruct (gradientMap s1) as [map |].
  - apply gradient_defined; assumption.
  - eexists. reflexivity.
Qed.

End Animate.

(** ** The wave cycle *)

Section WaveCycle.
Variable M : JSMath.
Variable cfg : VisualConfig.

Let W := WAVES cfg.

Hypothesis SWELL_TIME_nonneg : 0 <= SWELL_TIME W.

(** In WAITING the scheduler moves to SWELLING exactly when [timeRef] is
    more than [BUFFER_TIME] after the time stamp of the state. *)
Lemma scheduler_WAITING (f : Frame) (s : State) :
  waveState s = WAITING ->
  spawnQueue (scheduler M cfg f s) = spawnQueue s
  /\ ((BUFFER_TIME W < timeRef s - stateStartTime s
       /\ waveState (scheduler M cfg f s) = SWELLING
       /\ stateStartTime (scheduler M cfg f s) = timeRef s)
      \/ (timeRef s - stateStartTime s <= BUFFER_TIME W
          /\ waveState (scheduler M cfg f s) = WAITING
          /\ stateStartTime (scheduler M cfg f s) = stateStartTime s)).
Proof.
  intros Hw. unfold scheduler, leave_ACTIVE. rewrite Hw.
  unfold leave_WAITING. rewrite Hw. fold W.
  destruct (Qgtb (timeRef s - stateStartTime s) (BUFFER_TIME W)) eqn:E.
  - apply Qgtb_gt in E. unfold leave_SWELLING. cbn. fold W.
    assert (E2 : Qgtb (timeRef s - timeRef s) (SWELL_TIME W) = false)
      by (apply Qgtb_le; lra).
    rewrite E2. cbn. split; [reflexivity | left; auto].
  - apply Qgtb_le in E. unfold leave_SWELLING. rewrite Hw.
    split; [reflexivity | right; auto].
Qed.

(** In SWELLING it moves to ACTIVE exactly when [timeRef] is more than
    [SWELL_TIME] after the time stamp; the queue then holds a whole wave
    and the wireframe has its peak opacity. *)
Lemma scheduler_SWELLING (f : Frame) (s : State) :
  waveState s = SWELLING ->
  (SWELL_TIME W < timeRef s - stateStartTime s
   /\ waveState (scheduler M cfg f s) = ACTIVE
   /\ spawnQueue (scheduler M cfg f s) = PARTICLES_PER_WAVE W
   /\ wireframe_opacity (scheduler M cfg f s) = MAX_SWELL_OPACITY W)
  \/ (timeRef s - stateStartTime s <= SWELL_TIME W
      /\ scheduler M cfg f s = s).
Proof.
  intros Hw. unfold scheduler, leave_ACTIVE. rewrite Hw.
  unfold leave_WAITING. rewrite Hw.
  unfold leave_SWELLING. rewrite Hw. fold W.
  destruct (Qgtb (timeRef s - stateStartTime s) (SWELL_TIME W)) eqn:E.
  - apply Qgtb_gt in E. left. cbn. auto.
  - apply Qgtb_le in E. right. auto.
Qed.

(** In ACTIVE it leaves exactly when the queue is empty and the active
    particles have all stopped or the wave has timed out on
    [performance.now()]; the time stamp it records is that clock's. *)
Lemma leave_ACTIVE_spec (f : Frame) (s : State) :
  waveState s = ACTIVE ->
  let leaves := spawnQueue s = 0%Z
                /\ (allParticlesStopped M cfg s = true
                    \/ MAX_WAVE_INTERVAL W < now_check f / 1000 - lastWaveTime s) in
  (leaves
   /\ waveState (leave_ACTIVE M cfg f s) = WAITING
   /\ stateStartTime (leave_ACTIVE M cfg f s) = now_check f / 1000
   /\ particles (leave_ACTIVE M cfg f s) = map (set_isFading true) (particles s))
  \/ (~ leaves /\ leave_ACTIVE M cfg f s = s).
Proof.
  intros Hw leaves. subst leaves. unfold leave_ACTIVE. rewrite Hw.
  unfold waveTimedOut. fold W.
  destruct (Z.eqb_spec (spawnQueue s) 0) as [Hq | Hq]; cbn [andb].
  - destruct (allParticlesStopped M cfg s) eqn:Ea; cbn [orb].
    + left. cbn. auto.
    + destruct (Qgtb _ _) eqn:Et.
      * apply Qgtb_gt in Et. left. cbn. auto.
      * apply Qgtb_le in Et. right. split; [| reflexivity].
        intros (_ & [H | H]); [discriminate | lra].
  - right. split; [| reflexivity]. intros (H & _). contradiction.
Qed.

Lemma spawn_phase_idle (fuel : nat) (f : Frame) (s : State) :
  spawnQueue s = 0%Z -> spawn_phase M cfg fuel f s = Ok s.
Proof. intros H. unfold spawn_phase. rewrite H. reflexivity. Qed.

(** A frame entered with an empty queue: it ends, and what it does to the
    clock, the wave and the queue is what the scheduler does. *)
Lemma animate_idle (fuel : nat) (f : Frame) (s : State) :
  map_ok cfg s -> spawnQueue s = 0%Z ->
  exists s',
    animate M cfg fuel f s = Ok s'
    /\ map_ok cfg s'
    /\ lastFrameTime s' = now f
    /\ timeRef s' = timeRef s + (now f - lastFrameTime s) / 1000
    /\ waveState s' = waveState (scheduler M cfg f (tick_clock f s))
    /\ stateStartTime s' = stateStartTime (scheduler M cfg f (tick_clock f s))
    /\ spawnQueue s' = spawnQueue (scheduler M cfg f (tick_clock f s)).
Proof.
  intros Hmap Hq.
  assert (H1 : spawn_phase M cfg fuel f (tick_clock f s) = Ok (tick_clock f s))
    by (apply spawn_phase_idle; exact Hq).
  destruct (animate_returns M cfg fuel f s _ H1 Hmap) as [s' Hs'].
  exists s'. split; [exact Hs' |].
  apply animate_inv in Hs'.
  destruct Hs' as (s1 & kept & removed & H1' & _ & ->).
  rewrite H1 in H1'. injection H1' as <-.
  destruct (scheduler_same M cfg f (tick_clock f s))
    as (E1 & E2 & E3 & E4 & E5 & E6 & E7).
  destruct (opacity_sync_same M cfg (scheduler M cfg f (tick_clock f s)))
    as (_ & O1 & O2 & O3 & O4).
  unfold map_ok in *. cbn. rewrite E3, E4, E1, O1, O2, O3. cbn.
  repeat split; auto; apply Hmap.
Qed.

End WaveCycle.

Section Phases.
Variable M : JSMath.
Variable cfg : VisualConfig.
Variable delta : Q.

Let W := WAVES cfg.

Hypothesis SWELL_TIME_nonneg : 0 <= SWELL_TIME W.

Lemma handleClick_same (reticle : option Vector3) (s : State) :
  timeRef (handleClick M cfg reticle s) = timeRef s
  /\ waveState (handleClick M cfg reticle s) = waveState s
  /\ stateStartTime (handleClick M cfg reticle s) = stateStartTime s
  /\ spawnQueue (handleClick M cfg reticle s) = spawnQueue s
  /\ lastFrameTime (handleClick M cfg reticle s) = lastFrameTime s
  /\ gradientMap (handleClick M cfg reticle s) = gradientMap s
  /\ lastWaveTime (handleClick M cfg reticle s) = lastWaveTime s
  /\ disposed (handleClick M cfg reticle s) = disposed s.
Proof. destruct reticle; cbn; repeat split; reflexivity. Qed.

Lemma handleClick_map_ok (reticle : option Vector3) (s : State) :
  map_ok cfg s -> map_ok cfg (handleClick M cfg reticle s).
Proof.
  unfold map_ok.
  destruct (handleClick_same reticle s) as (_ & _ & _ & _ & _ & -> & _).
  auto.
Qed.

(** From WAITING, with an empty queue: either the events leave the
    scheduler in WAITING, or a frame of them takes it to SWELLING, at
    most [delta] after [BUFFER_TIME] has passed on [timeRef]. *)
Lemma WAITING_phase (es : list Event) :
  forall s : State,
    map_ok cfg s -> waveState s = WAITING -> spawnQueue s = 0%Z ->
    timeRef s - stateStartTime s <= BUFFER_TIME W ->
    paced delta (lastFrameTime s) es ->
    (exists s',
        run M cfg es s = Ok s' /\ waveState s' = WAITING
        /\ timeRef s' = clock_after (timeRef s) (lastFrameTime s) es
        /\ timeRef s' - stateStartTime s <= BUFFER_TIME W)
    \/ (exists es1 es2 s1,
           es = es1 ++ es2 /\ run M cfg es1 s = Ok s1
           /\ map_ok cfg s1 /\ waveState s1 = SWELLING
           /\ spawnQueue s1 = 0%Z /\ stateStartTime s1 = timeRef s1
           /\ BUFFER_TIME W < timeRef s1 - stateStartTime s
           /\ timeRef s1 - stateStartTime s <= BUFFER_TIME W + delta
           /\ paced delta (lastFrameTime s1) es2
           /\ clock_after (timeRef s) (lastFrameTime s) es
              = clock_after (timeRef s1) (lastFrameTime s1) es2).
Proof.
  induction es as [| e es IH]; intros s Hmap Hw Hq Ht Hp.
  - left. exists s. cbn. auto.
  - destruct e as [fuel f | reticle].
    + destruct Hp as [Hdt Hp].
      destruct (animate_idle M cfg fuel f s Hmap Hq)
        as (s1 & Ha & Hmap1 & Hl1 & Ht1 & Hw1 & Hs1 & Hq1).
      destruct (scheduler_WAITING M cfg SWELL_TIME_nonneg f (tick_clock f s) Hw)
        as (Eq & [(Hgt & Ew & Es) | (Hle & Ew & Es)]);
        fold W in Hgt || fold W in Hle;
        cbn [tick_clock set_clock timeRef stateStartTime spawnQueue] in *;
        unfold deltaTimeSec in *;
        rewrite Ew in Hw1; rewrite Es in Hs1; rewrite Eq, Hq in Hq1.
      * right. exists [Animate fuel f], es, s1.
        cbn [run step res_bind app clock_after]. rewrite Ha. cbn [res_bind].
        rewrite Hl1, Ht1, Hs1.
        repeat (split; [first [reflexivity | assumption | congruence | lra] |]).
        reflexivity.
      * destruct (IH s1 Hmap1 Hw1 Hq1) as
          [(s' & Hr & Hw' & Ht' & Hle') | (es1 & es2 & s2 & -> & Hr & Hrest)].
        -- rewrite Hs1, Ht1. exact Hle.
        -- rewrite Hl1. exact Hp.
        -- left. exists s'. cbn [run step res_bind clock_after].
           rewrite Ha. cbn [res_bind]. rewrite Hs1, Ht1, Hl1 in *.
           auto.
        -- right. exists (Animate fuel f :: es1), es2, s2.
           cbn [run step res_bind app clock_after].
           rewrite Ha. cbn [res_bind]. rewrite Hs1, Ht1, Hl1 in *.
           split; [reflexivity | split; [exact Hr | exact Hrest]].
    + destruct (handleClick_same reticle s)
        as (C1 & C2 & C3 & C4 & C5 & C6 & C7 & C8).
      destruct (IH (handleClick M cfg reticle s)) as
        [(s' & Hr & Hw' & Ht' & Hle') | (es1 & es2 & s2 & -> & Hr & Hrest)];
        try (rewrite ?C1, ?C2, ?C3, ?C4, ?C5; assumption).
      * apply handleClick_map_ok, Hmap.
      * left. exists s'. cbn [run step res_bind clock_after].
        rewrite C1, C3, C5 in *. auto.
      * right. exists (Click reticle :: es1), es2, s2.
        cbn [run step res_bind app clock_after]. rewrite C1, C3, C5 in *.
        split; [reflexivity | split; [exact Hr | exact Hrest]].
Qed.

(** From SWELLING, with an empty queue: either the events leave the
    scheduler in SWELLING, or a frame of them takes it to ACTIVE, at most
    [delta] after [SWELL_TIME] has passed on [timeRef]. *)
Lemma SWELLING_phase (es : list Event) :
  forall s : State,
    map_ok cfg s -> waveState s = SWELLING -> spawnQueue s = 0%Z ->
    timeRef s - stateStartTime s <= SWELL_TIME W ->
    paced delta (lastFrameTime s) es ->
    (exists s',
        run M cfg es s = Ok s' /\ waveState s' = SWELLING
        /\ timeRef s' = clock_after (timeRef s) (lastFrameTime s) es
        /\ timeRef s' - stateStartTime s <= SWELL_TIME W)
    \/ (exists es1 es2 s1,
           es = es1 ++ es2 /\ run M cfg es1 s = Ok s1
           /\ map_ok cfg s1 /\ waveState s1 = ACTIVE
           /\ spawnQueue s1 = PARTICLES_PER_WAVE W
           /\ SWELL_TIME W < timeRef s1 - stateStartTime s
           /\ timeRef s1 - stateStartTime s <= SWELL_TIME W + delta).
Proof.
  induction es as [| e es IH]; intros s Hmap Hw Hq Ht Hp.
  - left. exists s. cbn. auto.
  - destruct e as [fuel f | reticle].
    + destruct Hp as [Hdt Hp].
      destruct (animate_idle M cfg fuel f s Hmap Hq)
        as (s1 & Ha & Hmap1 & Hl1 & Ht1 & Hw1 & Hs1 & Hq1).
      destruct (scheduler_SWELLING M cfg f (tick_clock f s) Hw)
        as [(Hgt & Ew & Eq & _) | (Hle & Es)];
        fold W in Hgt || fold W in Hle;
        cbn [tick_clock set_clock timeRef stateStartTime spawnQueue] in *;
        unfold deltaTimeSec in *.
      * right. exists [Animate fuel f], es, s1.
        cbn [run step res_bind app]. rewrite Ha. cbn [res_bind].
        rewrite Ht1. unfold W in *.
        repeat (split; [first [reflexivity | assumption | congruence | lra] |]).
        lra.
      * rewrite Es in Hw1, Hs1, Hq1.
        cbn [tick_clock set_clock waveState stateStartTime spawnQueue]
          in Hw1, Hs1, Hq1.
        destruct (IH s1 Hmap1) as
          [(s' & Hr & Hw' & Ht' & Hle') | (es1 & es2 & s2 & -> & Hr & Hrest)];
          try congruence.
        -- left. exists s'. cbn [run step res_bind clock_after].
           rewrite Ha. cbn [res_bind]. rewrite Hs1, Ht1, Hl1 in *.
           auto.
        -- right. exists (Animate fuel f :: es1), es2, s2.
           cbn [run step res_bind app].
           rewrite Ha. cbn [res_bind]. rewrite ?Hs1, ?Ht1 in *.
           split; [reflexivity | split; [exact Hr | exact Hrest]].
    + destruct (handleClick_same reticle s)
        as (C1 & C2 & C3 & C4 & C5 & C6 & C7 & C8).
      destruct (IH (handleClick M cfg reticle s)) as
        [(s' & Hr & Hw' & Ht' & Hle') | (es1 & es2 & s2 & -> & Hr & Hrest)];
        try (rewrite ?C1, ?C2, ?C3, ?C4, ?C5; assumption).
      * apply handleClick_map_ok, Hmap.
      * left. exists s'. cbn [run step res_bind clock_after].
        rewrite C1, C3, C5 in *. auto.
      * right. exists (Click reticle :: es1), es2, s2.
        cbn [run step res_bind app]. rewrite ?C1, ?C3 in *.
        split; [reflexivity | split; [exact Hr | exact Hrest]].
Qed.

(** From WAITING to ACTIVE.  The scheduler is in WAITING with an empty
    queue, its time stamp on the clock [timeRef] and at most
    [BUFFER_TIME] old; frames follow one another at most [delta] seconds
    apart, and run until [timeRef] is more than
    [BUFFER_TIME + SWELL_TIME + delta] after the time stamp.  Then one of
    these frames has released the wave: the scheduler is ACTIVE, the
    queue holds [PARTICLES_PER_WAVE], and this happened later than
    [BUFFER_TIME + SWELL_TIME] and at most
    [BUFFER_TIME + SWELL_TIME + 2 * delta] after the time stamp. *)
Lemma reaches_ACTIVE (es : list Event) (s : State) :
  0 <= delta ->
  map_ok cfg s -> waveState s = WAITING -> spawnQueue s = 0%Z ->
  timeRef s - stateStartTime s <= BUFFER_TIME W ->
  paced delta (lastFrameTime s) es ->
  BUFFER_TIME W + SWELL_TIME W + delta
    < clock_after (timeRef s) (lastFrameTime s) es - stateStartTime s ->
  exists es1 es2 s1,
    es = es1 ++ es2 /\ run M cfg es1 s = Ok s1
    /\ waveState s1 = ACTIVE /\ spawnQueue s1 = PARTICLES_PER_WAVE W
    /\ BUFFER_TIME W + SWELL_TIME W < timeRef s1 - stateStartTime s
    /\ timeRef s1 - stateStartTime s
       <= BUFFER_TIME W + SWELL_TIME W + 2 * delta.
Proof.
  intros Hdelta Hmap Hw Hq Ht Hp Hlong.
  destruct (WAITING_phase es s Hmap Hw Hq Ht Hp) as
    [(s' & Hr & Hw' & Ht' & Hle') | (esA & esB & sA & -> & HrA & HmapA & HwA
                                     & HqA & HsA & HgtA & HleA & HpA & HcA)].
  - exfalso. rewrite <- Ht' in Hlong. lra.
  - assert (Ht0 : timeRef sA - stateStartTime sA <= SWELL_TIME W)
      by (rewrite HsA; lra).
    destruct (SWELLING_phase esB sA HmapA HwA HqA Ht0 HpA) as
      [(s' & Hr & Hw' & Ht' & Hle')
      | (es1 & es2 & s1 & -> & Hr1 & _ & Hw1 & Hq1 & Hgt1 & Hle1)].
    + exfalso. rewrite HcA, <- Ht' in Hlong. rewrite HsA in Hle'. lra.
    + exists (esA ++ es1), es2, s1.
      split; [apply app_assoc |].
      split; [rewrite run_app, HrA; exact Hr1 |].
      split; [exact Hw1 | split; [exact Hq1 |]].
      rewrite HsA in Hgt1, Hle1. split; lra.
Qed.

End Phases.

Section Active.
Variable M : JSMath.
Variable cfg : VisualConfig.

Let W := WAVES cfg.

Hypothesis SWELL_TIME_nonneg : 0 <= SWELL_TIME W.

(** The kept particles of the loop keep their fading flag. *)
Lemma Steps_fading body l kept removed :
  (forall p p', body p = Ok (Some p') -> isFading p' = isFading p) ->
  Steps body l kept removed ->
  Forall (fun p => isFading p = true) l ->
  Forall (fun p => isFading p = true) kept.
Proof.
  intros Hb H. induction H as [| q q' l kept removed Hq H IH
                                | q l kept removed Hq H IH]; intros Hl.
  - apply Forall_nil_2.
  - apply Forall_cons in Hl. destruct Hl as [Hq1 Hl].
    apply Forall_cons. split; [rewrite (Hb _ _ Hq); exact Hq1 | apply IH, Hl].
  - apply Forall_cons in Hl. destruct Hl as [_ Hl]. apply IH, Hl.
Qed.

Lemma all_set_fading (l : list Particle) :
  Forall (fun p => isFading p = true) (map (set_isFading true) l).
Proof.
  induction l as [| p l IH]; cbn [map];
    [apply Forall_nil_2 | apply Forall_cons; split; [reflexivity | exact IH]].
Qed.

Lemma leave_ACTIVE_elsewhere (f : Frame) (s : State) :
  waveState s <> ACTIVE -> leave_ACTIVE M cfg f s = s.
Proof.
  intros H. unfold leave_ACTIVE.
  destruct (waveState s); [reflexivity | reflexivity | contradiction].
Qed.

(** A frame entered in ACTIVE.  The scheduler leaves ACTIVE in it exactly
    when, after the spawn phase, the queue is empty and the active
    particles have all stopped or [performance.now()] is more than
    [MAX_WAVE_INTERVAL] after [lastWaveTime]; every particle is then
    fading.  Otherwise the frame leaves the scheduler in ACTIVE. *)
Lemma animate_ACTIVE (fuel : nat) (f : Frame) (s s' : State) :
  animate M cfg fuel f s = Ok s' -> waveState s = ACTIVE ->
  exists s1,
    spawn_phase M cfg fuel f (tick_clock f s) = Ok s1
    /\ (leaves_ACTIVE M cfg f s1 ->
        (waveState s' = WAITING \/ waveState s' = SWELLING)
        /\ Forall (fun p => isFading p = true) (particles s'))
    /\ (~ leaves_ACTIVE M cfg f s1 ->
        waveState s' = ACTIVE /\ spawnQueue s' = spawnQueue s1).
Proof.
  intros Ha Hw. apply animate_inv in Ha.
  destruct Ha as (s1 & kept & removed & H1 & HS & ->).
  exists s1. split; [exact H1 |].
  assert (Hw1 : waveState s1 = ACTIVE).
  { unfold spawn_phase in H1. destruct (0 <? _)%Z.
    - apply spawn_loop_placed in H1.
      destruct H1 as (new & (_ & _ & _ & _ & _ & (_ & E & _) & _) & _).
      rewrite E. exact Hw.
    - injection H1 as <-. exact Hw. }
  destruct (opacity_sync_same M cfg (scheduler M cfg f s1))
    as (_ & O1 & O2 & O3 & O4).
  cbn [waveState spawnQueue particles set_disposed set_particles].
  rewrite O1, O3. rewrite O4 in HS.
  unfold scheduler in *.
  destruct (leave_ACTIVE_spec M cfg f s1 Hw1)
    as [(Hl & Ew & Es & Ep) | (Hn & E)]; fold (leaves_ACTIVE M cfg f s1) in *.
  - split; [intros _ | intros Hn; contradiction].
    destruct (leave_WAITING_same cfg (leave_ACTIVE M cfg f s1))
      as (_ & _ & _ & Pw).
    destruct (leave_SWELLING_same cfg (leave_WAITING cfg (leave_ACTIVE M cfg f s1)))
      as (_ & _ & Ps).
    split.
    + fold (scheduler M cfg f s1).
      destruct (scheduler_WAITING M cfg SWELL_TIME_nonneg f
                  (leave_ACTIVE M cfg f s1) Ew) as (_ & [(_ & E & _) | (_ & E & _)]).
      * right. unfold scheduler in E.
        rewrite (leave_ACTIVE_elsewhere f (leave_ACTIVE M cfg f s1)) in E
          by congruence.
        exact E.
      * left. unfold scheduler in E.
        rewrite (leave_ACTIVE_elsewhere f (leave_ACTIVE M cfg f s1)) in E
          by congruence.
        exact E.
    + rewrite Ps, Pw, Ep in HS.
      eapply Steps_fading; [| exact HS |].
      * intros p p' Hb. apply particle_body_kept in Hb. apply Hb.
      * apply all_set_fading.
  - split; [intros Hl; contradiction | intros _].
    rewrite E. unfold leave_WAITING, leave_SWELLING. rewrite Hw1. cbn.
    rewrite Hw1. auto.
Qed.

(** The spawn loop of a frame none of whose candidates is accepted
    places nothing. *)
Lemma spawn_loop_nothing (f : Frame) (toSpawn : Z) (fuel : nat) :
  (forall k x z y, classify M cfg f (casts f k) <> Accepted x z y) ->
  forall (i : Z) (k : nat) (s s' : State),
    spawn_loop M cfg fuel f toSpawn i k s = Ok s' -> s' = s.
Proof.
  intros Hno. induction fuel as [| fuel IH]; intros i k s s' H;
    [discriminate |].
  cbn [spawn_loop] in H.
  destruct (i <? toSpawn)%Z; [| congruence].
  specialize (Hno k).
  destruct (classify M cfg f (casts f k)) as [| | | x z y];
    [eapply IH; exact H .. |].
  contradiction (Hno x z y). reflexivity.
Qed.

(** While no particle is placed the queue does not drain, and the
    scheduler stays in ACTIVE, however long. *)
Lemma stuck_in_ACTIVE (es : list Event) :
  Forall (places_nothing M cfg) es ->
  forall s s' : State,
    waveState s = ACTIVE -> (0 < spawnQueue s)%Z ->
    run M cfg es s = Ok s' ->
    waveState s' = ACTIVE /\ spawnQueue s' = spawnQueue s.
Proof.
  induction 1 as [| e es He Hes IH]; intros s s' Hw Hq Hr.
  - injection Hr as <-. auto.
  - cbn [run] in Hr.
    destruct e as [fuel f | reticle]; [| contradiction He].
    cbn [step] in Hr.
    destruct (animate M cfg fuel f s) as [s1 | e] eqn:Ha;
      cbn [res_bind] in Hr; [| discriminate].
    destruct (animate_ACTIVE fuel f s s1 Ha Hw) as (s0 & H0 & _ & Hstay).
    assert (E0 : s0 = tick_clock f s).
    { unfold spawn_phase in H0. destruct (0 <? _)%Z; [| congruence].
      apply (spawn_loop_nothing f _ _ He) in H0. exact H0. }
    subst s0.
    destruct Hstay as [Hw1 Hq1].
    { intros (Hz & _). cbn in Hz. lia. }
    cbn in Hq1.
    destruct (IH s1 s' Hw1) as [Hw' Hq']; [lia | exact Hr |].
    split; [exact Hw' | lia].
Qed.

End Active.

(** A run that is shown to end by evaluating a [match] on it. *)
Lemma Ok_match {A : Type} (r : res A) (P : A -> Prop) :
  match r with Ok a => P a | Fail _ => False end ->
  exists a, r = Ok a /\ P a.
Proof. destruct r as [a | e]; [eauto | contradiction]. Qed.

Lemma init_map_ok (M : JSMath) (cfg : VisualConfig) (now0 : Q) :
  (2 <= GRADIENT_MAP_RESOLUTION (PHYSICS cfg))%nat ->
  map_ok cfg (init M cfg now0).
Proof.
  intros HR. split; [exact HR |]. cbn [init gradientMap].
  exact (buildGradientMap_length M cfg).
Qed.

(** C5 (amended).  Starting in WAITING with an empty queue and a time
    stamp on the clock [timeRef], with frames at most [delta] seconds
    apart, the scheduler reaches ACTIVE later than
    [BUFFER_TIME + SWELL_TIME] and at most
    [BUFFER_TIME + SWELL_TIME + 2 * delta] after the time stamp: each of
    the two transitions may come up to one frame late.  In ACTIVE it
    goes back to WAITING in the first frame after whose spawn phase the
    queue is empty and either the active particles have all stopped or
    [performance.now()] is more than [MAX_WAVE_INTERVAL] after the time
    the last particle was placed; an empty set of active particles does
    not prevent this, and every particle is then fading.  While the queue
    is not empty the scheduler stays in ACTIVE: when no particle of the
    wave is ever placed it stays in ACTIVE for ever. *)
Theorem C5_wave_cycle (M : JSMath) (cfg : VisualConfig) (delta : Q) :
  0 <= SWELL_TIME (WAVES cfg) -> 0 <= delta ->
  (forall (es : list Event) (s : State),
      map_ok cfg s -> waveState s = WAITING -> spawnQueue s = 0%Z ->
      timeRef s - stateStartTime s <= BUFFER_TIME (WAVES cfg) ->
      paced delta (lastFrameTime s) es ->
      BUFFER_TIME (WAVES cfg) + SWELL_TIME (WAVES cfg) + delta
        < clock_after (timeRef s) (lastFrameTime s) es - stateStartTime s ->
      exists es1 es2 s1,
        es = es1 ++ es2 /\ run M cfg es1 s = Ok s1
        /\ waveState s1 = ACTIVE
        /\ spawnQueue s1 = PARTICLES_PER_WAVE (WAVES cfg)
        /\ BUFFER_TIME (WAVES cfg) + SWELL_TIME (WAVES cfg)
           < timeRef s1 - stateStartTime s
        /\ timeRef s1 - stateStartTime s
           <= BUFFER_TIME (WAVES cfg) + SWELL_TIME (WAVES cfg) + 2 * delta)
  /\ (forall (fuel : nat) (f : Frame) (s s' : State),
         animate M cfg fuel f s = Ok s' -> waveState s = ACTIVE ->
         exists s1,
           spawn_phase M cfg fuel f (tick_clock f s) = Ok s1
           /\ (leaves_ACTIVE M cfg f s1 ->
               (waveState s' = WAITING \/ waveState s' = SWELLING)
               /\ Forall (fun p => isFading p = true) (particles s'))
           /\ (~ leaves_ACTIVE M cfg f s1 ->
               waveState s' = ACTIVE /\ spawnQueue s' = spawnQueue s1))
  /\ (forall (es : list Event) (s s' : State),
         Forall (places_nothing M cfg) es ->
         waveState s = ACTIVE -> (0 < spawnQueue s)%Z ->
         run M cfg es s = Ok s' ->
         waveState s' = ACTIVE /\ spawnQueue s' = spawnQueue s).
Proof.
  intros Hswell Hdelta. split; [| split].
  - intros es s. apply reaches_ACTIVE; assumption.
  - intros fuel f s s'. apply animate_ACTIVE. exact Hswell.
  - intros es s s' Hes. apply stuck_in_ACTIVE; assumption.
Qed.

Lemma C5_wave_cycle_witness :
  0 <= SWELL_TIME (WAVES VISUAL_CONFIG)
  /\ 0 <= 0.9
  /\ exists es1 es2 s1,
      first_frames = es1 ++ es2
      /\ run Math0 VISUAL_CONFIG es1 (init Math0 VISUAL_CONFIG 0) = Ok s1
      /\ waveState s1 = ACTIVE
      /\ spawnQueue s1 = PARTICLES_PER_WAVE (WAVES VISUAL_CONFIG)
      /\ BUFFER_TIME (WAVES VISUAL_CONFIG) + SWELL_TIME (WAVES VISUAL_CONFIG)
         < timeRef s1 - stateStartTime (init Math0 VISUAL_CONFIG 0)
      /\ timeRef s1 - stateStartTime (init Math0 VISUAL_CONFIG 0)
         <= BUFFER_TIME (WAVES VISUAL_CONFIG) + SWELL_TIME (WAVES VISUAL_CONFIG)
            + 2 * 0.9.
Proof.
  assert (H1 : 0 <= SWELL_TIME (WAVES VISUAL_CONFIG)) by (cbn; lra).
  assert (H2 : 0 <= 0.9) by lra.
  split; [exact H1 | split; [exact H2 |]].
  apply (proj1 (C5_wave_cycle Math0 VISUAL_CONFIG 0.9 H1 H2)).
  - apply init_map_ok. cbn. lia.
  - reflexivity.
  - reflexivity.
  - cbn. q_closed.
  - cbn. repeat match goal with |- _ /\ _ => split end; try q_closed. exact I.
  - cbn. q_closed.
Defined.

(** C5 as stated fails twice.  After a mount at time 0, with frames 0.9 s
    apart, the scheduler is still in SWELLING 3.6 s after it entered
    WAITING and reaches ACTIVE only at 4.5 s: more than one frame after
    [BUFFER_TIME + SWELL_TIME = 3].  And when no ray hits the ground plane
    no particle is placed, the queue keeps its 1000 entries, and 10 s and
    20 s after it reached ACTIVE the scheduler is still in ACTIVE, without
    any particle: it has not returned to WAITING within
    [MAX_WAVE_INTERVAL = 15]. *)
Lemma C5_counterexample :
  exists s4 s5 s6 s7,
    run Math0 VISUAL_CONFIG (take 4 first_frames) (init Math0 VISUAL_CONFIG 0)
      = Ok s4
    /\ waveState s4 = SWELLING /\ timeRef s4 == 3.6
    /\ run Math0 VISUAL_CONFIG first_frames (init Math0 VISUAL_CONFIG 0) = Ok s5
    /\ waveState s5 = ACTIVE /\ timeRef s5 == 4.5
    /\ run Math0 VISUAL_CONFIG (first_frames ++ take 1 late_frames)
         (init Math0 VISUAL_CONFIG 0) = Ok s6
    /\ waveState s6 = ACTIVE /\ timeRef s6 == 14.5
    /\ spawnQueue s6 = 1000%Z /\ particles s6 = []
    /\ run Math0 VISUAL_CONFIG (first_frames ++ late_frames)
         (init Math0 VISUAL_CONFIG 0) = Ok s7
    /\ waveState s7 = ACTIVE /\ timeRef s7 == 24.5
    /\ spawnQueue s7 = 1000%Z /\ particles s7 = [] /\ nextId s7 = 0%nat.
Proof.
  assert (H4 : match run Math0 VISUAL_CONFIG (take 4 first_frames)
                       (init Math0 VISUAL_CONFIG 0) with
               | Ok s => waveState s = SWELLING /\ timeRef s == 3.6
               | Fail _ => False
               end) by (lazy; split; reflexivity).
  assert (H5 : match run Math0 VISUAL_CONFIG first_frames
                       (init Math0 VISUAL_CONFIG 0) with
               | Ok s => waveState s = ACTIVE /\ timeRef s == 4.5
               | Fail _ => False
               end) by (lazy; split; reflexivity).
  assert (H6 : match run Math0 VISUAL_CONFIG (first_frames ++ take 1 late_frames)
                       (init Math0 VISUAL_CONFIG 0) with
               | Ok s => waveState s = ACTIVE /\ timeRef s == 14.5
                         /\ spawnQueue s = 1000%Z /\ particles s = []
               | Fail _ => False
               end) by (lazy; repeat split; reflexivity).
  assert (H7 : match run Math0 VISUAL_CONFIG (first_frames ++ late_frames)
                       (init Math0 VISUAL_CONFIG 0) with
               | Ok s => waveState s = ACTIVE /\ timeRef s == 24.5
                         /\ spawnQueue s = 1000%Z /\ particles s = []
                         /\ nextId s = 0%nat
               | Fail _ => False
               end) by (lazy; repeat split; reflexivity).
  apply Ok_match in H4, H5, H6, H7.
  destruct H4 as (s4 & E4 & H4), H5 as (s5 & E5 & H5),
           H6 as (s6 & E6 & H6), H7 as (s7 & E7 & H7).
  exists s4, s5, s6, s7. intuition.
Qed.

(** ** The two clocks of the scheduler *)

Section Clocks.
Variable M : JSMath.
Variable cfg : VisualConfig.

Let W := WAVES cfg.

Hypothesis SWELL_TIME_nonneg : 0 <= SWELL_TIME W.

(** When the scheduler leaves ACTIVE it records [performance.now()], in
    seconds, and at once compares [timeRef] with it. *)
Lemma scheduler_leaves_ACTIVE (f : Frame) (s : State) :
  waveState s = ACTIVE -> leaves_ACTIVE M cfg f s ->
  (BUFFER_TIME W < timeRef s - now_check f / 1000
   /\ waveState (scheduler M cfg f s) = SWELLING
   /\ stateStartTime (scheduler M cfg f s) = timeRef s)
  \/ (timeRef s - now_check f / 1000 <= BUFFER_TIME W
      /\ waveState (scheduler M cfg f s) = WAITING
      /\ stateStartTime (scheduler M cfg f s) = now_check f / 1000).
Proof.
  intros Hw Hl.
  destruct (leave_ACTIVE_spec M cfg f s Hw)
    as [(_ & Ew & Es & Ep) | (Hn & _)]; [| contradiction].
  destruct (leave_ACTIVE_same M cfg f s) as ((Et & _) & _).
  destruct (scheduler_WAITING M cfg SWELL_TIME_nonneg f
              (leave_ACTIVE M cfg f s) Ew) as (_ & H).
  unfold scheduler in H.
  rewrite (leave_ACTIVE_elsewhere M cfg f (leave_ACTIVE M cfg f s)) in H
    by congruence.
  fold (scheduler M cfg f s) in H. rewrite Et, Es in H.
  destruct H as [(H1 & H2 & H3) | (H1 & H2 & H3)]; [left | right]; auto.
Qed.

End Clocks.

(** C6, evaluated.  The component was mounted 50 s after the time origin
    of [performance.now()], so [timeRef] is 50 s behind
    [performance.now() / 1000].  In the frame at 70.5 s the wave times out:
    the scheduler enters WAITING and records the time stamp 70.5, read
    from [performance.now()], while [timeRef] is 20.5.  The transition to
    SWELLING compares [timeRef] with that time stamp: 2 s later, and still
    50.9 s later, the scheduler is in WAITING, although [BUFFER_TIME] is
    1 s.  This holds whatever the particles are. *)
Theorem C6_clocks_mixed (M : JSMath) (ps : list Particle) :
  exists s1 s2 s3,
    animate M VISUAL_CONFIG 0 (frame_at 70500 no_hit) (drained M ps) = Ok s1
    /\ waveState s1 = WAITING
    /\ stateStartTime s1 == 70.5 /\ timeRef s1 == 20.5
    /\ animate M VISUAL_CONFIG 0 (frame_at 72500 no_hit) s1 = Ok s2
    /\ waveState s2 = WAITING /\ timeRef s2 == 22.5
    /\ animate M VISUAL_CONFIG 0 (frame_at 121400 no_hit) s2 = Ok s3
    /\ waveState s3 = WAITING /\ timeRef s3 == 71.4.
Proof.
  assert (Hswell : 0 <= SWELL_TIME (WAVES VISUAL_CONFIG)) by q_closed.
  assert (Hmap : map_ok VISUAL_CONFIG (drained M ps)).
  { split; [cbn; lia |]. exact (buildGradientMap_length M VISUAL_CONFIG). }
  (* the frame at 70.5 s *)
  destruct (animate_idle M VISUAL_CONFIG 0 (frame_at 70500 no_hit)
              (drained M ps) Hmap eq_refl)
    as (s1 & Ha1 & Hmap1 & Hl1 & Ht1 & Hw1 & Hs1 & Hq1).
  destruct (scheduler_leaves_ACTIVE M VISUAL_CONFIG Hswell
              (frame_at 70500 no_hit)
              (tick_clock (frame_at 70500 no_hit) (drained M ps)) eq_refl)
    as [(Hgt & _) | (_ & Ew1 & Es1)].
  { split; [reflexivity | right; cbn; q_closed]. }
  { exfalso. cbn in Hgt. unfold deltaTimeSec in Hgt. cbn in Hgt.
    q_absurd Hgt. }
  rewrite Ew1 in Hw1. rewrite Es1 in Hs1.
  assert (Hq1' : spawnQueue s1 = 0%Z).
  { rewrite Hq1.
    destruct (scheduler_WAITING M VISUAL_CONFIG Hswell (frame_at 70500 no_hit)
                (leave_ACTIVE M VISUAL_CONFIG (frame_at 70500 no_hit)
                   (tick_clock (frame_at 70500 no_hit) (drained M ps))))
      as (Eq & _).
    - destruct (leave_ACTIVE_spec M VISUAL_CONFIG (frame_at 70500 no_hit)
                  (tick_clock (frame_at 70500 no_hit) (drained M ps)) eq_refl)
        as [(_ & E & _) | (Hn & _)]; [exact E |].
      contradiction Hn. split; [reflexivity | right; cbn; q_closed].
    - unfold scheduler in Eq.
      rewrite (leave_ACTIVE_elsewhere M VISUAL_CONFIG) in Eq.
      + fold (scheduler M VISUAL_CONFIG (frame_at 70500 no_hit)
                (tick_clock (frame_at 70500 no_hit) (drained M ps))) in Eq.
        rewrite Eq.
        apply (leave_ACTIVE_same M VISUAL_CONFIG).
      + destruct (leave_ACTIVE_spec M VISUAL_CONFIG (frame_at 70500 no_hit)
                    (tick_clock (frame_at 70500 no_hit) (drained M ps)) eq_refl)
          as [(_ & E & _) | (Hn & _)]; [congruence |].
        contradiction Hn. split; [reflexivity | right; cbn; q_closed]. }
  (* the frame at 72.5 s *)
  destruct (animate_idle M VISUAL_CONFIG 0 (frame_at 72500 no_hit) s1
              Hmap1 Hq1')
    as (s2 & Ha2 & Hmap2 & Hl2 & Ht2 & Hw2 & Hs2 & Hq2).
  assert (Hw1' : waveState (tick_clock (frame_at 72500 no_hit) s1) = WAITING)
    by exact Hw1.
  destruct (scheduler_WAITING M VISUAL_CONFIG Hswell (frame_at 72500 no_hit)
              (tick_clock (frame_at 72500 no_hit) s1) Hw1')
    as (Eq2 & [(Hgt & _) | (_ & Ew2 & Es2)]).
  { exfalso. cbn in Hgt. unfold deltaTimeSec in Hgt. cbn in Hgt.
    rewrite ?Hs1, ?Ht1, ?Hl1 in Hgt. cbn in Hgt. q_absurd Hgt. }
  rewrite Ew2 in Hw2. rewrite Es2 in Hs2. rewrite Eq2 in Hq2.
  cbn in Hs2, Hq2.
  (* the frame at 121.4 s *)
  destruct (animate_idle M VISUAL_CONFIG 0 (frame_at 121400 no_hit) s2
              Hmap2 (eq_trans Hq2 Hq1'))
    as (s3 & Ha3 & Hmap3 & Hl3 & Ht3 & Hw3 & Hs3 & Hq3).
  assert (Hw2' : waveState (tick_clock (frame_at 121400 no_hit) s2) = WAITING)
    by exact Hw2.
  destruct (scheduler_WAITING M VISUAL_CONFIG Hswell (frame_at 121400 no_hit)
              (tick_clock (frame_at 121400 no_hit) s2) Hw2')
    as (Eq3 & [(Hgt & _) | (_ & Ew3 & Es3)]).
  { exfalso. cbn in Hgt. unfold deltaTimeSec in Hgt. cbn in Hgt.
    rewrite ?Hs2, ?Hs1, ?Ht2, ?Ht1, ?Hl2, ?Hl1 in Hgt. cbn in Hgt.
    q_absurd Hgt. }
  rewrite Ew3 in Hw3.
  exists s1, s2, s3.
  split; [exact Ha1 | split; [exact Hw1 |]].
  split; [rewrite Hs1; reflexivity |].
  split; [rewrite Ht1; reflexivity |].
  split; [exact Ha2 | split; [exact Hw2 |]].
  split; [rewrite ?Ht2, ?Ht1, ?Hl1; reflexivity |].
  split; [exact Ha3 | split; [exact Hw3 |]].
  rewrite ?Ht3, ?Ht2, ?Ht1, ?Hl2, ?Hl1. reflexivity.
Qed.

(** ** Identities of the particles *)

Section Identities.
Variable M : JSMath.
Variable cfg : VisualConfig.

Lemma pid_set_isFading (l : list Particle) :
  pid <$> map (set_isFading true) l = pid <$> l.
Proof.
  induction l as [| p l IH]; cbn; [reflexivity | f_equal; exact IH].
Qed.

(** The identities of the kept particles are those of the list, in the
    same order, without the removed ones. *)
Lemma Steps_pids body l kept removed :
  (forall p p', body p = Ok (Some p') -> pid p' = pid p) ->
  Steps body l kept removed ->
  (pid <$> kept) `sublist_of` (pid <$> l)
  /\ (forall d, d ∈ removed -> d ∈ (pid <$> l))
  /\ (NoDup (pid <$> l) -> forall d, d ∈ removed -> d ∉ (pid <$> kept)).
Proof.
  intros Hb H. induction H as [| q q' l kept removed Hq H IH
                                | q l kept removed Hq H IH].
  - split; [reflexivity | split; [intros d Hd; inversion Hd |]].
    intros _ d Hd. inversion Hd.
  - destruct IH as (IH1 & IH2 & IH3). cbn [fmap list_fmap].
    rewrite (Hb _ _ Hq). split; [apply sublist_skip, IH1 |]. split.
    + intros d Hd. apply list_elem_of_further, IH2, Hd.
    + intros Hnd d Hd. apply NoDup_cons in Hnd. destruct Hnd as [Hnq Hnd].
      apply not_elem_of_cons. split; [| apply IH3; assumption].
      intros ->. apply Hnq, IH2, Hd.
  - destruct IH as (IH1 & IH2 & IH3). cbn [fmap list_fmap].
    split; [apply sublist_cons, IH1 |]. split.
    + intros d Hd. apply elem_of_cons in Hd. destruct Hd as [-> | Hd].
      * apply list_elem_of_here.
      * apply list_elem_of_further, IH2, Hd.
    + intros Hnd d Hd. apply NoDup_cons in Hnd. destruct Hnd as [Hnq Hnd].
      apply elem_of_cons in Hd. destruct Hd as [-> | Hd].
      * intros Hin. apply Hnq. eapply elem_of_sublist; [exact Hin | exact IH1].
      * apply IH3; assumption.
Qed.

Lemma ids_ok_placed (f : Frame) (s s' : State) (new : list Particle) :
  placed f s s' new -> ids_ok s -> ids_ok s'.
Proof.
  intros (Hp & _ & Hn & Hids & _ & (_ & _ & _ & _ & _ & _ & Hd) & _)
         (Hnd & Hlt & Hdis).
  unfold ids_ok. rewrite Hp, Hn, Hd, fmap_app, Hids.
  split; [| split].
  - apply NoDup_app. split; [exact Hnd |]. split; [| apply NoDup_seq].
    intros d Hd1 Hd2. apply elem_of_seq in Hd2.
    apply list_elem_of_fmap in Hd1. destruct Hd1 as (p & -> & Hp1).
    specialize (Hlt p Hp1). lia.
  - intros p Hp1. apply elem_of_app in Hp1. destruct Hp1 as [Hp1 | Hp1].
    + specialize (Hlt p Hp1). lia.
    + assert (Hpid : pid p ∈ pid <$> new)
        by (apply list_elem_of_fmap_2, Hp1).
      rewrite Hids in Hpid. apply elem_of_seq in Hpid. lia.
  - intros d Hd1. destruct (Hdis d Hd1) as [Hlt1 Hnot].
    split; [lia |]. intros Hin. apply elem_of_app in Hin.
    destruct Hin as [Hin | Hin]; [contradiction |].
    apply elem_of_seq in Hin. lia.
Qed.

Lemma ids_ok_spawn_phase (fuel : nat) (f : Frame) (s s' : State) :
  spawn_phase M cfg fuel f s = Ok s' -> ids_ok s -> ids_ok s'.
Proof.
  unfold spawn_phase. destruct (0 <? spawnQueue s)%Z.
  - intros H. apply spawn_loop_placed in H. destruct H as (new & Hp & _).
    exact (ids_ok_placed f s s' new Hp).
  - intros [= <-]. auto.
Qed.

Lemma ids_ok_scheduler (f : Frame) (s : State) :
  ids_ok s -> ids_ok (opacity_sync M cfg (scheduler M cfg f s)).
Proof.
  destruct (scheduler_same M cfg f s) as (_ & _ & _ & _ & En & Ed & Ep).
  unfold ids_ok. rewrite En, Ed.
  assert (Epid : pid <$> particles (opacity_sync M cfg (scheduler M cfg f s))
                 = pid <$> particles s).
  { destruct Ep as [-> | ->]; [reflexivity | apply pid_set_isFading]. }
  rewrite Epid.
  intros (Hnd & Hlt & Hdis). split; [exact Hnd | split; [| exact Hdis]].
  intros p Hp.
  assert (Hpid : pid p ∈ pid <$> particles s).
  { rewrite <- Epid. apply list_elem_of_fmap_2, Hp. }
  apply list_elem_of_fmap in Hpid. destruct Hpid as (q & Eq & Hq).
  rewrite Eq. apply Hlt, Hq.
Qed.

Lemma ids_ok_loop body (s : State) kept removed :
  (forall p p', body p = Ok (Some p') -> pid p' = pid p) ->
  Steps body (particles s) kept removed ->
  ids_ok s ->
  ids_ok (set_disposed (removed ++ disposed s) (set_particles kept s)).
Proof.
  intros Hb HS (Hnd & Hlt & Hdis).
  destruct (Steps_pids body _ _ _ Hb HS) as (Hsub & Hrem & Hfresh).
  unfold ids_ok. cbn.
  assert (Hin : forall d, d ∈ pid <$> kept -> d ∈ pid <$> particles s)
    by (intros d Hd; eapply elem_of_sublist; [exact Hd | exact Hsub]).
  split; [eapply sublist_NoDup; [exact Hnd | exact Hsub] | split].
  - intros p Hp.
    assert (Hpid : pid p ∈ pid <$> particles s)
      by (apply Hin, list_elem_of_fmap_2, Hp).
    apply list_elem_of_fmap in Hpid. destruct Hpid as (q & Eq & Hq).
    rewrite Eq. apply Hlt, Hq.
  - intros d Hd. apply elem_of_app in Hd. destruct Hd as [Hd | Hd].
    + split; [| apply Hfresh; assumption].
      specialize (Hrem d Hd). apply list_elem_of_fmap in Hrem.
      destruct Hrem as (q & -> & Hq). apply Hlt, Hq.
    + destruct (Hdis d Hd) as [Hlt1 Hnot]. split; [exact Hlt1 |].
      intros Hk. apply Hnot, Hin, Hk.
Qed.

Lemma ids_ok_animate (fuel : nat) (f : Frame) (s s' : State) :
  animate M cfg fuel f s = Ok s' -> ids_ok s -> ids_ok s'.
Proof.
  intros Ha Hids. apply animate_inv in Ha.
  destruct Ha as (s1 & kept & removed & H1 & HS & ->).
  eapply ids_ok_loop; [| exact HS |].
  - intros p p' Hb. apply particle_body_kept in Hb. apply Hb.
  - apply ids_ok_scheduler. eapply ids_ok_spawn_phase; [exact H1 |].
    exact Hids.
Qed.

Lemma ids_ok_handleClick (reticle : option Vector3) (s : State) :
  ids_ok s -> ids_ok (handleClick M cfg reticle s).
Proof.
  destruct reticle as [pos |]; [| auto].
  intros (Hnd & Hlt & Hdis). unfold handleClick, spawnParticle, ids_ok. cbn.
  rewrite fmap_app. cbn. split; [| split].
  - apply NoDup_app. split; [exact Hnd |]. split; [| apply NoDup_singleton].
    intros d Hd1 Hd2. apply list_elem_of_singleton in Hd2. subst d.
    apply list_elem_of_fmap in Hd1. destruct Hd1 as (p & E & Hp).
    specialize (Hlt p Hp). cbn in E. lia.
  - intros p Hp. apply elem_of_app in Hp. destruct Hp as [Hp | Hp].
    + specialize (Hlt p Hp). lia.
    + apply list_elem_of_singleton in Hp. subst p. cbn. lia.
  - intros d Hd. destruct (Hdis d Hd) as [Hlt1 Hnot]. split; [lia |].
    intros Hin. apply elem_of_app in Hin. destruct Hin as [Hin | Hin];
      [contradiction |].
    apply list_elem_of_singleton in Hin. lia.
Qed.

Lemma ids_ok_run (es : list Event) :
  forall s s' : State, run M cfg es s = Ok s' -> ids_ok s -> ids_ok s'.
Proof.
  induction es as [| e es IH]; intros s s' Hr Hids.
  - injection Hr as <-. exact Hids.
  - cbn [run] in Hr. destruct (step M cfg e s) as [s1 | err] eqn:Hs;
      cbn [res_bind] in Hr; [| discriminate].
    apply (IH s1 s' Hr).
    destruct e as [fuel f | reticle]; cbn [step] in Hs.
    + eapply ids_ok_animate; eassumption.
    + injection Hs as <-. apply ids_ok_handleClick, Hids.
Qed.

Lemma ids_ok_init (now0 : Q) : ids_ok (init M cfg now0).
Proof.
  unfold ids_ok, init. cbn. split; [apply NoDup_nil_2 |].
  split; intros x Hx; inversion Hx.
Qed.

End Identities.

(** ** Physics *)

Lemma spawn_phase_placed (M : JSMath) (cfg : VisualConfig) (fuel : nat)
    (f : Frame) (s s' : State) :
  spawn_phase M cfg fuel f s = Ok s' -> exists new, placed f s s' new.
Proof.
  unfold spawn_phase. destruct (0 <? spawnQueue s)%Z.
  - intros H. apply spawn_loop_placed in H. destruct H as (new & Hp & _).
    exists new. exact Hp.
  - intros [= <-]. exists []. apply placed_none.
Qed.

(** C2.  In a frame that ends, let [s2] be the state in which the
    particle loop starts (after the spawn phase, the scheduler and the
    opacity sync).  If the spawn queue is zero there, every particle that
    is not fading there is still in the list after the frame, not fading,
    with the velocity
    [v * MOMENTUM - gradient * LEARNING_RATE * frameScale], the gradient
    being sampled at the position before the move, and with the position
    [pos + v' * frameScale] for this new velocity [v'].  The momentum
    factor is not scaled by the frame time.  [frameScale] is
    [deltaTimeSec / 0.0166] of the frame: the same for every particle. *)
Theorem C2_velocity_and_position_update (M : JSMath) (cfg : VisualConfig)
    (fuel : nat) (f : Frame) (s s1 s' : State) :
  let frameScale := (now f - lastFrameTime s) / 1000 / 0.0166 in
  let s2 := opacity_sync M cfg (scheduler M cfg f s1) in
  animate M cfg fuel f s = Ok s' ->
  spawn_phase M cfg fuel f (tick_clock f s) = Ok s1 ->
  spawnQueue s2 = 0%Z ->
  forall p, p ∈ particles s2 -> isFading p = false ->
    exists grad p',
      gradient cfg (gradientMap s) (p_x p) (p_z p) = Some grad
      /\ p' ∈ particles s' /\ pid p' = pid p /\ isFading p' = false
      /\ p_vx p' = p_vx p * MOMENTUM (PHYSICS cfg)
                   - dx grad * LEARNING_RATE (PHYSICS cfg) * frameScale
      /\ p_vz p' = p_vz p * MOMENTUM (PHYSICS cfg)
                   - dz grad * LEARNING_RATE (PHYSICS cfg) * frameScale
      /\ p_x p' = p_x p + p_vx p' * frameScale
      /\ p_z p' = p_z p + p_vz p' * frameScale.
Proof.
  intros frameScale0 s2 Ha H1 Hq p Hp Hf.
  apply animate_inv in Ha.
  destruct Ha as (s1' & kept & removed & H1' & HS & ->).
  rewrite H1 in H1'. injection H1' as <-. fold s2 in HS |- *.
  assert (Emap : gradientMap s2 = gradientMap s).
  { destruct (scheduler_same M cfg f s1) as (_ & _ & E & _).
    destruct (spawn_phase_placed M cfg fuel f _ _ H1)
      as (new & _ & _ & _ & _ & _ & (_ & _ & _ & E1 & _) & _).
    subst s2. rewrite E, E1. reflexivity. }
  destruct (Steps_of_elem _ _ _ _ p HS Hp) as [(p' & Hb & Hk) | (Hb & _)].
  - unfold frame_body in Hb. rewrite Hq, Emap in Hb.
    destruct (particle_body_kept M cfg _ _ _ p p' Hb)
      as (Hpid & Hfad & _ & _ & Hmove & _).
    destruct (Hmove Hf eq_refl) as (grad & Hg & Hvx & Hvz & Hx & Hz).
    exists grad, p'. cbn [particles set_disposed set_particles].
    split; [exact Hg | split; [exact Hk | split; [exact Hpid |]]].
    split; [congruence |].
    unfold frameScale, deltaTimeSec in *. auto.
  - apply particle_body_removed in Hb. destruct Hb as [Hb _]. congruence.
Qed.

Lemma C2_velocity_and_position_update_witness :
  exists s',
    animate Math0 GRID3 0 (frame_at 533.2 no_hit) one_rolling = Ok s'
    /\ exists grad p',
        gradient GRID3 (gradientMap one_rolling) (p_x rolling) (p_z rolling)
          = Some grad
        /\ p' ∈ particles s' /\ pid p' = pid rolling /\ isFading p' = false
        /\ p_vx p' = p_vx rolling * MOMENTUM (PHYSICS GRID3)
                     - dx grad * LEARNING_RATE (PHYSICS GRID3)
                       * ((533.2 - 500) / 1000 / 0.0166)
        /\ p_vz p' = p_vz rolling * MOMENTUM (PHYSICS GRID3)
                     - dz grad * LEARNING_RATE (PHYSICS GRID3)
                       * ((533.2 - 500) / 1000 / 0.0166)
        /\ p_x p' = p_x rolling + p_vx p' * ((533.2 - 500) / 1000 / 0.0166)
        /\ p_z p' = p_z rolling + p_vz p' * ((533.2 - 500) / 1000 / 0.0166).
Proof.
  assert (H : match animate Math0 GRID3 0 (frame_at 533.2 no_hit) one_rolling
              with Ok _ => True | Fail _ => False end)
    by (vm_compute; exact I).
  apply Ok_match in H. destruct H as (s' & Ha & _).
  exists s'. split; [exact Ha |].
  apply (C2_velocity_and_position_update Math0 GRID3 0
           (frame_at 533.2 no_hit) one_rolling
           (tick_clock (frame_at 533.2 no_hit) one_rolling) s' Ha).
  - reflexivity.
  - reflexivity.
  - vm_compute. apply list_elem_of_here.
  - reflexivity.
Defined.

(** ** Fading and removal *)

Section Fading.
Variable M : JSMath.
Variable cfg : VisualConfig.

Let k := 1.0 - FADE_OUT_SPEED (WAVES cfg).

Lemma set_isFading_fading (p : Particle) :
  isFading p = true -> set_isFading true p = p.
Proof. destruct p; cbn; intros ->; reflexivity. Qed.

(** The list the particle loop of a frame starts from: the particles of
    the state the frame was entered in, fading if they were or if the
    scheduler has left ACTIVE, followed by the particles placed in the
    frame. *)
Lemma loop_input (fuel : nat) (f : Frame) (s s1 : State) :
  spawn_phase M cfg fuel f (tick_clock f s) = Ok s1 ->
  exists new,
    placed f (tick_clock f s) s1 new
    /\ (particles (opacity_sync M cfg (scheduler M cfg f s1))
        = particles s ++ new
        \/ particles (opacity_sync M cfg (scheduler M cfg f s1))
           = map (set_isFading true) (particles s ++ new)).
Proof.
  intros H1. destruct (spawn_phase_placed M cfg fuel f _ _ H1) as (new & Hp).
  exists new. split; [exact Hp |].
  destruct Hp as (Hp & _).
  destruct (scheduler_same M cfg f s1) as (_ & _ & _ & _ & _ & _ & E).
  cbn in Hp. rewrite Hp in E. exact E.
Qed.

(** A particle that is fading when a frame is entered is in the list the
    particle loop starts from. *)
Lemma fading_in_loop_input (fuel : nat) (f : Frame) (s s1 : State)
    (p : Particle) :
  spawn_phase M cfg fuel f (tick_clock f s) = Ok s1 ->
  p ∈ particles s -> isFading p = true ->
  p ∈ particles (opacity_sync M cfg (scheduler M cfg f s1)).
Proof.
  intros H1 Hp Hf. destruct (loop_input fuel f s s1 H1) as (new & _ & [E | E]);
    rewrite E.
  - apply elem_of_app. left. exact Hp.
  - rewrite <- (set_isFading_fading p Hf).
    apply list_elem_of_fmap_2. apply elem_of_app. left. exact Hp.
Qed.

(** One frame of a fading particle: it is removed and disposed when its
    scale, multiplied once by [1 - FADE_OUT_SPEED], is below 0.01;
    otherwise it stays, fading, with its scale multiplied twice. *)
Lemma fading_frame (fuel : nat) (f : Frame) (s s' : State) (p : Particle) :
  animate M cfg fuel f s = Ok s' -> ids_ok s ->
  p ∈ particles s -> isFading p = true ->
  (v_x (mesh_scale p) * k < 0.01 /\ gone (pid p) s')
  \/ (0.01 <= v_x (mesh_scale p) * k
      /\ exists p', p' ∈ particles s' /\ pid p' = pid p
           /\ isFading p' = true
           /\ mesh_scale p'
              = multiplyScalar (multiplyScalar (mesh_scale p) k) k).
Proof.
  intros Ha Hids Hp Hf.
  pose proof (ids_ok_animate M cfg fuel f s s' Ha Hids) as Hids'.
  apply animate_inv in Ha.
  destruct Ha as (s1 & kept & removed & H1 & HS & ->).
  pose proof (fading_in_loop_input fuel f s s1 p H1 Hp Hf) as Hp2.
  destruct (Steps_of_elem _ _ _ _ p HS Hp2) as [(p' & Hb & Hk) | (Hb & Hr)].
  - right. apply particle_body_kept in Hb.
    destruct Hb as (Hpid & Hfad & _ & Hscale & _).
    destruct (Hscale Hf) as (Hsc & Hge & _).
    split; [exact Hge |]. exists p'. cbn. rewrite Hfad. auto.
  - left. apply particle_body_removed in Hb. destruct Hb as [_ Hlt].
    split; [exact Hlt |].
    assert (Hd : pid p ∈ disposed
                   (set_disposed
                      (removed ++ disposed (opacity_sync M cfg (scheduler M cfg f s1)))
                      (set_particles kept (opacity_sync M cfg (scheduler M cfg f s1))))).
    { cbn. apply elem_of_app. left. exact Hr. }
    split; [exact Hd |]. apply Hids', Hd.
Qed.

(** What is disposed stays disposed, and never comes back to the list. *)
Lemma disposed_step (e : Event) (s s' : State) (d : nat) :
  step M cfg e s = Ok s' -> d ∈ disposed s -> d ∈ disposed s'.
Proof.
  destruct e as [fuel f | reticle]; cbn [step].
  - intros Ha Hd. apply animate_inv in Ha.
    destruct Ha as (s1 & kept & removed & H1 & _ & ->). cbn.
    apply elem_of_app. right.
    destruct (scheduler_same M cfg f s1) as (_ & _ & _ & _ & _ & -> & _).
    destruct (spawn_phase_placed M cfg fuel f _ _ H1)
      as (new & _ & _ & _ & _ & _ & (_ & _ & _ & _ & _ & _ & ->) & _).
    exact Hd.
  - intros [= <-] Hd.
    destruct (handleClick_same M cfg reticle s) as (_ & _ & _ & _ & _ & _ & _ & ->).
    exact Hd.
Qed.

Lemma gone_run (es : list Event) :
  forall (s s' : State) (d : nat),
    run M cfg es s = Ok s' -> ids_ok s -> gone d s -> gone d s'.
Proof.
  induction es as [| e es IH]; intros s s' d Hr Hids Hg.
  - injection Hr as <-. exact Hg.
  - cbn [run] in Hr. destruct (step M cfg e s) as [s1 | err] eqn:Hs;
      cbn [res_bind] in Hr; [| discriminate].
    assert (Hids1 : ids_ok s1)
      by (apply (ids_ok_run M cfg [e] s s1); [cbn; rewrite Hs; reflexivity | exact Hids]).
    apply (IH s1 s' d Hr Hids1).
    destruct Hg as [Hd _].
    pose proof (disposed_step e s s1 d Hs Hd) as Hd1.
    split; [exact Hd1 | apply Hids1, Hd1].
Qed.

(** A fading particle object stays fading. *)
Lemma fading_id_step (e : Event) (s s' : State) (d : nat) :
  step M cfg e s = Ok s' -> (d < nextId s)%nat ->
  fading_id d s -> fading_id d s'.
Proof.
  destruct e as [fuel f | reticle]; cbn [step].
  - intros Ha Hlt Hfad p' Hp' Hpid. apply animate_inv in Ha.
    destruct Ha as (s1 & kept & removed & H1 & HS & ->). cbn in Hp'.
    destruct (Steps_kept_from _ _ _ _ p' HS Hp') as (q & Hq & Hb).
    apply particle_body_kept in Hb. destruct Hb as (Hpq & Hfq & _).
    rewrite Hfq.
    destruct (loop_input fuel f s s1 H1) as (new & Hpl & [E | E]);
      rewrite E in Hq.
    + apply elem_of_app in Hq. destruct Hq as [Hq | Hq].
      * apply Hfad; [exact Hq | congruence].
      * exfalso. destruct Hpl as (_ & _ & _ & Hids & _).
        assert (Hin : pid q ∈ pid <$> new) by (apply list_elem_of_fmap_2, Hq).
        rewrite Hids in Hin. apply elem_of_seq in Hin. cbn in Hin. lia.
    + apply list_elem_of_fmap in Hq. destruct Hq as (q0 & -> & _). reflexivity.
  - intros [= <-] Hlt Hfad p' Hp' Hpid.
    destruct reticle as [pos |]; [| apply Hfad; assumption].
    cbn in Hp'. apply elem_of_app in Hp'. destruct Hp' as [Hp' | Hp'].
    + apply Hfad; assumption.
    + apply list_elem_of_singleton in Hp'. subst p'. cbn in Hpid. lia.
Qed.

Lemma nextId_step (e : Event) (s s' : State) :
  step M cfg e s = Ok s' -> (nextId s <= nextId s')%nat.
Proof.
  destruct e as [fuel f | reticle]; cbn [step].
  - intros Ha. apply animate_inv in Ha.
    destruct Ha as (s1 & kept & removed & H1 & _ & ->). cbn.
    destruct (scheduler_same M cfg f s1) as (_ & _ & _ & _ & -> & _).
    destruct (spawn_phase_placed M cfg fuel f _ _ H1)
      as (new & _ & _ & -> & _). cbn. lia.
  - intros [= <-]. destruct reticle; cbn; lia.
Qed.

Lemma fading_id_run (es : list Event) :
  forall (s s' : State) (d : nat),
    run M cfg es s = Ok s' -> (d < nextId s)%nat ->
    fading_id d s -> fading_id d s'.
Proof.
  induction es as [| e es IH]; intros s s' d Hr Hlt Hfad.
  - injection Hr as <-. exact Hfad.
  - cbn [run] in Hr. destruct (step M cfg e s) as [s1 | err] eqn:Hs;
      cbn [res_bind] in Hr; [| discriminate].
    apply (IH s1 s' d Hr).
    + pose proof (nextId_step e s s1 Hs). lia.
    + eapply fading_id_step; eassumption.
Qed.

(** With distinct identities, the identity of a fading particle is a
    fading identity. *)
Lemma fading_id_of (s : State) (p : Particle) :
  ids_ok s -> p ∈ particles s -> isFading p = true ->
  (pid p < nextId s)%nat /\ fading_id (pid p) s.
Proof.
  intros (Hnd & Hlt & _) Hp Hf. split; [apply Hlt, Hp |].
  intros q Hq Hpid.
  assert (E : q = p); [| subst q; exact Hf].
  apply list_elem_of_lookup in Hp, Hq.
  destruct Hp as [i Hi], Hq as [j Hj].
  assert (Eij : i = j).
  { eapply NoDup_lookup; [exact Hnd | |].
    - rewrite list_lookup_fmap, Hi. reflexivity.
    - rewrite list_lookup_fmap, Hj. cbn. congruence. }
  subst j. congruence.
Qed.

End Fading.

Section Shrinking.
Variable k : Q.

Lemma shrunk_shift (x : Q) (n : nat) : shrunk (x * k) k n = shrunk x k (S n).
Proof.
  induction n as [| n IH]; [reflexivity |].
  cbn [shrunk] in *. rewrite IH. reflexivity.
Qed.

Hypothesis k_range : 0 <= k < 1.

Lemma shrunk_nonneg (x : Q) (n : nat) : 0 <= x -> 0 <= shrunk x k n.
Proof.
  intros Hx. induction n as [| n IH]; cbn [shrunk]; [exact Hx |].
  apply Qmult_le_0_compat; [exact IH | apply k_range].
Qed.

Lemma shrunk_nonpos (x : Q) (n : nat) : x <= 0 -> shrunk x k n <= 0.
Proof.
  intros Hx. induction n as [| n IH]; cbn [shrunk]; [exact Hx |].
  destruct k_range as [Hk _]. nra.
Qed.

(** Bernoulli: [x * k ^ n * (1 + n * (1 - k)) <= x]. *)
Lemma shrunk_Bernoulli (x : Q) (n : nat) :
  0 <= x -> shrunk x k n * (1 + Qnat n * (1 - k)) <= x.
Proof.
  intros Hx. induction n as [| n IH].
  - cbn [shrunk]. change (Qnat 0) with 0.
    assert (E : x * (1 + 0 * (1 - k)) == x) by ring.
    rewrite E. apply Qle_refl.
  - cbn [shrunk].
    pose proof (shrunk_nonneg x n Hx) as Hy.
    assert (En : Qnat (S n) == Qnat n + 1).
    { unfold Qnat. rewrite Nat2Z.inj_succ. unfold Z.succ.
      rewrite inject_Z_plus. reflexivity. }
    assert (Hn : 0 <= Qnat n).
    { unfold Qnat. rewrite <- (Zle_Qle 0). lia. }
    rewrite En. destruct k_range as [Hk0 Hk1].
    set (y := shrunk x k n) in *. set (m := Qnat n) in *.
    assert (H1 : y * k * (1 + (m + 1) * (1 - k))
                 == y * (1 + m * (1 - k))
                    - y * ((m + 1) * ((1 - k) * (1 - k)))) by ring.
    rewrite H1.
    assert (H2 : 0 <= y * ((m + 1) * ((1 - k) * (1 - k)))).
    { apply Qmult_le_0_compat; [exact Hy |].
      apply Qmult_le_0_compat; [lra |].
      apply Qmult_le_0_compat; lra. }
    lra.
Qed.

(** Every scale falls below 0.01 after finitely many shrinkings, and at
    an odd number of them. *)
Lemma shrunk_eventually (x : Q) :
  exists n, (1 <= n)%nat /\ shrunk x k (2 * n - 1) < 0.01.
Proof.
  destruct (Qlt_le_dec x 0) as [Hneg | Hpos].
  - exists 1%nat. split; [lia |].
    pose proof (shrunk_nonpos x (2 * 1 - 1) (Qlt_le_weak _ _ Hneg)). lra.
  - destruct k_range as [Hk0 Hk1].
    set (e := 1 - k). assert (He : 0 < e) by (subst e; lra).
    set (m := Z.to_nat (Qceiling (100 * x / e))).
    exists (S m). split; [lia |].
    pose proof (shrunk_Bernoulli x (2 * S m - 1) Hpos) as HB. fold e in HB.
    pose proof (shrunk_nonneg x (2 * S m - 1) Hpos) as Hy.
    set (y := shrunk x k (2 * S m - 1)) in *.
    assert (Hm : 100 * x < 1 + Qnat (2 * S m - 1) * e).
    { assert (Hc : 100 * x / e <= Qnat m).
      { eapply Qle_trans; [apply Qle_ceiling |].
        unfold Qnat, m. rewrite <- Zle_Qle. lia. }
      assert (Hc' : 100 * x <= Qnat m * e).
      { apply (Qmult_le_r _ _ e He) in Hc.
        assert (E : 100 * x / e * e == 100 * x) by (field; lra).
        rewrite E in Hc. exact Hc. }
      assert (Hmm : Qnat m <= Qnat (2 * S m - 1)).
      { unfold Qnat. rewrite <- Zle_Qle. lia. }
      nra. }
    destruct (Qlt_le_dec y 0.01) as [Hlt | Hge]; [exact Hlt | exfalso].
    assert (H100 : 1 + Qnat (2 * S m - 1) * e <= 100 * x).
    { assert (Hpos1 : 0 < 1 + Qnat (2 * S m - 1) * e) by lra.
      nra. }
    lra.
Qed.

End Shrinking.

Section Removal.
Variable M : JSMath.
Variable cfg : VisualConfig.

Let k := 1.0 - FADE_OUT_SPEED (WAVES cfg).

(** A fading particle whose scale, shrunk [2 * j - 1] times, is below
    0.01 is gone after [j] frames. *)
Lemma fading_removed_within (es : list Event) :
  forall (s s' : State) (p : Particle) (j : nat),
    run M cfg es s = Ok s' -> ids_ok s ->
    p ∈ particles s -> isFading p = true ->
    (1 <= j <= frames_in es)%nat ->
    shrunk (v_x (mesh_scale p)) k (2 * j - 1) < 0.01 ->
    gone (pid p) s'.
Proof.
  induction es as [| e es IH]; intros s s' p j Hr Hids Hp Hf Hj Hlt.
  - cbn in Hj. lia.
  - cbn [run] in Hr. destruct (step M cfg e s) as [s1 | err] eqn:Hs;
      cbn [res_bind] in Hr; [| discriminate].
    assert (Hids1 : ids_ok s1)
      by (apply (ids_ok_run M cfg [e] s s1);
          [cbn; rewrite Hs; reflexivity | exact Hids]).
    destruct e as [fuel f | reticle]; cbn [step frames_in] in Hs, Hj.
    + destruct (fading_frame M cfg fuel f s s1 p Hs Hids Hp Hf)
        as [[_ Hg] | (Hge & p' & Hp' & Hpid & Hf' & Hsc)].
      * apply (gone_run M cfg es s1 s' (pid p) Hr Hids1 Hg).
      * fold k in Hge, Hsc.
        destruct j as [| [| j]]; [lia | |].
        { exfalso. cbn [Nat.mul Nat.add Nat.sub shrunk] in Hlt.
          apply (Qlt_not_le _ _ Hlt), Hge. }
        rewrite <- Hpid.
        apply (IH s1 s' p' (S j) Hr Hids1 Hp' Hf'); [lia |].
        rewrite Hsc. cbn [multiplyScalar v_x].
        rewrite !shrunk_shift.
        replace (S (S (2 * S j - 1))) with (2 * S (S j) - 1)%nat by lia.
        exact Hlt.
    + injection Hs as <-.
      apply (IH (handleClick M cfg reticle s) s' p j Hr Hids1); try assumption.
      destruct reticle as [pos |]; [| exact Hp].
      cbn. apply elem_of_app. left. exact Hp.
Qed.

End Removal.

(** Under the configuration of the repository a scale of 1 is below 0.01
    after 229 shrinkings and not after 227: a fading particle of scale 1
    is removed in the 115th frame. *)
Lemma shrunk_VISUAL_CONFIG :
  0.01 <= shrunk 1 (1.0 - FADE_OUT_SPEED (WAVES VISUAL_CONFIG)) (2 * 114 - 1)
  /\ shrunk 1 (1.0 - FADE_OUT_SPEED (WAVES VISUAL_CONFIG)) (2 * 115 - 1) < 0.01.
Proof.
  split.
  - apply Qle_bool_iff. vm_compute. reflexivity.
  - apply Qltb_lt. vm_compute. reflexivity.
Qed.

Lemma ids_ok_one_fading : ids_ok one_fading.
Proof.
  unfold ids_ok, one_fading. cbn. split; [| split].
  - apply NoDup_singleton.
  - intros p Hp. apply list_elem_of_singleton in Hp. subst p. cbn. lia.
  - intros d Hd. inversion Hd.
Qed.




(** ** Removal, age and lifespan *)

Section Lifespan.
Variable M : JSMath.
Variable cfg : VisualConfig.
Variable n : nat.

(** No function of the simulation reads [PHYSICS.MAX_AGE]. *)
Lemma init_MAX_AGE (now0 : Q) :
  init M (with_MAX_AGE n cfg) now0 = init M cfg now0.
Proof. reflexivity. Qed.

Lemma classify_MAX_AGE (f : Frame) (c : option (Q * Q)) :
  classify M (with_MAX_AGE n cfg) f c = classify M cfg f c.
Proof.
  unfold classify, isVisible. cbn [with_MAX_AGE TERRAIN WAVES]. reflexivity.
Qed.

Lemma place_MAX_AGE (f : Frame) (x z y : Q) (s : State) :
  place M (with_MAX_AGE n cfg) f x z y s = place M cfg f x z y s.
Proof. reflexivity. Qed.

Lemma spawn_loop_MAX_AGE (fuel : nat) :
  forall (f : Frame) (t i : Z) (k : nat) (s : State),
    spawn_loop M (with_MAX_AGE n cfg) fuel f t i k s
    = spawn_loop M cfg fuel f t i k s.
Proof.
  induction fuel as [| fuel IH]; intros f t i k s; [reflexivity |].
  cbn [spawn_loop]. rewrite classify_MAX_AGE.
  destruct (i <? t)%Z; [| reflexivity].
  destruct (classify M cfg f (casts f k)); rewrite ?place_MAX_AGE; apply IH.
Qed.

Lemma animate_MAX_AGE (fuel : nat) (f : Frame) (s : State) :
  animate M (with_MAX_AGE n cfg) fuel f s = animate M cfg fuel f s.
Proof.
  unfold animate, spawn_phase. cbn [with_MAX_AGE WAVES].
  rewrite spawn_loop_MAX_AGE. reflexivity.
Qed.

Lemma handleClick_MAX_AGE (reticle : option Vector3) (s : State) :
  handleClick M (with_MAX_AGE n cfg) reticle s = handleClick M cfg reticle s.
Proof. reflexivity. Qed.

Lemma run_MAX_AGE (es : list Event) :
  forall s : State, run M (with_MAX_AGE n cfg) es s = run M cfg es s.
Proof.
  induction es as [| e es IH]; intros s; [reflexivity |].
  cbn [run].
  assert (E : step M (with_MAX_AGE n cfg) e s = step M cfg e s).
  { destruct e as [fuel f | reticle]; cbn [step].
    - apply animate_MAX_AGE.
    - rewrite handleClick_MAX_AGE. reflexivity. }
  rewrite E. destruct (step M cfg e s); cbn [res_bind];
    [apply IH | reflexivity].
Qed.

End Lifespan.

Section Removed.
Variable M : JSMath.
Variable cfg : VisualConfig.

Let k := 1.0 - FADE_OUT_SPEED (WAVES cfg).

(** The settle test holds only if every active particle is slower than
    [VELOCITY_THRESHOLD]: an age above 100 is required in addition. *)
Lemma allParticlesStopped_slow (s : State) (p : Particle) :
  allParticlesStopped M cfg s = true ->
  p ∈ particles s -> isFading p = false ->
  speed M p < VELOCITY_THRESHOLD (WAVES cfg) /\ (100 < age p)%nat.
Proof.
  unfold allParticlesStopped, activeParticles. intros H Hp Hf.
  apply andb_prop in H. destruct H as [_ H].
  rewrite forallb_forall in H.
  assert (Hin : In p (List.filter (fun p => negb (isFading p)) (particles s))).
  { apply filter_In. split; [apply list_elem_of_In, Hp |].
    rewrite Hf. reflexivity. }
  apply H in Hin. apply andb_prop in Hin. destruct Hin as [Hs Ha].
  split; [apply Qltb_lt, Hs | apply Nat.ltb_lt, Ha].
Qed.

(** Only the scheduler leaving ACTIVE flags particles as fading. *)
Lemma scheduler_particles (f : Frame) (s : State) :
  particles (opacity_sync M cfg (scheduler M cfg f s)) = particles s
  \/ (particles (opacity_sync M cfg (scheduler M cfg f s))
        = map (set_isFading true) (particles s)
      /\ waveState s = ACTIVE /\ leaves_ACTIVE M cfg f s).
Proof.
  assert (E : particles (opacity_sync M cfg (scheduler M cfg f s))
              = particles (leave_ACTIVE M cfg f s)).
  { unfold scheduler.
    pose proof (opacity_sync_same M cfg
                  (leave_SWELLING cfg (leave_WAITING cfg (leave_ACTIVE M cfg f s))))
      as (_ & _ & _ & _ & E4).
    pose proof (leave_SWELLING_same cfg (leave_WAITING cfg (leave_ACTIVE M cfg f s)))
      as (_ & _ & E3).
    pose proof (leave_WAITING_same cfg (leave_ACTIVE M cfg f s))
      as (_ & _ & _ & E2).
    congruence. }
  rewrite E.
  destruct (waveState s) eqn:Ew.
  1, 2: left; rewrite leave_ACTIVE_elsewhere; [reflexivity | congruence].
  destruct (leave_ACTIVE_spec M cfg f s Ew) as [(Hl & _ & _ & Hp) | (_ & ->)].
  - right. split; [exact Hp | split; [reflexivity | exact Hl]].
  - left. reflexivity.
Qed.

(** The outcome of the loop body does not depend on the age. *)
Lemma particle_body_age (fs : Q) (q : Z) (map : option GradientMap)
    (a : nat) (p : Particle) :
  particle_body M cfg fs q map (set_age a p) = Ok None
  <-> particle_body M cfg fs q map p = Ok None.
Proof.
  assert (Hiff : forall p0, particle_body M cfg fs q map p0 = Ok None
                   <-> isFading p0 = true /\ v_x (mesh_scale p0) * k < 0.01).
  { intros p0. split; [apply particle_body_removed |].
    intros [Hf Hlt].
    destruct (particle_body_fading M cfg fs q map p0 Hf)
      as [[_ E] | [Hge _]]; [exact E |].
    exfalso. apply (Qlt_not_le _ _ Hlt), Hge. }
  rewrite !Hiff. destruct p; reflexivity.
Qed.

End Removed.

(** C10.  In a frame that ends, let [s1] be the state after the spawn
    phase and [s2] the state in which the particle loop starts.
    - The spawn phase and a click only append to the particle list.
    - A particle of the loop is spliced out, and disposed, exactly when
      it is fading there and its x scale times [1 - FADE_OUT_SPEED] is
      below 0.01; otherwise it stays, with its flag, one frame older.
      Whether it is spliced out does not depend on its age.
    - The list after the frame holds these particles only, each one frame
      older than it was, in every state of the wave and fading or not.
    - The particles are flagged as fading by the scheduler only, when it
      leaves ACTIVE: with an empty spawn queue, when the wave has timed
      out or the settle test holds; the settle test requires every active
      particle to be slower than [VELOCITY_THRESHOLD] besides being older
      than 100 frames, so no age is enough for it.
    - [PHYSICS.MAX_AGE] is not read: with any other value the mount, the
      frame and every run give the same result. *)
Theorem C10_removed_only_when_faded (M : JSMath) (cfg : VisualConfig)
    (fuel : nat) (f : Frame) (s s1 s' : State) :
  let k := 1.0 - FADE_OUT_SPEED (WAVES cfg) in
  let s2 := opacity_sync M cfg (scheduler M cfg f s1) in
  animate M cfg fuel f s = Ok s' ->
  spawn_phase M cfg fuel f (tick_clock f s) = Ok s1 ->
  ((exists new, particles s1 = particles s ++ new)
   /\ forall reticle, exists new,
        particles (handleClick M cfg reticle s) = particles s ++ new)
  /\ (forall p, p ∈ particles s2 ->
        (isFading p = true /\ v_x (mesh_scale p) * k < 0.01
         /\ pid p ∈ disposed s')
        \/ ((isFading p = false \/ 0.01 <= v_x (mesh_scale p) * k)
            /\ exists p', p' ∈ particles s' /\ pid p' = pid p
                 /\ isFading p' = isFading p /\ age p' = S (age p)))
  /\ (forall a p, frame_body M cfg f s s2 (set_age a p) = Ok None
                  <-> frame_body M cfg f s s2 p = Ok None)
  /\ (forall p', p' ∈ particles s' ->
        exists p, p ∈ particles s2 /\ pid p' = pid p
          /\ isFading p' = isFading p /\ age p' = S (age p))
  /\ (particles s2 = particles s1
      \/ (particles s2 = map (set_isFading true) (particles s1)
          /\ waveState s1 = ACTIVE /\ leaves_ACTIVE M cfg f s1))
  /\ (allParticlesStopped M cfg s1 = true ->
      forall p, p ∈ particles s1 -> isFading p = false ->
        speed M p < VELOCITY_THRESHOLD (WAVES cfg) /\ (100 < age p)%nat)
  /\ (forall n,
        init M (with_MAX_AGE n cfg) (lastFrameTime s)
        = init M cfg (lastFrameTime s)
        /\ animate M (with_MAX_AGE n cfg) fuel f s = Ok s'
        /\ forall es, run M (with_MAX_AGE n cfg) es s = run M cfg es s).
Proof.
  intros k s2 Ha H1.
  pose proof Ha as Hinv. apply animate_inv in Hinv.
  destruct Hinv as (s1' & kept & removed & H1' & HS & Es').
  rewrite H1 in H1'. injection H1' as <-. fold s2 in HS, Es'.
  split; [split |].
  { destruct (spawn_phase_placed M cfg fuel f _ _ H1) as (new & Hp & _).
    exists new. exact Hp. }
  { intros [pos |]; cbn.
    - eexists. reflexivity.
    - exists []. rewrite app_nil_r. reflexivity. }
  split.
  { intros p Hp.
    destruct (Steps_of_elem _ _ _ _ p HS Hp) as [(p' & Hb & Hk) | (Hb & Hr)].
    - right. apply particle_body_kept in Hb.
      destruct Hb as (Hpid & Hfad & Hage & Hscale & _).
      split.
      + destruct (isFading p) eqn:Ef; [right | left; reflexivity].
        destruct (Hscale eq_refl) as (_ & Hge & _). exact Hge.
      + exists p'. rewrite Es'. cbn. auto.
    - left. apply particle_body_removed in Hb. destruct Hb as [Hf Hlt].
      split; [exact Hf | split; [exact Hlt |]].
      rewrite Es'. cbn. apply elem_of_app. left. exact Hr. }
  split.
  { intros a p. apply particle_body_age. }
  split.
  { intros p' Hp'. rewrite Es' in Hp'. cbn in Hp'.
    destruct (Steps_kept_from _ _ _ _ p' HS Hp') as (p & Hp & Hb).
    apply particle_body_kept in Hb.
    destruct Hb as (Hpid & Hfad & Hage & _).
    exists p. auto. }
  split; [apply scheduler_particles |].
  split; [intros Hst p Hp Hf; exact (allParticlesStopped_slow M cfg s1 p Hst Hp Hf) |].
  intros n. split; [apply init_MAX_AGE |].
  split; [rewrite animate_MAX_AGE; exact Ha | intros es; apply run_MAX_AGE].
Qed.

Lemma C10_removed_only_when_faded_witness :
  exists s',
    animate Math0 GRID3 0 (frame_at 533.2 no_hit) one_fading = Ok s'
    /\ (forall p', p' ∈ particles s' ->
          exists p, p ∈ particles one_fading /\ pid p' = pid p
            /\ isFading p' = isFading p /\ age p' = S (age p))
    /\ forall n,
         animate Math0 (with_MAX_AGE n GRID3) 0 (frame_at 533.2 no_hit)
           one_fading = Ok s'.
Proof.
  assert (H : match animate Math0 GRID3 0 (frame_at 533.2 no_hit) one_fading
              with Ok _ => True | Fail _ => False end)
    by (vm_compute; exact I).
  apply Ok_match in H. destruct H as (s' & Ha & _).
  exists s'. split; [exact Ha |].
  pose proof (C10_removed_only_when_faded Math0 GRID3 0
                (frame_at 533.2 no_hit) one_fading
                (tick_clock (frame_at 533.2 no_hit) one_fading) s' Ha
                eq_refl) as (_ & _ & _ & Hfrom & _ & _ & Hmax).
  split; [exact Hfrom | intros n; exact (proj1 (proj2 (Hmax n)))].
Defined.

(** * Properties of the rest of the component *)

(** ** Lemmas *)

(** ** Range of the height field *)

Lemma fractional_part (x : Q) : 0 <= x - Math_floor x < 1.
Proof.
  unfold Math_floor.
  pose proof (Qfloor_le x) as H1. pose proof (Qlt_floor x) as H2.
  rewrite inject_Z_plus in H2. change (inject_Z 1) with 1 in H2.
  split; lra.
Qed.

(** A bilinear blend of four numbers lies between any bounds of
    them. *)
Lemma blend_bounds (u w a b c d lo hi : Q) :
  0 <= u <= 1 -> 0 <= w <= 1 ->
  lo <= a <= hi -> lo <= b <= hi -> lo <= c <= hi -> lo <= d <= hi ->
  lo <= (1 - u) * (1 - w) * a + u * (1 - w) * b
        + (1 - u) * w * c + u * w * d <= hi.
Proof.
  intros [Hu0 Hu1] [Hw0 Hw1] [Ha0 Ha1] [Hb0 Hb1] [Hc0 Hc1] [Hd0 Hd1].
  assert (W1 : 0 <= (1 - u) * (1 - w)) by (apply Qmult_le_0_compat; lra).
  assert (W2 : 0 <= u * (1 - w)) by (apply Qmult_le_0_compat; lra).
  assert (W3 : 0 <= (1 - u) * w) by (apply Qmult_le_0_compat; lra).
  assert (W4 : 0 <= u * w) by (apply Qmult_le_0_compat; lra).
  assert (L1 : 0 <= (1 - u) * (1 - w) * (a - lo)) by (apply Qmult_le_0_compat; lra).
  assert (L2 : 0 <= u * (1 - w) * (b - lo)) by (apply Qmult_le_0_compat; lra).
  assert (L3 : 0 <= (1 - u) * w * (c - lo)) by (apply Qmult_le_0_compat; lra).
  assert (L4 : 0 <= u * w * (d - lo)) by (apply Qmult_le_0_compat; lra).
  assert (U1 : 0 <= (1 - u) * (1 - w) * (hi - a)) by (apply Qmult_le_0_compat; lra).
  assert (U2 : 0 <= u * (1 - w) * (hi - b)) by (apply Qmult_le_0_compat; lra).
  assert (U3 : 0 <= (1 - u) * w * (hi - c)) by (apply Qmult_le_0_compat; lra).
  assert (U4 : 0 <= u * w * (hi - d)) by (apply Qmult_le_0_compat; lra).
  split; lra.
Qed.

Lemma smoothstep_range (f : Q) : 0 <= f <= 1 -> 0 <= f * f * (3 - 2 * f) <= 1.
Proof.
  intros [H0 H1]. split.
  - apply Qmult_le_0_compat; [apply Qmult_le_0_compat; lra | lra].
  - assert (E : 1 - f * f * (3 - 2 * f) == (1 - f) * (1 - f) * (1 + 2 * f)) by ring.
    assert (H : 0 <= (1 - f) * (1 - f) * (1 + 2 * f))
      by (apply Qmult_le_0_compat; [apply Qmult_le_0_compat; lra | lra]).
    lra.
Qed.

Section HeightRange.
Variable M : JSMath.
Variable T : TerrainConfig.

Lemma hash_range (px pz : Q) : 0 <= hash M T px pz < 1.
Proof. unfold hash. apply fractional_part. Qed.

Lemma noise_range (tx tz : Q) : 0 <= noise M T tx tz < 1.
Proof.
  unfold noise, MathUtils.lerp.
  set (ix := Math_floor tx). set (iz := Math_floor tz).
  pose proof (hash_range ix iz) as Ha.
  pose proof (hash_range (ix + 1) iz) as Hb.
  pose proof (hash_range ix (iz + 1)) as Hc.
  pose proof (hash_range (ix + 1) (iz + 1)) as Hd.
  set (a := hash M T ix iz) in *. set (b := hash M T (ix + 1) iz) in *.
  set (c := hash M T ix (iz + 1)) in *. set (d := hash M T (ix + 1) (iz + 1)) in *.
  pose proof (fractional_part tx) as Hfx. pose proof (fractional_part tz) as Hfz.
  fold ix in Hfx. fold iz in Hfz.
  assert (Hux : 0 <= (tx - ix) * (tx - ix) * (3 - 2 * (tx - ix)) <= 1)
    by (apply smoothstep_range; lra).
  assert (Huz : 0 <= (tz - iz) * (tz - iz) * (3 - 2 * (tz - iz)) <= 1)
    by (apply smoothstep_range; lra).
  set (ux := (tx - ix) * (tx - ix) * (3 - 2 * (tx - ix))) in *.
  set (uz := (tz - iz) * (tz - iz) * (3 - 2 * (tz - iz))) in *.
  assert (E : (1 - ux) * a + ux * b + (c - a) * uz * (1 - ux) + (d - b) * ux * uz
              == (1 - ux) * (1 - uz) * a + ux * (1 - uz) * b
                 + (1 - ux) * uz * c + ux * uz * d) by ring.
  rewrite E.
  set (hi := Math_max (Math_max a b) (Math_max c d)).
  assert (Hhi : hi < 1 /\ a <= hi /\ b <= hi /\ c <= hi /\ d <= hi).
  { subst hi.
    destruct (Math_max_spec a b) as [[H1 ->] | [H1 ->]];
    destruct (Math_max_spec c d) as [[H2 ->] | [H2 ->]];
    match goal with |- Math_max ?p ?q < 1 /\ _ =>
      destruct (Math_max_spec p q) as [[H3 ->] | [H3 ->]] end;
    repeat split; lra. }
  destruct Hhi as (Hlt & A & B & C & D).
  pose proof (blend_bounds ux uz a b c d 0 hi Hux Huz) as HB.
  destruct HB as [L U]; split; lra.
Qed.

(** At the points of the integer lattice the noise is the hash. *)
Lemma noise_lattice (i j : Z) :
  noise M T (inject_Z i) (inject_Z j) == hash M T (inject_Z i) (inject_Z j).
Proof.
  unfold noise, MathUtils.lerp, Math_floor. rewrite !Qfloor_Z. ring.
Qed.

End HeightRange.

Section HeightBounds.
Variable M : JSMath.
Variable T : TerrainConfig.
Hypothesis pow_unit : forall n, 0 <= n <= 1 -> 0 <= Math_pow M n 3.0 <= 1.

Lemma ridged_range (n : Q) :
  0 <= n <= 1 -> 0 <= 1.0 - Math_abs (n * 2.0 - 1.0) <= 1.
Proof.
  intros [H0 H1]. unfold Math_abs.
  assert (Ha : Qabs (n * 2.0 - 1.0) <= 1) by (apply Qabs_Qle_condition; split; lra).
  pose proof (Qabs_nonneg (n * 2.0 - 1.0)) as Hb.
  split; lra.
Qed.

Lemma octaves_range (k : nat) :
  forall x z h amp freq, 0 <= amp ->
    h <= octaves M T k x z h amp freq <= h + octave_total k amp.
Proof.
  induction k as [| k IH]; intros x z h amp freq Hamp; cbn [octaves octave_total].
  - split; lra.
  - pose proof (noise_range M T (x * freq) (z * freq)) as Hn.
    assert (Hr : 0 <= 1.0 - Math_abs (noise M T (x * freq) (z * freq) * 2.0 - 1.0) <= 1)
      by (apply ridged_range; lra).
    apply pow_unit in Hr.
    set (n := Math_pow M _ 3.0) in *.
    assert (Hamp' : 0 <= amp * 0.55) by lra.
    destruct (IH x z (h + n * amp) (amp * 0.55) (freq * 2.1) Hamp') as [L U].
    assert (Hna : 0 <= n * amp) by (apply Qmult_le_0_compat; lra).
    assert (Hna' : n * amp <= amp) by nra.
    split; lra.
Qed.

Lemma lossFunction_range_lemma (x z : Q) :
  0 <= HEIGHT_MULTIPLIER T ->
  -12 * HEIGHT_MULTIPLIER T <= lossFunction M T x z
  <= 47.090675 * HEIGHT_MULTIPLIER T.
Proof.
  intros HM. unfold lossFunction.
  destruct (octaves_range 5 x z 0 28.0 (GLOBAL_SCALE T * 0.5)) as [L U]; [lra |].
  assert (E : octave_total 5 28.0 == 59.090675) by (vm_compute; reflexivity).
  rewrite E in U.
  set (h := octaves M T 5 x z 0 28.0 (GLOBAL_SCALE T * 0.5)) in *.
  split; nra.
Qed.

End HeightBounds.

Lemma Qnat_le (n m : nat) : (n <= m)%nat -> Qnat n <= Qnat m.
Proof. intros H. unfold Qnat. rewrite <- Zle_Qle. lia. Qed.

Lemma Qnat_nonneg (n : nat) : 0 <= Qnat n.
Proof. unfold Qnat. rewrite <- (Zle_Qle 0). lia. Qed.

Lemma aget_nat (a : list Q) (n : nat) : aget a (Z.of_nat n) = a !! n.
Proof.
  unfold aget. destruct (Z.ltb_spec (Z.of_nat n) 0) as [H | _]; [lia |].
  rewrite Nat2Z.id. reflexivity.
Qed.

Lemma aget_elem (a : list Q) (i : Z) (v : Q) : aget a i = Some v -> v ∈ a.
Proof.
  unfold aget. destruct (i <? 0)%Z; [discriminate |].
  apply list_elem_of_lookup_2.
Qed.

Section Nodes.
Variable cfg : VisualConfig.

Let R := GRADIENT_MAP_RESOLUTION (PHYSICS cfg).
Let G := GRADIENT_MAP_CONFIG cfg.

Lemma grid_x_cell (ix : nat) :
  0 < WIDTH (TERRAIN cfg) -> (2 <= R)%nat ->
  grid_x cfg (cell_x cfg ix) == Qnat ix.
Proof.
  intros HW HR. unfold grid_x, cell_x, build_stepX.
  cbn [GRADIENT_MAP_CONFIG RESOLUTION MIN_X MAX_X]. fold R.
  assert (HRq : 1 <= Qnat R - 1).
  { rewrite (Qnat_minus_Z R 1%Z). rewrite <- (Zle_Qle 1). lia. }
  field. split; lra.
Qed.

Lemma grid_z_cell (iz : nat) :
  0 < DEPTH (TERRAIN cfg) -> (2 <= R)%nat ->
  grid_z cfg (cell_z cfg iz) == Qnat iz.
Proof.
  intros HW HR. unfold grid_z, cell_z, build_stepZ.
  cbn [GRADIENT_MAP_CONFIG RESOLUTION MIN_Z MAX_Z]. fold R.
  assert (HRq : 1 <= Qnat R - 1).
  { rewrite (Qnat_minus_Z R 1%Z). rewrite <- (Zle_Qle 1). lia. }
  field. split; lra.
Qed.

(** The lower cell index of a grid coordinate in the grid and its
    weight. *)
Lemma cell0_spec (g : Q) :
  (2 <= R)%nat -> 0 <= g <= Qnat R - 1 ->
  let x0 := cell0 cfg g in
  (0 <= x0 <= Z.of_nat R - 2)%Z /\ 0 <= g - inject_Z x0 <= 1.
Proof.
  intros HR [Hg0 Hg1] x0. split; [apply cell0_bounds, HR |].
  subst x0. unfold cell0, MathUtils.clamp.
  cbn [GRADIENT_MAP_CONFIG RESOLUTION]. fold R.
  destruct (Math_min_spec (Qnat R - 2) g) as [[H1 ->] | [H1 ->]].
  - assert (H2 : 0 <= Qnat R - 2).
    { rewrite (Qnat_minus_Z R 2%Z). rewrite <- (Zle_Qle 0). lia. }
    destruct (Math_max_spec 0 (Qnat R - 2)) as [[_ ->] | [H3 _]]; [| lra].
    assert (E : inject_Z (Qfloor (Qnat R - 2)) == Qnat R - 2).
    { change (Qnat R - 2) with (Qnat R - inject_Z 2).
      rewrite (Qfloor_comp _ _ (Qnat_minus_Z R 2%Z)), Qfloor_Z.
      symmetry. apply (Qnat_minus_Z R 2%Z). }
    rewrite E. split; lra.
  - destruct (Math_max_spec 0 g) as [[_ ->] | [H3 _]]; [| lra].
    pose proof (fractional_part g) as Hf. unfold Math_floor in Hf.
    split; lra.
Qed.

(** Inside the grid a sample is a blend of the four cells it reads,
    with weights between 0 and 1. *)
Lemma sample_inside (a : list Q) (gx gz lo hi : Q) :
  (2 <= R)%nat -> length a = (R * R)%nat ->
  0 <= gx <= Qnat R - 1 -> 0 <= gz <= Qnat R - 1 ->
  Forall (fun v => lo <= v <= hi) a ->
  exists v,
    sample cfg (cell0 cfg gx) (cell0 cfg gz)
      (gx - inject_Z (cell0 cfg gx)) (gz - inject_Z (cell0 cfg gz)) a = Some v
    /\ lo <= v <= hi.
Proof.
  intros HR Hlen Hgx Hgz Hall.
  destruct (cell0_spec gx HR Hgx) as [Hx Htx].
  destruct (cell0_spec gz HR Hgz) as [Hz Htz].
  set (x0 := cell0 cfg gx) in *. set (z0 := cell0 cfg gz) in *.
  assert (Hin : forall i,
             i ∈ [ (z0 * Z.of_nat R + x0)%Z; (z0 * Z.of_nat R + (x0 + 1))%Z;
                   ((z0 + 1) * Z.of_nat R + x0)%Z;
                   ((z0 + 1) * Z.of_nat R + (x0 + 1))%Z ] ->
             exists v, aget a i = Some v /\ lo <= v <= hi).
  { intros i Hi.
    destruct (aget_in_range cfg a i) as [v Hv].
    - rewrite Hlen. pose proof (sample_reads_inside cfg x0 z0 i HR Hx Hz Hi). lia.
    - exists v. split; [exact Hv |].
      rewrite Forall_forall in Hall. apply Hall. eapply aget_elem, Hv. }
  destruct (Hin (z0 * Z.of_nat R + x0)%Z) as (v00 & E00 & B00); [in_list |].
  destruct (Hin (z0 * Z.of_nat R + (x0 + 1))%Z) as (v10 & E10 & B10); [in_list |].
  destruct (Hin ((z0 + 1) * Z.of_nat R + x0)%Z) as (v01 & E01 & B01); [in_list |].
  destruct (Hin ((z0 + 1) * Z.of_nat R + (x0 + 1))%Z) as (v11 & E11 & B11);
    [in_list |].
  eexists. split.
  - apply (sample_reads cfg x0 z0 _ _ a v00 v10 v01 v11); assumption.
  - apply blend_bounds; assumption.
Qed.

Lemma grid_x_inside (x : Q) :
  0 < WIDTH (TERRAIN cfg) -> (2 <= R)%nat ->
  MIN_X G <= x <= MAX_X G -> 0 <= grid_x cfg x <= Qnat R - 1.
Proof.
  intros HW HR. unfold grid_x. subst G.
  cbn [GRADIENT_MAP_CONFIG RESOLUTION MIN_X MAX_X]. fold R.
  intros [H0 H1].
  assert (HRq : 1 <= Qnat R - 1).
  { rewrite (Qnat_minus_Z R 1%Z). rewrite <- (Zle_Qle 1). lia. }
  set (w := WIDTH (TERRAIN cfg)) in *.
  assert (E : w / 2 - - w / 2 == w) by (field).
  assert (Hf : 0 <= (x - - w / 2) / (w / 2 - - w / 2) <= 1).
  { rewrite E. split.
    - apply Qle_shift_div_l; [exact HW | lra].
    - apply Qle_shift_div_r; [exact HW | lra]. }
  set (f := (x - - w / 2) / (w / 2 - - w / 2)) in *.
  split; [apply Qmult_le_0_compat; lra | nra].
Qed.

Lemma grid_z_inside (z : Q) :
  0 < DEPTH (TERRAIN cfg) -> (2 <= R)%nat ->
  MIN_Z G <= z <= MAX_Z G -> 0 <= grid_z cfg z <= Qnat R - 1.
Proof.
  intros HW HR. unfold grid_z. subst G.
  cbn [GRADIENT_MAP_CONFIG RESOLUTION MIN_Z MAX_Z]. fold R.
  intros [H0 H1].
  assert (HRq : 1 <= Qnat R - 1).
  { rewrite (Qnat_minus_Z R 1%Z). rewrite <- (Zle_Qle 1). lia. }
  set (w := DEPTH (TERRAIN cfg)) in *.
  assert (E : w / 2 - - w / 2 == w) by (field).
  assert (Hf : 0 <= (z - - w / 2) / (w / 2 - - w / 2) <= 1).
  { rewrite E. split.
    - apply Qle_shift_div_l; [exact HW | lra].
    - apply Qle_shift_div_r; [exact HW | lra]. }
  set (f := (z - - w / 2) / (w / 2 - - w / 2)) in *.
  split; [apply Qmult_le_0_compat; lra | nra].
Qed.

End Nodes.

Lemma gradient_inside (cfg : VisualConfig) (map : GradientMap)
    (x z lo hi : Q) :
  let G := GRADIENT_MAP_CONFIG cfg in
  0 < WIDTH (TERRAIN cfg) -> 0 < DEPTH (TERRAIN cfg) ->
  (2 <= RESOLUTION G)%nat -> well_formed_map cfg map ->
  MIN_X G <= x <= MAX_X G -> MIN_Z G <= z <= MAX_Z G ->
  let tx := grid_x cfg x - inject_Z (cell0 cfg (grid_x cfg x)) in
  let tz := grid_z cfg z - inject_Z (cell0 cfg (grid_z cfg z)) in
  0 <= tx <= 1 /\ 0 <= tz <= 1
  /\ (Forall (fun v => lo <= v <= hi) (dxMap map) ->
      exists g, gradient cfg (Some map) x z = Some g /\ lo <= dx g <= hi)
  /\ (Forall (fun v => lo <= v <= hi) (dzMap map) ->
      exists g, gradient cfg (Some map) x z = Some g /\ lo <= dz g <= hi).
Proof.
  intros G HW HD HR [Lx Lz] Hx Hz tx tz.
  pose proof (grid_x_inside cfg x HW HR Hx) as Hgx.
  pose proof (grid_z_inside cfg z HD HR Hz) as Hgz.
  split; [exact (proj2 (cell0_spec cfg _ HR Hgx)) |].
  split; [exact (proj2 (cell0_spec cfg _ HR Hgz)) |].
  destruct (gradient_defined cfg map x z HR (conj Lx Lz)) as [g Hg].
  split; intros Hall.
  - destruct (sample_inside cfg (dxMap map) _ _ lo hi HR Lx Hgx Hgz Hall)
      as (v & Hv & Hb).
    exists g. split; [exact Hg |].
    unfold gradient in Hg. rewrite Hv in Hg. cbn in Hg.
    destruct (sample cfg _ _ _ _ (dzMap map)); cbn in Hg; [| discriminate].
    injection Hg as <-. exact Hb.
  - destruct (sample_inside cfg (dzMap map) _ _ lo hi HR Lz Hgx Hgz Hall)
      as (v & Hv & Hb).
    exists g. split; [exact Hg |].
    unfold gradient in Hg. rewrite Hv in Hg.
    destruct (sample cfg _ _ _ _ (dxMap map)); cbn in Hg; [| discriminate].
    injection Hg as <-. exact Hb.
Qed.

Section NodeSamples.
Variable cfg : VisualConfig.

Let R := GRADIENT_MAP_RESOLUTION (PHYSICS cfg).

Lemma cell0_node (g : Q) (ix : nat) :
  (2 <= R)%nat -> (ix < R)%nat -> g == Qnat ix ->
  cell0 cfg g = Z.min (Z.of_nat ix) (Z.of_nat R - 2).
Proof.
  intros HR Hix Hg. unfold cell0, MathUtils.clamp.
  cbn [GRADIENT_MAP_CONFIG RESOLUTION]. fold R.
  assert (EQ : Qnat R - 2 == inject_Z (Z.of_nat R - 2))
    by exact (Qnat_minus_Z R 2%Z).
  assert (H2 : 0 <= Qnat R - 2).
  { rewrite (Qnat_minus_Z R 2%Z). rewrite <- (Zle_Qle 0). lia. }
  destruct (Math_min_spec (Qnat R - 2) g) as [[H1 ->] | [H1 ->]].
  - destruct (Math_max_spec 0 (Qnat R - 2)) as [[_ ->] | [H3 _]]; [| lra].
    rewrite (Qfloor_comp _ _ EQ), Qfloor_Z.
    rewrite Hg, EQ in H1. unfold Qnat in H1. rewrite <- Zle_Qle in H1. lia.
  - assert (H0 : 0 <= g) by (pose proof (Qnat_nonneg ix); lra).
    destruct (Math_max_spec 0 g) as [[_ ->] | [H3 _]]; [| lra].
    rewrite (Qfloor_comp _ _ Hg). unfold Qnat. rewrite Qfloor_Z.
    rewrite Hg, EQ in H1. unfold Qnat in H1. rewrite <- Zlt_Qlt in H1. lia.
Qed.

(** At a node the sample is the entry of the node. *)
Lemma sample_at_node (a : list Q) (gx gz : Q) (ix iz : nat) :
  (2 <= R)%nat -> length a = (R * R)%nat ->
  (ix < R)%nat -> (iz < R)%nat -> gx == Qnat ix -> gz == Qnat iz ->
  exists v w,
    sample cfg (cell0 cfg gx) (cell0 cfg gz)
      (gx - inject_Z (cell0 cfg gx)) (gz - inject_Z (cell0 cfg gz)) a = Some v
    /\ a !! (iz * R + ix)%nat = Some w /\ v == w.
Proof.
  intros HR Hlen Hix Hiz Hgx Hgz.
  rewrite (cell0_node gx ix HR Hix Hgx), (cell0_node gz iz HR Hiz Hgz).
  set (x0 := Z.min (Z.of_nat ix) (Z.of_nat R - 2)).
  set (z0 := Z.min (Z.of_nat iz) (Z.of_nat R - 2)).
  assert (Hx : (0 <= x0 <= Z.of_nat R - 2)%Z) by (subst x0; lia).
  assert (Hz : (0 <= z0 <= Z.of_nat R - 2)%Z) by (subst z0; lia).
  assert (Hin : forall i,
             i ∈ [ (z0 * Z.of_nat R + x0)%Z; (z0 * Z.of_nat R + (x0 + 1))%Z;
                   ((z0 + 1) * Z.of_nat R + x0)%Z;
                   ((z0 + 1) * Z.of_nat R + (x0 + 1))%Z ] ->
             exists v, aget a i = Some v).
  { intros i Hi. apply (aget_in_range cfg). rewrite Hlen.
    pose proof (sample_reads_inside cfg x0 z0 i HR Hx Hz Hi). lia. }
  destruct (Hin (z0 * Z.of_nat R + x0)%Z) as (v00 & E00); [in_list |].
  destruct (Hin (z0 * Z.of_nat R + (x0 + 1))%Z) as (v10 & E10); [in_list |].
  destruct (Hin ((z0 + 1) * Z.of_nat R + x0)%Z) as (v01 & E01); [in_list |].
  destruct (Hin ((z0 + 1) * Z.of_nat R + (x0 + 1))%Z) as (v11 & E11);
    [in_list |].
  rewrite (sample_reads cfg x0 z0 _ _ a v00 v10 v01 v11 E00 E10 E01 E11).
  rewrite <- aget_nat.
  assert (Ei : Z.of_nat (iz * R + ix) = (Z.of_nat iz * Z.of_nat R + Z.of_nat ix)%Z)
    by lia.
  rewrite Ei.
  assert (Cx : (Z.of_nat ix = x0 \/ Z.of_nat ix = x0 + 1)%Z) by (subst x0; lia).
  assert (Cz : (Z.of_nat iz = z0 \/ Z.of_nat iz = z0 + 1)%Z) by (subst z0; lia).
  assert (Tx : forall d, Z.of_nat ix = (x0 + d)%Z -> gx - inject_Z x0 == inject_Z d).
  { intros d E. rewrite Hgx. unfold Qnat. rewrite E, inject_Z_plus. ring. }
  assert (Tz : forall d, Z.of_nat iz = (z0 + d)%Z -> gz - inject_Z z0 == inject_Z d).
  { intros d E. rewrite Hgz. unfold Qnat. rewrite E, inject_Z_plus. ring. }
  clearbody x0 z0.
  destruct Cx as [Cx | Cx], Cz as [Cz | Cz]; rewrite Cx, Cz.
  - eexists; exists v00. split; [reflexivity | split; [exact E00 |]].
    rewrite (Tx 0%Z), (Tz 0%Z) by lia. change (inject_Z 0) with 0. ring.
  - eexists; exists v01. split; [reflexivity | split; [exact E01 |]].
    rewrite (Tx 0%Z), (Tz 1%Z) by lia.
    change (inject_Z 0) with 0. change (inject_Z 1) with 1. ring.
  - eexists; exists v10. split; [reflexivity | split; [exact E10 |]].
    rewrite (Tx 1%Z), (Tz 0%Z) by lia.
    change (inject_Z 0) with 0. change (inject_Z 1) with 1. ring.
  - eexists; exists v11. split; [reflexivity | split; [exact E11 |]].
    rewrite (Tx 1%Z), (Tz 1%Z) by lia. change (inject_Z 1) with 1. ring.
Qed.

End NodeSamples.

(** At a node of the grid [gradient] returns what [buildGradientMap]
    has stored for the node. *)
Lemma node_round_trip (M : JSMath) (cfg : VisualConfig)
    (ix iz : nat) :
  let R := GRADIENT_MAP_RESOLUTION (PHYSICS cfg) in
  0 < WIDTH (TERRAIN cfg) -> 0 < DEPTH (TERRAIN cfg) -> (2 <= R)%nat ->
  (ix < R)%nat -> (iz < R)%nat ->
  exists g,
    gradient cfg (Some (buildGradientMap M cfg)) (cell_x cfg ix) (cell_z cfg iz)
    = Some g
    /\ dx g == finite_or_zero M (central_dx M cfg (cell_x cfg ix) (cell_z cfg iz))
    /\ dz g == finite_or_zero M (central_dz M cfg (cell_x cfg ix) (cell_z cfg iz)).
Proof.
  intros R HW HD HR Hix Hiz.
  destruct (buildGradientMap_length M cfg) as [Lx Lz].
  destruct (buildGradientMap_fill M cfg) as [Fx Fz].
  pose proof (grid_x_cell cfg ix HW HR) as Hgx.
  pose proof (grid_z_cell cfg iz HD HR) as Hgz.
  destruct (sample_at_node cfg _ _ _ ix iz HR Lx Hix Hiz Hgx Hgz)
    as (vx & wx & Sx & Ex & Qx).
  destruct (sample_at_node cfg _ _ _ ix iz HR Lz Hix Hiz Hgx Hgz)
    as (vz & wz & Sz & Ez & Qz).
  exists {| dx := vx; dz := vz |}. split.
  - unfold gradient. rewrite Sx, Sz. reflexivity.
  - cbn [dx dz]. fold R in Ex, Ez.
    rewrite Fx in Ex. rewrite Fz in Ez. fold R in Ex, Ez.
    rewrite fill_rows_written in Ex, Ez;
      try assumption; try (rewrite length_replicate; apply Nat.le_refl).
    injection Ex as <-. injection Ez as <-.
    split; assumption.
Qed.

Lemma Math_PI_pos : 0 < Math_PI / 180.
Proof. apply Qltb_lt. reflexivity. Qed.

Lemma clamp_between (lo hi v : Q) :
  lo <= hi -> lo <= Math_max lo (Math_min hi v) <= hi.
Proof. intros H. exact (clamp_bounds v lo hi H). Qed.

Lemma clamp_Qeq (lo hi v v' : Q) :
  v == v' -> Math_max lo (Math_min hi v) == Math_max lo (Math_min hi v').
Proof.
  intros E.
  destruct (Math_min_spec hi v) as [[H1 ->] | [H1 ->]];
    destruct (Math_min_spec hi v') as [[H2 ->] | [H2 ->]];
    try reflexivity; try lra.
  - destruct (Math_max_spec lo v) as [[H3 ->] | [H3 ->]];
      destruct (Math_max_spec lo v') as [[H4 ->] | [H4 ->]];
      try reflexivity; try lra; try assumption.
Qed.

Section PointerProps.
Variable C : CameraConfig.

Hypothesis limits_nonneg :
  0 <= LEFT (LIMITS C) /\ 0 <= RIGHT (LIMITS C)
  /\ 0 <= UP (LIMITS C) /\ 0 <= DOWN (LIMITS C).

Lemma drag_in_limits (clientX clientY : Q) (rect : Rect) (c : Controls) :
  isMiddleClickDown c = true ->
  in_limits C (handleMouseMove C clientX clientY rect c).
Proof.
  intros Hd. unfold handleMouseMove, in_limits. rewrite Hd. cbn [yaw pitch].
  destruct limits_nonneg as (HL & HR & HU & HD).
  pose proof Math_PI_pos as Hpi.
  split; apply clamp_between.
  - assert (0 <= LEFT (LIMITS C) * (Math_PI / 180)) by (apply Qmult_le_0_compat; lra).
    assert (0 <= RIGHT (LIMITS C) * (Math_PI / 180)) by (apply Qmult_le_0_compat; lra).
    lra.
  - assert (0 <= UP (LIMITS C) * (Math_PI / 180)) by (apply Qmult_le_0_compat; lra).
    assert (0 <= DOWN (LIMITS C) * (Math_PI / 180)) by (apply Qmult_le_0_compat; lra).
    lra.
Qed.

Lemma dispatch_in_limits (e : PointerEvent) (c : Controls) :
  in_limits C c -> in_limits C (dispatch C e c).
Proof.
  intros H. destruct e as [x y rect | button x y | button]; cbn [dispatch].
  - destruct (isMiddleClickDown c) eqn:Hd.
    + apply drag_in_limits, Hd.
    + unfold handleMouseMove. rewrite Hd. exact H.
  - unfold handleMouseDown. destruct (button =? 1)%Z; exact H.
  - unfold handleMouseUp. destruct (button =? 1)%Z; exact H.
Qed.

Lemma dispatch_all_in_limits (es : list PointerEvent) :
  forall c, in_limits C c -> in_limits C (dispatch_all C es c).
Proof.
  unfold dispatch_all.
  induction es as [| e es IH]; intros c H; [exact H |].
  cbn [foldl]. apply IH, dispatch_in_limits, H.
Qed.

End PointerProps.

Section PointerProps2.
Variable C : CameraConfig.

Lemma no_drag_no_turn (es : list PointerEvent) :
  forall c, isMiddleClickDown c = false ->
    Forall (fun e => starts_drag e = false) es ->
    yaw (dispatch_all C es c) = yaw c
    /\ pitch (dispatch_all C es c) = pitch c
    /\ isMiddleClickDown (dispatch_all C es c) = false.
Proof.
  unfold dispatch_all.
  induction es as [| e es IH]; intros c Hd Hall; [auto |].
  apply Forall_cons in Hall. destruct Hall as [He Hes].
  cbn [foldl].
  assert (H1 : yaw (dispatch C e c) = yaw c /\ pitch (dispatch C e c) = pitch c
               /\ isMiddleClickDown (dispatch C e c) = false).
  { destruct e as [x y rect | button x y | button]; cbn [dispatch].
    - unfold handleMouseMove. rewrite Hd. auto.
    - cbn in He. unfold handleMouseDown. rewrite He. auto.
    - unfold handleMouseUp. destruct (button =? 1)%Z; auto. }
  destruct H1 as (Ey & Ep & Ed).
  destruct (IH (dispatch C e c) Ed Hes) as (Ey' & Ep' & Ed').
  rewrite Ey', Ep'. auto.
Qed.

Lemma mouse_normalised (clientX clientY : Q) (rect : Rect) (c : Controls) :
  0 < rect_width rect -> 0 < rect_height rect ->
  inside clientX clientY rect ->
  let m := mouse (handleMouseMove C clientX clientY rect c) in
  -1 <= fst m <= 1 /\ -1 <= snd m <= 1
  /\ (clientX == rect_left rect -> fst m == -1)
  /\ (clientX == rect_left rect + rect_width rect -> fst m == 1)
  /\ (clientY == rect_top rect -> snd m == 1)
  /\ (clientY == rect_top rect + rect_height rect -> snd m == -1).
Proof.
  intros Hw Hh [[Hx0 Hx1] [Hy0 Hy1]] m.
  assert (Em : m = (((clientX - rect_left rect) / rect_width rect) * 2 - 1,
                    - ((clientY - rect_top rect) / rect_height rect) * 2 + 1)).
  { subst m. unfold handleMouseMove. destruct (isMiddleClickDown c); reflexivity. }
  rewrite Em. cbn [fst snd].
  assert (Fx : 0 <= (clientX - rect_left rect) / rect_width rect <= 1).
  { split; [apply Qle_shift_div_l | apply Qle_shift_div_r]; lra. }
  assert (Fy : 0 <= (clientY - rect_top rect) / rect_height rect <= 1).
  { split; [apply Qle_shift_div_l | apply Qle_shift_div_r]; lra. }
  split; [lra |]. split; [lra |].
  split; [| split; [| split]]; intros E.
  - assert (E' : (clientX - rect_left rect) / rect_width rect == 0)
      by (rewrite E; field; lra).
    rewrite E'. ring.
  - assert (E' : (clientX - rect_left rect) / rect_width rect == 1)
      by (rewrite E; field; lra).
    rewrite E'. ring.
  - assert (E' : (clientY - rect_top rect) / rect_height rect == 0)
      by (rewrite E; field; lra).
    rewrite E'. ring.
  - assert (E' : (clientY - rect_top rect) / rect_height rect == 1)
      by (rewrite E; field; lra).
    rewrite E'. ring.
Qed.

(** Two moves of a drag against one. *)
Lemma drag_composes (x1 y1 x2 y2 : Q) (r1 r2 : Rect) (c : Controls) :
  isMiddleClickDown c = true ->
  let newYaw := yaw c - (x1 - fst (lastMousePos c)) * RELATIVE_SENSITIVITY_X C in
  let newPitch := pitch c - (y1 - snd (lastMousePos c)) * RELATIVE_SENSITIVITY_Y C in
  - LEFT (LIMITS C) * (Math_PI / 180) <= newYaw <= RIGHT (LIMITS C) * (Math_PI / 180) ->
  - DOWN (LIMITS C) * (Math_PI / 180) <= newPitch <= UP (LIMITS C) * (Math_PI / 180) ->
  let two := handleMouseMove C x2 y2 r2 (handleMouseMove C x1 y1 r1 c) in
  let one := handleMouseMove C x2 y2 r2 c in
  yaw two == yaw one /\ pitch two == pitch one
  /\ mouse two = mouse one /\ lastMousePos two = lastMousePos one.
Proof.
  intros Hd newYaw newPitch [Hy0 Hy1] [Hp0 Hp1] two one.
  subst two one. unfold handleMouseMove. rewrite Hd.
  cbn [isMiddleClickDown yaw pitch lastMousePos mouse fst snd].
  fold newYaw. fold newPitch.
  assert (E1 : Math_max (- LEFT (LIMITS C) * (Math_PI / 180))
                 (Math_min (RIGHT (LIMITS C) * (Math_PI / 180)) newYaw) == newYaw)
    by (apply (clamp_inside newYaw); split; assumption).
  assert (E2 : Math_max (- DOWN (LIMITS C) * (Math_PI / 180))
                 (Math_min (UP (LIMITS C) * (Math_PI / 180)) newPitch) == newPitch)
    by (apply (clamp_inside newPitch); split; assumption).
  split; [| split; [| split; reflexivity]].
  - apply clamp_Qeq. rewrite E1. subst newYaw. ring.
  - apply clamp_Qeq. rewrite E2. subst newPitch. ring.
Qed.

(** The camera block. *)
Lemma smooth_mouse_between (frameScale : Q) (c : Controls) :
  0 <= MOUSE_SMOOTHING C * frameScale <= 1 ->
  -1 <= fst (mouse c) <= 1 -> -1 <= snd (mouse c) <= 1 ->
  -1 <= fst (smoothMouse c) <= 1 -> -1 <= snd (smoothMouse c) <= 1 ->
  let s := smooth_mouse C frameScale c in
  -1 <= fst s <= 1 /\ -1 <= snd s <= 1.
Proof.
  intros [Hk0 Hk1] Hmx Hmy Hsx Hsy s. subst s. unfold smooth_mouse.
  destruct (isMiddleClickDown c); [| split; assumption].
  cbn [fst snd].
  set (k := MOUSE_SMOOTHING C * frameScale) in *.
  assert (Ex : fst (smoothMouse c)
               + (fst (mouse c) - fst (smoothMouse c)) * MOUSE_SMOOTHING C * frameScale
               == (1 - k) * fst (smoothMouse c) + k * fst (mouse c))
    by (subst k; ring).
  assert (Ey : snd (smoothMouse c)
               + (snd (mouse c) - snd (smoothMouse c)) * MOUSE_SMOOTHING C * frameScale
               == (1 - k) * snd (smoothMouse c) + k * snd (mouse c))
    by (subst k; ring).
  rewrite Ex, Ey. split; split; nra.
Qed.

Lemma camera_fixed (T : TerrainConfig) (smooth : Q * Q) :
  ZOOM_STEER_STRENGTH C == 0 ->
  let p := camera_position C T smooth in
  v_x p == v_x (INITIAL_POS C) /\ v_y p == v_y (INITIAL_POS C)
  /\ v_z p == DEPTH T / 2 - v_z (INITIAL_POS C).
Proof.
  intros E p. subst p. unfold camera_position. cbn [v_x v_y v_z].
  rewrite E. split; [ring | split; [ring | field]].
Qed.

End PointerProps2.

(** ** FPS counter *)

Lemma count_frames_quick (mounted : bool) (nows : list Q) :
  forall c,
    Forall (fun now => now - lastFpsUpdateTime c < 1000) nows ->
    count_frames true mounted nows c
    = {| frameCount := frameCount c + length nows;
         lastFpsUpdateTime := lastFpsUpdateTime c;
         innerText := innerText c |}.
Proof.
  unfold count_frames.
  induction nows as [| now nows IH]; intros c Hall.
  - cbn. rewrite Nat.add_0_r. destruct c; reflexivity.
  - apply Forall_cons in Hall. destruct Hall as [Hnow Hall].
    cbn [foldl]. unfold count_frame at 2.
    destruct (Qle_bool 1000 (now - lastFpsUpdateTime c)) eqn:E.
    + apply Qle_bool_iff in E. lra.
    + rewrite IH by exact Hall. cbn [frameCount lastFpsUpdateTime innerText length].
      f_equal. lia.
Qed.

Lemma count_frames_late (mounted : bool) (quick : list Q) (late : Q)
    (c : FpsCounter) :
  Forall (fun now => now - lastFpsUpdateTime c < 1000) quick ->
  1000 <= late - lastFpsUpdateTime c ->
  count_frames true mounted (quick ++ [late]) c
  = {| frameCount := 0;
       lastFpsUpdateTime := late;
       innerText := if mounted
                    then Some (frameCount c + length quick + 1)%nat
                    else innerText c |}.
Proof.
  intros Hq Hl. unfold count_frames. rewrite foldl_app. cbn [foldl].
  fold (count_frames true mounted quick c).
  rewrite count_frames_quick by exact Hq.
  unfold count_frame. cbn [frameCount lastFpsUpdateTime innerText].
  apply Qle_bool_iff in Hl. rewrite Hl.
  replace (S (frameCount c + length quick)) with (frameCount c + length quick + 1)%nat by lia.
  reflexivity.
Qed.

Lemma count_frames_hidden (mounted : bool) (nows : list Q) (c : FpsCounter) :
  count_frames false mounted nows c = c.
Proof.
  unfold count_frames. induction nows as [| now nows IH]; [reflexivity |].
  cbn [foldl]. exact IH.
Qed.

(** ** Screen coordinates *)

Lemma Math_sign_spec (x : Q) :
  (0 < x /\ Math_sign x = 1) \/ (x < 0 /\ Math_sign x = -1)
  \/ (x == 0 /\ Math_sign x = 0).
Proof.
  unfold Math_sign.
  destruct (Qltb 0 x) eqn:E1.
  - left. split; [apply Qltb_lt, E1 | reflexivity].
  - apply Qltb_ge in E1. destruct (Qltb x 0) eqn:E2.
    + right. left. split; [apply Qltb_lt, E2 | reflexivity].
    + apply Qltb_ge in E2. right. right. split; [lra | reflexivity].
Qed.

Section ScreenProps.
Variable M : JSMath.
Variable B : SpawnBias.
Hypothesis pow_x : forall n, 0 <= n <= 1 ->
  0 <= Math_pow M n (HORIZONTAL_CENTRAL_BIAS B) <= 1.
Hypothesis pow_y : forall n, 0 <= n <= 1 ->
  0 <= Math_pow M n (1 / DISTANCE_BIAS B) <= 1.

Lemma screen_range (random1 random2 : Q) :
  0 <= random1 < 1 -> 0 <= random2 < 1 ->
  -1 <= screenX M B random1 <= 1
  /\ (random1 < 0.5 -> screenX M B random1 <= 0)
  /\ (0.5 < random1 -> 0 <= screenX M B random1)
  /\ (random1 == 0.5 -> screenX M B random1 == 0)
  /\ -1 <= screenY M B random2 <= 1.
Proof.
  intros [H10 H11] [H20 H21]. unfold screenX, screenY.
  set (rawX := random1 * 2 - 1).
  assert (Ha : 0 <= Math_abs rawX <= 1).
  { unfold Math_abs. split; [apply Qabs_nonneg |].
    apply Qabs_Qle_condition. subst rawX. split; lra. }
  pose proof (pow_x _ Ha) as Hp.
  set (p := Math_pow M (Math_abs rawX) (HORIZONTAL_CENTRAL_BIAS B)) in *.
  assert (Hy : 0 <= random2 <= 1) by lra.
  pose proof (pow_y _ Hy) as Hq.
  set (q := Math_pow M random2 (1 / DISTANCE_BIAS B)) in *.
  destruct (Math_sign_spec rawX) as [[Hs ->] | [[Hs ->] | [Hs ->]]];
    subst rawX; (split; [lra |]); (split; [intros; lra |]);
    (split; [intros; lra |]); (split; [intros; lra |]); lra.
Qed.

End ScreenProps.

(** ** Dust *)

Section DustProps.
Variable M : JSMath.
Variable Math_cos : Q -> Q.
Variable T : TerrainConfig.
Variable D : DustConfig.

Lemma drift_spec (time : Q) (i : nat) (p : Vector3) :
  0 <= HEIGHT_RANGE D ->
  let p' := drift M Math_cos D time i p in
  v_z p' = v_z p /\ v_y p' <= HEIGHT_RANGE D
  /\ (HEIGHT_RANGE D < v_y p + Math_sin M (time + Qnat i) * 0.05 -> v_y p' = 0)
  /\ (v_y p + Math_sin M (time + Qnat i) * 0.05 <= HEIGHT_RANGE D ->
      v_y p' = v_y p + Math_sin M (time + Qnat i) * 0.05).
Proof.
  intros HR p'. subst p'. unfold drift. cbn [v_x v_y v_z].
  split; [reflexivity |].
  destruct (Qgtb _ (HEIGHT_RANGE D)) eqn:E.
  - apply Qgtb_gt in E. split; [| split; [reflexivity | intros; lra]].
    exact HR.
  - apply Qgtb_le in E. split; [exact E | split; [intros; lra | reflexivity]].
Qed.

End DustProps.

Lemma dust_frame (M : JSMath) (Math_cos : Q -> Q)
    (T : TerrainConfig) (D : DustConfig) (random : nat -> Q) (time : Q)
    (i : nat) :
  0 <= HEIGHT_RANGE D -> (forall a, -1 <= Math_sin M a <= 1) ->
  (i < COUNT D)%nat -> 0 <= random (6 * i + 1)%nat < 1 ->
  let ps := dustPositions T D random in
  length (animate_dust M Math_cos D time ps) = COUNT D
  /\ exists p p',
       ps !! i = Some p
       /\ animate_dust M Math_cos D time ps !! i = Some p'
       /\ MIN_HEIGHT D <= v_y p <= MIN_HEIGHT D + HEIGHT_RANGE D
       /\ v_z p' = v_z p
       /\ v_y p' <= HEIGHT_RANGE D
       /\ (HEIGHT_RANGE D + 0.05 < v_y p -> v_y p' = 0).
Proof.
  intros HR Hsin Hi Hr ps. subst ps. unfold animate_dust, dustPositions.
  split; [rewrite length_imap, length_map, length_seq; reflexivity |].
  exists (dust_position T D random i).
  exists (drift M Math_cos D time i (dust_position T D random i)).
  assert (E : map (dust_position T D random) (seq 0 (COUNT D)) !! i
              = Some (dust_position T D random i)).
  { change (map (dust_position T D random) (seq 0 (COUNT D)))
      with (dust_position T D random <$> seq 0 (COUNT D)).
    rewrite list_lookup_fmap, lookup_seq_lt by exact Hi. reflexivity. }
  split; [exact E |].
  split; [rewrite list_lookup_imap, E; reflexivity |].
  destruct (drift_spec M Math_cos D time i (dust_position T D random i) HR)
    as (Hz & Hy & Hreset & _).
  split.
  { unfold dust_position. cbn [v_y]. destruct Hr as [H0 H1]. split; nra. }
  split; [exact Hz | split; [exact Hy |]].
  intros Hhigh. apply Hreset.
  pose proof (Hsin (time + Qnat i)) as [Hs _]. lra.
Qed.

(** ** Terrain colours *)

Lemma discover_range_snoc (hs : list Q) (h : Q) :
  discover_range (hs ++ [h])
  = (if below h (fst (discover_range hs)) then Some h else fst (discover_range hs),
     if above h (snd (discover_range hs)) then Some h else snd (discover_range hs)).
Proof. unfold discover_range. rewrite foldl_app. reflexivity. Qed.

Lemma discover_range_spec (hs : list Q) :
  hs <> [] ->
  exists minH maxH,
    discover_range hs = (Some minH, Some maxH)
    /\ minH ∈ hs /\ maxH ∈ hs
    /\ forall h, h ∈ hs -> minH <= h <= maxH.
Proof.
  induction hs as [| h hs IH] using rev_ind; [congruence |]. intros _.
  rewrite discover_range_snoc.
  destruct hs as [| h0 hs0].
  - cbn. exists h, h. split; [reflexivity |].
    split; [apply list_elem_of_here | split; [apply list_elem_of_here |]].
    intros h' Hh'. apply list_elem_of_singleton in Hh'. subst h'. split; lra.
  - destruct IH as (mn & mx & E & Hmn & Hmx & Hb); [discriminate |].
    rewrite E. cbn [fst snd below above].
    pose proof (Hb mn Hmn) as [_ Hmnmx].
    destruct (Qltb h mn) eqn:E1; destruct (Qgtb h mx) eqn:E2.
    + apply Qltb_lt in E1. apply Qgtb_gt in E2. lra.
    + apply Qltb_lt in E1. apply Qgtb_le in E2.
      exists h, mx. split; [reflexivity |].
      split; [apply elem_of_app; right; apply list_elem_of_here |].
      split; [apply elem_of_app; left; exact Hmx |].
      intros h' Hh'. apply elem_of_app in Hh'. destruct Hh' as [Hh' | Hh'].
      * destruct (Hb h' Hh'). split; lra.
      * apply list_elem_of_singleton in Hh'. subst h'. split; lra.
    + apply Qltb_ge in E1. apply Qgtb_gt in E2.
      exists mn, h. split; [reflexivity |].
      split; [apply elem_of_app; left; exact Hmn |].
      split; [apply elem_of_app; right; apply list_elem_of_here |].
      intros h' Hh'. apply elem_of_app in Hh'. destruct Hh' as [Hh' | Hh'].
      * destruct (Hb h' Hh'). split; lra.
      * apply list_elem_of_singleton in Hh'. subst h'. split; lra.
    + apply Qltb_ge in E1. apply Qgtb_le in E2.
      exists mn, mx. split; [reflexivity |].
      split; [apply elem_of_app; left; exact Hmn |].
      split; [apply elem_of_app; left; exact Hmx |].
      intros h' Hh'. apply elem_of_app in Hh'. destruct Hh' as [Hh' | Hh'].
      * exact (Hb h' Hh').
      * apply list_elem_of_singleton in Hh'. subst h'. split; lra.
Qed.

Lemma height_range_spec (minH maxH : Q) :
  minH <= maxH ->
  0 < height_range minH maxH
  /\ (minH == maxH -> height_range minH maxH = 1.0)
  /\ (minH < maxH -> height_range minH maxH = maxH - minH).
Proof.
  intros H. unfold height_range.
  destruct (Qeq_bool (maxH - minH) 0) eqn:E.
  - apply Qeq_bool_iff in E. split; [reflexivity |].
    split; [reflexivity | intros; lra].
  - apply Qeq_bool_neq in E. split; [lra |].
    split; [intros; lra | reflexivity].
Qed.

Lemma normalised_heights (M : JSMath) (T : TerrainConfig)
    (positions : list (Q * Q)) :
  positions <> [] ->
  exists minH maxH,
    discover_range (vertex_heights M T positions) = (Some minH, Some maxH)
    /\ minH ∈ vertex_heights M T positions
    /\ maxH ∈ vertex_heights M T positions
    /\ 0 < height_range minH maxH
    /\ (minH == maxH -> height_range minH maxH = 1.0)
    /\ forall h, h ∈ vertex_heights M T positions ->
         minH <= h <= maxH
         /\ 0 <= normalizedHeight minH (height_range minH maxH) h <= 1
         /\ (minH == maxH -> normalizedHeight minH (height_range minH maxH) h == 0).
Proof.
  intros Hne.
  assert (Hne' : vertex_heights M T positions <> []).
  { unfold vertex_heights. destruct positions; [congruence | discriminate]. }
  destruct (discover_range_spec _ Hne') as (mn & mx & E & Hmn & Hmx & Hb).
  exists mn, mx.
  pose proof (Hb mn Hmn) as [_ Hle].
  destruct (height_range_spec mn mx Hle) as (Hpos & Hflat & Hspan).
  split; [exact E |]. split; [exact Hmn |]. split; [exact Hmx |].
  split; [exact Hpos |]. split; [exact Hflat |].
  intros h Hh. destruct (Hb h Hh) as [H0 H1]. split; [split; assumption |].
  unfold normalizedHeight. split.
  - split.
    + apply Qle_shift_div_l; [exact Hpos | lra].
    + apply Qle_shift_div_r; [exact Hpos |].
      destruct (Qlt_le_dec mn mx) as [Hlt | Hge].
      * rewrite (Hspan Hlt). lra.
      * rewrite Hflat by lra. lra.
  - intros Eq. rewrite (Hflat Eq).
    assert (E0 : h - mn == 0) by lra. rewrite E0. reflexivity.
Qed.

Lemma length_concat_3 {A : Type} (l : list (list A)) :
  Forall (fun x => length x = 3%nat) l -> length (concat l) = (3 * length l)%nat.
Proof.
  induction l as [| x l IH]; intros H; [reflexivity |].
  apply Forall_cons in H. destruct H as [Hx Hl].
  cbn [concat length]. rewrite length_app, Hx, IH by exact Hl. lia.
Qed.

Lemma terrain_colours_spec (M : JSMath) (T : TerrainConfig)
    (C : TerrainColours) (positions : list (Q * Q)) :
  length (terrain_colours M T C positions) = (3 * length positions)%nat
  /\ forall c, c ∈ terrain_colours M T C positions -> c <= 1.
Proof.
  unfold terrain_colours.
  destruct positions as [| p ps].
  - cbn. split; [reflexivity | intros c Hc; inversion Hc].
  - destruct (normalised_heights M T (p :: ps)) as (mn & mx & E & _);
      [discriminate |].
    rewrite E. split.
    + rewrite length_concat_3.
      * rewrite length_map. unfold vertex_heights. rewrite length_map. reflexivity.
      * apply Forall_forall. intros l Hl. apply list_elem_of_fmap in Hl.
        destruct Hl as (h & -> & _). reflexivity.
    + intros c Hc. apply list_elem_of_In, in_concat in Hc.
      destruct Hc as (l & Hl & Hc).
      apply list_elem_of_In in Hl, Hc.
      apply list_elem_of_fmap in Hl. destruct Hl as (h & -> & _).
      unfold vertex_colour in Hc.
      repeat (apply elem_of_cons in Hc; destruct Hc as [-> | Hc]);
        [| | | inversion Hc];
        match goal with |- Math_min 1.0 ?x <= 1 =>
          destruct (Math_min_spec 1.0 x) as [[_ ->] | [Hlt ->]]; lra end.
Qed.

(** ** Trails *)

Section ForDown.
Variable body : list Vector3 -> nat -> list Vector3.
Variable f : Vector3 -> Vector3 -> Vector3.
Hypothesis body_spec : forall t j, (1 <= j < length t)%nat ->
  exists c n, t !! j = Some c /\ t !! (j - 1)%nat = Some n
              /\ body t j = <[j := f c n]> t.

Lemma for_down_prefix (m : nat) :
  forall t, (m < length t)%nat ->
    let r := foldl body t (rev (seq 1 m)) in
    length r = length t
    /\ forall i,
         ((1 <= i <= m)%nat ->
          exists c n, t !! i = Some c /\ t !! (i - 1)%nat = Some n
                      /\ r !! i = Some (f c n))
         /\ (~ (1 <= i <= m)%nat -> r !! i = t !! i).
Proof.
  induction m as [| m IH]; intros t Hm r; subst r.
  - cbn. split; [reflexivity |]. intros i. split; [lia | reflexivity].
  - rewrite seq_S, rev_app_distr. cbn [rev app foldl Nat.add].
    destruct (body_spec t (S m)) as (c & n & Ec & En & ->); [lia |].
    set (t1 := <[S m := f c n]> t).
    assert (L1 : length t1 = length t) by (subst t1; apply length_insert).
    destruct (IH t1) as [Hlen Hlook]; [lia |].
    split; [lia |]. intros i. split.
    + intros Hi. destruct (decide (i = S m)) as [-> | Hne].
      * exists c, n. split; [exact Ec | split; [exact En |]].
        rewrite (proj2 (Hlook (S m))) by lia.
        subst t1. apply list_lookup_insert_eq. lia.
      * destruct (proj1 (Hlook i)) as (c' & n' & Ec' & En' & Er); [lia |].
        exists c', n'. subst t1.
        rewrite list_lookup_insert_ne in Ec' by lia.
        rewrite list_lookup_insert_ne in En' by lia. auto.
    + intros Hi. rewrite (proj2 (Hlook i)) by lia.
      subst t1. apply list_lookup_insert_ne. lia.
Qed.

Lemma for_down_spec (t : list Vector3) :
  length (for_down body t) = length t
  /\ forall i,
       ((1 <= i < length t)%nat ->
        exists c n, t !! i = Some c /\ t !! (i - 1)%nat = Some n
                    /\ for_down body t !! i = Some (f c n))
       /\ (~ (1 <= i < length t)%nat -> for_down body t !! i = t !! i).
Proof.
  unfold for_down. destruct t as [| a t].
  - cbn. split; [reflexivity |]. intros i. split; [lia | reflexivity].
  - destruct (for_down_prefix (length (a :: t) - 1) (a :: t)) as [Hlen Hlook];
      [cbn; lia |].
    split; [exact Hlen |]. intros i. split.
    + intros Hi. apply (proj1 (Hlook i)). cbn in *. lia.
    + intros Hi. apply (proj2 (Hlook i)). cbn in *. lia.
Qed.

End ForDown.

Lemma collapse_point_spec (t : list Vector3) (j : nat) :
  (1 <= j < length t)%nat ->
  exists c n, t !! j = Some c /\ t !! (j - 1)%nat = Some n
              /\ collapse_point t j = <[j := towards c n]> t.
Proof.
  intros Hj. unfold collapse_point.
  destruct (lookup_lt_is_Some_2 t j) as [c Ec]; [lia |].
  destruct (lookup_lt_is_Some_2 t (j - 1)) as [n En]; [lia |].
  exists c, n. rewrite Ec, En. auto.
Qed.

Lemma shift_point_spec (t : list Vector3) (j : nat) :
  (1 <= j < length t)%nat ->
  exists c n, t !! j = Some c /\ t !! (j - 1)%nat = Some n
              /\ shift_point t j = <[j := (fun _ ahead => ahead) c n]> t.
Proof.
  intros Hj. unfold shift_point.
  destruct (lookup_lt_is_Some_2 t j) as [c Ec]; [lia |].
  destruct (lookup_lt_is_Some_2 t (j - 1)) as [n En]; [lia |].
  exists c, n. rewrite En. auto.
Qed.

(** The trail of a moving particle: the new head, then the old points
    but the last. *)
Lemma advance_trail_spec (head : Vector3) (t : list Vector3) :
  advance_trail head t = take (length t) (head :: t).
Proof.
  destruct (for_down_spec shift_point _ shift_point_spec t) as [Hlen Hlook].
  apply list_eq. intros i. unfold advance_trail.
  destruct (decide (i < length t)%nat) as [Hi | Hi].
  - rewrite lookup_take_lt by exact Hi.
    destruct i as [| i].
    + rewrite list_lookup_insert_eq by lia. reflexivity.
    + rewrite list_lookup_insert_ne by lia.
      destruct (proj1 (Hlook (S i))) as (c & n & _ & En & ->); [lia |].
      cbn in En |- *. rewrite ?Nat.sub_0_r in En. symmetry. exact En.
  - rewrite lookup_take_ge by lia.
    apply lookup_ge_None_2. rewrite length_insert. lia.
Qed.

Lemma collapse_trail_spec (t : list Vector3) :
  length (collapse_trail t) = length t
  /\ collapse_trail t !! 0%nat = t !! 0%nat
  /\ forall j, (1 <= j < length t)%nat ->
       exists curr next,
         t !! j = Some curr /\ t !! (j - 1)%nat = Some next
         /\ collapse_trail t !! j = Some (towards curr next).
Proof.
  destruct (for_down_spec collapse_point _ collapse_point_spec t) as [Hlen Hlook].
  split; [exact Hlen |]. split.
  - apply (proj2 (Hlook 0%nat)). lia.
  - intros j Hj. apply (proj1 (Hlook j)), Hj.
Qed.

Lemma lock_prefix (head : Vector3) (m : nat) :
  forall (a : nat) (t : list Vector3),
    foldl (fun points j => <[j := head]> points) t (seq a m)
    = take a t ++ replicate (Nat.min m (length t - a)) head ++ drop (a + m) t.
Proof.
  induction m as [| m IH]; intros a t.
  - cbn. rewrite Nat.add_0_r, take_drop. reflexivity.
  - cbn [seq foldl]. rewrite IH.
    destruct (decide (a < length t)%nat) as [Ha | Ha].
    + rewrite length_insert.
      replace (Nat.min (S m) (length t - a)) with (S (Nat.min m (length t - S a))) by lia.
      rewrite (take_S_r _ _ head) by (apply list_lookup_insert_eq; exact Ha).
      rewrite take_insert_ge by lia.
      rewrite drop_insert_lt by lia.
      rewrite <- app_assoc. cbn [replicate app].
      replace (S a + m)%nat with (a + S m)%nat by lia. reflexivity.
    + rewrite list_insert_ge by lia.
      replace (Nat.min m (length t - S a)) with 0%nat by lia.
      replace (Nat.min (S m) (length t - a)) with 0%nat by lia.
      cbn [replicate app].
      rewrite !take_ge by lia. rewrite !drop_ge by lia. reflexivity.
Qed.

Lemma lock_trail_spec (head : Vector3) (t : list Vector3) :
  lock_trail head t = replicate (length t) head.
Proof.
  unfold lock_trail. rewrite lock_prefix.
  cbn [Nat.add]. rewrite take_0, Nat.sub_0_r, Nat.min_id, drop_all, app_nil_r.
  reflexivity.
Qed.

Section MaterialsProps.
Variable M : JSMath.
Variable cfg : VisualConfig.
Variable V : MaterialsConfig.

Let k := 1.0 - FADE_OUT_SPEED (WAVES cfg).
Let head (p : Particle) : Vector3 :=
  {| v_x := p_x p;
     v_y := lossFunction M (TERRAIN cfg) (p_x p) (p_z p)
            + HEIGHT_OFFSET (PARTICLES cfg);
     v_z := - p_z p |}.

Local Opaque lossFunction speed Math_min MathUtils.lerp Math_pow
  collapse_trail advance_trail lock_trail.

Lemma visual_body_fading (queue : Z) (p : Particle) (v : Visual) :
  isFading p = true ->
  visual_body M cfg V queue p v
  = {| uColor := uColor v;
       uOpacity := uOpacity v * k;
       uGlowIntensity := uGlowIntensity v * k;
       trail_color := trail_color v;
       trail_opacity := trail_opacity v * k;
       trail := collapse_trail (trail v) |}.
Proof. intros Hf. unfold visual_body. rewrite Hf. reflexivity. Qed.

Lemma visual_body_staging (queue : Z) (p : Particle) (v : Visual) :
  isFading p = false -> (0 < queue)%Z ->
  visual_body M cfg V queue p v
  = {| uColor := setHex (STAGING_COLOR V);
       uOpacity := 1.0;
       uGlowIntensity := 2.5;
       trail_color := setHex (STAGING_COLOR V);
       trail_opacity := 0.8;
       trail := lock_trail (head p) (trail v) |}.
Proof.
  intros Hf Hq. unfold visual_body. rewrite Hf.
  destruct (Z.ltb_spec 0 queue) as [_ | H]; [| lia].
  destruct (Z.eqb_spec queue 0) as [H | _]; [lia |].
  reflexivity.
Qed.

Lemma visual_body_moving (p : Particle) (v : Visual) :
  isFading p = false ->
  let speedFactor :=
    Math_pow M (Math_min (speed M p / 0.15) 1.0) 1.2 in
  let reactionFactor :=
    Math_min 1.0 (speed M p * SENSITIVITY (REACTION V)) in
  visual_body M cfg V 0 p v
  = {| uColor := lerpColors 65416 16777215 speedFactor;
       uOpacity := MathUtils.lerp (MIN_OPACITY (REACTION V))
                     (MAX_OPACITY (REACTION V)) reactionFactor;
       uGlowIntensity := MathUtils.lerp (MIN_GLOW (REACTION V))
                           (MAX_GLOW (REACTION V)) reactionFactor;
       trail_color := lerpColors 65416 16777215 speedFactor;
       trail_opacity := trail_opacity v;
       trail := advance_trail (head p) (trail v) |}.
Proof. intros Hf. unfold visual_body. rewrite Hf. reflexivity. Qed.

Lemma visual_body_negative (queue : Z) (p : Particle) (v : Visual) :
  isFading p = false -> (queue < 0)%Z ->
  let speedFactor :=
    Math_pow M (Math_min (speed M p / 0.15) 1.0) 1.2 in
  let reactionFactor :=
    Math_min 1.0 (speed M p * SENSITIVITY (REACTION V)) in
  visual_body M cfg V queue p v
  = {| uColor := lerpColors 65416 16777215 speedFactor;
       uOpacity := MathUtils.lerp (MIN_OPACITY (REACTION V))
                     (MAX_OPACITY (REACTION V)) reactionFactor;
       uGlowIntensity := MathUtils.lerp (MIN_GLOW (REACTION V))
                           (MAX_GLOW (REACTION V)) reactionFactor;
       trail_color := lerpColors 65416 16777215 speedFactor;
       trail_opacity := trail_opacity v;
       trail := trail v |}.
Proof.
  intros Hf Hq. unfold visual_body. rewrite Hf.
  destruct (Z.ltb_spec 0 queue) as [H | _]; [lia |].
  destruct (Z.eqb_spec queue 0) as [H | _]; [lia |].
  reflexivity.
Qed.

Local Transparent collapse_trail advance_trail lock_trail.

Lemma visual_body_length (queue : Z) (p : Particle) (v : Visual) :
  length (trail (visual_body M cfg V queue p v)) = length (trail v).
Proof.
  destruct (isFading p) eqn:Hf.
  - rewrite visual_body_fading by exact Hf. cbn [trail].
    apply collapse_trail_spec.
  - destruct (Z.lt_trichotomy queue 0) as [Hq | [-> | Hq]].
    + rewrite visual_body_negative by assumption. reflexivity.
    + rewrite visual_body_moving by assumption. cbn [trail].
      rewrite advance_trail_spec. rewrite length_take. cbn [length]. lia.
    + rewrite visual_body_staging by assumption. cbn [trail].
      rewrite lock_trail_spec. apply length_replicate.
Qed.


Local Transparent lossFunction speed Math_min MathUtils.lerp Math_pow.

End MaterialsProps.

Section BodyMesh.
Variable M : JSMath.
Variable cfg : VisualConfig.

Let k := 1.0 - FADE_OUT_SPEED (WAVES cfg).

Local Opaque lossFunction gradient finalScale speed Math_min MathUtils.lerp.

(** The mesh of a particle the body keeps. *)
Lemma particle_body_mesh (fs : Q) (q : Z) (map : option GradientMap)
    (p p' : Particle) :
  particle_body M cfg fs q map p = Ok (Some p') ->
  let newY := lossFunction M (TERRAIN cfg) (p_x p') (p_z p')
              + HEIGHT_OFFSET (PARTICLES cfg) in
  mesh_position p' = {| v_x := p_x p'; v_y := newY; v_z := - p_z p' |}
  /\ (isFading p = false ->
      exists lerpSpeed,
        (lerpSpeed = 0.02 \/ lerpSpeed = 0.1)
        /\ let target :=
             finalScale M cfg newY
               (Math_pow M (Math_min (speed M p' / 0.15) 1.0) 1.2) in
           mesh_scale p'
           = {| v_x := MathUtils.lerp (v_x (mesh_scale p)) target lerpSpeed;
                v_y := MathUtils.lerp (v_y (mesh_scale p)) target lerpSpeed;
                v_z := MathUtils.lerp (v_z (mesh_scale p)) target lerpSpeed |}).
Proof.
  destruct p as [id pos sc x z vx vz a fading].
  unfold particle_body. simp_body.
  destruct fading; simp_body.
  - destruct (Qltb (v_x (multiplyScalar sc (1.0 - FADE_OUT_SPEED (WAVES cfg))))
                0.01) eqn:E; [discriminate |].
    intros [= <-]. cbn. split; [reflexivity | discriminate].
  - destruct (q =? 0)%Z eqn:Eq.
    + destruct (gradient cfg map x z) as [grad |] eqn:Eg;
        cbn [res_bind]; [| discriminate].
      intros [= <-]. cbn. split; [reflexivity |]. intros _.
      match goal with |- context [if ?c then 0.02 else 0.1] =>
        destruct c end;
        eexists; (split; [| reflexivity]); auto.
    + cbn [res_bind]. intros [= <-]. cbn. split; [reflexivity |]. intros _.
      match goal with |- context [if ?c then 0.02 else 0.1] =>
        destruct c end;
        eexists; (split; [| reflexivity]); auto.
Qed.

Local Transparent lossFunction gradient finalScale speed Math_min MathUtils.lerp.

End BodyMesh.

(** ** Invariants of the particles *)

Section ParticleInvariant.
Variable M : JSMath.
Variable cfg : VisualConfig.
Variable I : Particle -> Prop.

Hypothesis I_new : forall (id : nat) (x y z : Q),
  I {| pid := id;
       mesh_position := {| v_x := x; v_y := y; v_z := - z |};
       mesh_scale := {| v_x := 1; v_y := 1; v_z := 1 |};
       p_x := x; p_z := z; p_vx := 0; p_vz := 0;
       age := 0; isFading := false |}.
Hypothesis I_fade : forall p, I p -> I (set_isFading true p).
Hypothesis I_body : forall fs q map p p',
  I p -> particle_body M cfg fs q map p = Ok (Some p') -> I p'.

Lemma invariant_spawnParticle (x z : Q) (overrideY : option Q) (s : State) :
  Forall I (particles s) ->
  Forall I (particles (spawnParticle M cfg x z overrideY s)).
Proof.
  intros H. unfold spawnParticle. cbn [particles set_nextId set_particles].
  apply Forall_app. split; [exact H |].
  apply Forall_cons. split; [apply I_new | apply Forall_nil_2].
Qed.

Lemma invariant_place (f : Frame) (x z y : Q) (s : State) :
  Forall I (particles s) -> Forall I (particles (place M cfg f x z y s)).
Proof.
  intros H. unfold place.
  match goal with |- context [if ?c then _ else _] => destruct c end;
    cbn [particles set_lastWaveTime set_spawnQueue];
    apply invariant_spawnParticle, H.
Qed.

Lemma invariant_spawn_loop (f : Frame) (toSpawn : Z) (fuel : nat) :
  forall (i : Z) (k : nat) (s s' : State),
    spawn_loop M cfg fuel f toSpawn i k s = Ok s' ->
    Forall I (particles s) -> Forall I (particles s').
Proof.
  induction fuel as [| fuel IH]; intros i k s s' H HI; [discriminate |].
  cbn [spawn_loop] in H.
  destruct (i <? toSpawn)%Z; [| injection H as <-; exact HI].
  destruct (classify M cfg f (casts f k)); try (eapply IH; eassumption).
  eapply IH; [eassumption |]. apply invariant_place, HI.
Qed.

Lemma invariant_animate (fuel : nat) (f : Frame) (s s' : State) :
  animate M cfg fuel f s = Ok s' ->
  Forall I (particles s) -> Forall I (particles s').
Proof.
  intros Ha HI. apply animate_inv in Ha.
  destruct Ha as (s1 & kept & removed & H1 & HS & ->).
  cbn [particles set_disposed set_particles].
  assert (H1I : Forall I (particles s1)).
  { unfold spawn_phase in H1.
    destruct (0 <? spawnQueue (tick_clock f s))%Z.
    - eapply invariant_spawn_loop; [exact H1 | exact HI].
    - injection H1 as <-. exact HI. }
  assert (H2I : Forall I (particles (opacity_sync M cfg (scheduler M cfg f s1)))).
  { destruct (scheduler_same M cfg f s1) as (_ & _ & _ & _ & _ & _ & [-> | ->]).
    - exact H1I.
    - apply Forall_forall. intros q Hq. apply list_elem_of_fmap in Hq.
      destruct Hq as (q0 & -> & Hq0). apply I_fade.
      rewrite Forall_forall in H1I. apply H1I, Hq0. }
  apply Forall_forall. intros p' Hp'.
  destruct (Steps_kept_from _ _ _ _ p' HS Hp') as (p & Hp & Hb).
  rewrite Forall_forall in H2I.
  exact (I_body _ _ _ p p' (H2I p Hp) Hb).
Qed.

Lemma invariant_run (es : list Event) :
  forall s s' : State,
    run M cfg es s = Ok s' ->
    Forall I (particles s) -> Forall I (particles s').
Proof.
  induction es as [| e es IH]; intros s s' Hr HI.
  - injection Hr as <-. exact HI.
  - cbn [run] in Hr. destruct (step M cfg e s) as [s1 | err] eqn:Hs;
      cbn [res_bind] in Hr; [| discriminate].
    apply (IH s1 s' Hr).
    destruct e as [fuel f | reticle]; cbn [step] in Hs.
    + eapply invariant_animate; eassumption.
    + injection Hs as <-. destruct reticle as [pos |]; cbn [handleClick].
      * apply invariant_spawnParticle, HI.
      * exact HI.
Qed.

End ParticleInvariant.

Section Instances.
Variable M : JSMath.
Variable cfg : VisualConfig.

Lemma uniform_scale_run (es : list Event) (s s' : State) :
  run M cfg es s = Ok s' ->
  Forall uniform_scale (particles s) -> Forall uniform_scale (particles s').
Proof.
  apply invariant_run.
  - intros id x y z. split; reflexivity.
  - intros p H. destruct p; exact H.
  - intros fs q map p p' [Hy Hz] Hb.
    destruct (isFading p) eqn:Hf.
    + apply particle_body_kept in Hb.
      destruct Hb as (_ & _ & _ & Hsc & _).
      destruct (Hsc Hf) as (E & _). unfold uniform_scale. rewrite E. cbn.
      rewrite Hy, Hz. split; reflexivity.
    + apply particle_body_mesh in Hb. destruct Hb as [_ Hsc].
      destruct (Hsc Hf) as (ls & _ & E). unfold uniform_scale. rewrite E. cbn.
      rewrite Hy, Hz. split; reflexivity.
Qed.

Lemma mesh_mirrors_run (es : list Event) (s s' : State) :
  run M cfg es s = Ok s' ->
  Forall mesh_mirrors (particles s) -> Forall mesh_mirrors (particles s').
Proof.
  apply invariant_run.
  - intros id x y z. split; reflexivity.
  - intros p H. destruct p; exact H.
  - intros fs q map p p' _ Hb.
    apply particle_body_mesh in Hb. destruct Hb as [E _].
    unfold mesh_mirrors. rewrite E. split; reflexivity.
Qed.

End Instances.

Section ScaleRange.
Variable M : JSMath.
Variable cfg : VisualConfig.

Let P := PARTICLES cfg.

Hypothesis sqrt_nonneg : forall x, 0 <= x -> 0 <= Math_sqrt M x.
Hypothesis pow_unit : forall n, 0 <= n <= 1 -> 0 <= Math_pow M n 1.2 <= 1.
Hypothesis scale_limits : 0 < MIN_LOSS_SCALE P <= 1 /\ 1 <= MAX_LOSS_SCALE P.
Hypothesis fade_speed : 0 <= FADE_OUT_SPEED (WAVES cfg) < 1.

Lemma finalScale_range (newY : Q) (p : Particle) :
  let speedFactor := Math_pow M (Math_min (speed M p / 0.15) 1.0) 1.2 in
  MIN_LOSS_SCALE P <= finalScale M cfg newY speedFactor
  <= 1.5 * MAX_LOSS_SCALE P.
Proof.
  intros speedFactor. destruct scale_limits as [[Hmin0 Hmin1] Hmax].
  assert (Hsp : 0 <= speed M p).
  { unfold speed. apply sqrt_nonneg.
    assert (0 <= p_vx p * p_vx p) by nra.
    assert (0 <= p_vz p * p_vz p) by nra. lra. }
  assert (Hm : 0 <= Math_min (speed M p / 0.15) 1.0 <= 1).
  { destruct (Math_min_spec (speed M p / 0.15) 1.0) as [[H ->] | [H ->]].
    - split; [| lra]. apply Qle_shift_div_l; lra.
    - split; lra. }
  pose proof (pow_unit _ Hm) as Hsf. fold speedFactor in Hsf.
  unfold finalScale. fold P.
  match goal with |- _ <= _ * MathUtils.clamp ?v _ _ <= _ =>
    pose proof (clamp_bounds v (MIN_LOSS_SCALE P) (MAX_LOSS_SCALE P)) as Hc;
    set (lsf := MathUtils.clamp v (MIN_LOSS_SCALE P) (MAX_LOSS_SCALE P)) in *
  end.
  destruct Hc as [Hc0 Hc1]; [lra |].
  split; nra.
Qed.

Lemma scale_in_range_run (es : list Event) (s s' : State) :
  run M cfg es s = Ok s' ->
  Forall (scale_in_range cfg) (particles s) ->
  Forall (scale_in_range cfg) (particles s').
Proof.
  destruct scale_limits as [[Hmin0 Hmin1] Hmax]. unfold P in *.
  apply invariant_run.
  - intros id x y z. unfold scale_in_range. cbn. split; [split; lra | intros _; lra].
  - intros p [H _]. destruct p. unfold scale_in_range. cbn in *.
    split; [exact H | discriminate].
  - intros fs q map p p' [[H0 H1] Hmin] Hb.
    destruct (isFading p) eqn:Hf.
    + apply particle_body_kept in Hb.
      destruct Hb as (_ & Hfad & _ & Hsc & _).
      destruct (Hsc Hf) as (E & _). unfold scale_in_range.
      rewrite E, Hfad, Hf. cbn [multiplyScalar v_x].
      set (c := v_x (mesh_scale p)) in *.
      set (k := 1.0 - FADE_OUT_SPEED (WAVES cfg)).
      assert (Hk : 0 < k <= 1) by (subst k; lra).
      assert (Hck : 0 < c * k) by (apply Qmult_lt_0_compat; lra).
      assert (Hck1 : c * k <= c) by nra.
      split; [| discriminate]. split.
      * apply Qmult_lt_0_compat; lra.
      * assert (c * k * k <= c * k) by nra. lra.
    + pose proof Hb as Hb'. apply particle_body_kept in Hb'.
      destruct Hb' as (_ & Hfad & _).
      apply particle_body_mesh in Hb. destruct Hb as [_ Hsc].
      destruct (Hsc Hf) as (ls & Hls & E). unfold scale_in_range.
      rewrite E. cbn [v_x].
      match goal with |- context [MathUtils.lerp _ (finalScale M cfg ?y _) _] =>
        pose proof (finalScale_range y p') as [T0 T1] end.
      unfold P in T0, T1.
      set (target := finalScale M cfg _ _) in *.
      pose proof (Hmin eq_refl) as Hlo.
      set (c := v_x (mesh_scale p)) in *.
      unfold MathUtils.lerp.
      destruct Hls as [-> | ->]; (split; [split; nra | intros _; nra]).
Qed.

End ScaleRange.

(** ** Invariants of the scheduler state *)

Section StateInvariants.
Variable M : JSMath.
Variable cfg : VisualConfig.

Let W := WAVES cfg.

Lemma animate_frame_fields (fuel : nat) (f : Frame) (s s' : State) :
  animate M cfg fuel f s = Ok s' ->
  exists s1 new,
    spawn_phase M cfg fuel f (tick_clock f s) = Ok s1
    /\ placed f (tick_clock f s) s1 new
    /\ timeRef s' = timeRef s + (now f - lastFrameTime s) / 1000
    /\ lastFrameTime s' = now f
    /\ waveState s' = waveState (opacity_sync M cfg (scheduler M cfg f s1))
    /\ spawnQueue s' = spawnQueue (opacity_sync M cfg (scheduler M cfg f s1))
    /\ wireframe_opacity s'
       = wireframe_opacity (opacity_sync M cfg (scheduler M cfg f s1)).
Proof.
  intros Ha. apply animate_inv in Ha.
  destruct Ha as (s1 & kept & removed & H1 & _ & ->).
  destruct (spawn_phase_placed M cfg fuel f _ _ H1) as (new & Hp).
  exists s1, new. split; [exact H1 | split; [exact Hp |]].
  cbn [timeRef lastFrameTime waveState spawnQueue wireframe_opacity
       set_disposed set_particles].
  destruct (scheduler_same M cfg f s1) as (Et & _ & _ & El & _).
  destruct Hp as (_ & _ & _ & _ & _ & (Et1 & _ & _ & _ & El1 & _) & _).
  rewrite Et, El, Et1, El1. cbn. unfold deltaTimeSec. auto.
Qed.

End StateInvariants.

Section Transitions.
Variable M : JSMath.
Variable cfg : VisualConfig.

Lemma leave_ACTIVE_effect (f : Frame) (s : State) :
  spawnQueue (leave_ACTIVE M cfg f s) = spawnQueue s
  /\ wireframe_opacity (leave_ACTIVE M cfg f s) = wireframe_opacity s
  /\ (waveState (leave_ACTIVE M cfg f s) = waveState s
      \/ (waveState s = ACTIVE /\ spawnQueue s = 0%Z
          /\ waveState (leave_ACTIVE M cfg f s) = WAITING)).
Proof.
  destruct (leave_ACTIVE_same M cfg f s) as (_ & Eq & Eo).
  split; [exact Eq | split; [exact Eo |]].
  destruct (waveState s) eqn:Ew.
  1, 2: left; rewrite leave_ACTIVE_elsewhere by congruence; exact Ew.
  destruct (leave_ACTIVE_spec M cfg f s Ew) as [([Hq _] & Hw & _) | (_ & ->)].
  - right. auto.
  - left. exact Ew.
Qed.

Lemma leave_WAITING_effect (s : State) :
  spawnQueue (leave_WAITING cfg s) = spawnQueue s
  /\ wireframe_opacity (leave_WAITING cfg s) = wireframe_opacity s
  /\ (waveState (leave_WAITING cfg s) = waveState s
      \/ (waveState s = WAITING /\ waveState (leave_WAITING cfg s) = SWELLING)).
Proof.
  destruct (leave_WAITING_same cfg s) as (_ & Eq & Eo & _).
  split; [exact Eq | split; [exact Eo |]].
  unfold leave_WAITING. destruct (waveState s) eqn:Ew; auto.
  destruct (Qgtb _ _); cbn; auto.
Qed.

Lemma leave_SWELLING_effect (s : State) :
  leave_SWELLING cfg s = s
  \/ (waveState s = SWELLING
      /\ waveState (leave_SWELLING cfg s) = ACTIVE
      /\ spawnQueue (leave_SWELLING cfg s) = PARTICLES_PER_WAVE (WAVES cfg)
      /\ wireframe_opacity (leave_SWELLING cfg s) = MAX_SWELL_OPACITY (WAVES cfg)).
Proof.
  unfold leave_SWELLING. destruct (waveState s) eqn:Ew; auto.
  destruct (Qgtb _ _); cbn; auto.
Qed.

Lemma opacity_sync_effect (s : State) :
  let base := WIREFRAME_OPACITY (TERRAIN cfg) in
  (waveState s = SWELLING
   /\ wireframe_opacity (opacity_sync M cfg s)
      = MathUtils.lerp base (MAX_SWELL_OPACITY (WAVES cfg))
          (Math_pow M ((timeRef s - stateStartTime s) / SWELL_TIME (WAVES cfg)) 2.0))
  \/ (waveState s <> SWELLING /\ base < wireframe_opacity s
      /\ wireframe_opacity (opacity_sync M cfg s)
         = wireframe_opacity s
           - (wireframe_opacity s - base) * FLASH_DECAY (WAVES cfg))
  \/ (waveState s <> SWELLING /\ wireframe_opacity s <= base
      /\ wireframe_opacity (opacity_sync M cfg s) = wireframe_opacity s).
Proof.
  intros base. unfold opacity_sync. fold base.
  destruct (waveState s) eqn:Ew.
  2: left; split; [reflexivity | reflexivity].
  all: right; destruct (Qgtb (wireframe_opacity s) base) eqn:E;
    [left; apply Qgtb_gt in E | right; apply Qgtb_le in E];
    (split; [congruence | split; [exact E | reflexivity]]).
Qed.

(** The queue and the state of the wave. *)
Lemma scheduler_queue_ok (f : Frame) (s : State) :
  (0 <= PARTICLES_PER_WAVE (WAVES cfg))%Z ->
  queue_ok cfg s -> queue_ok cfg (opacity_sync M cfg (scheduler M cfg f s)).
Proof.
  intros HP H.
  assert (Ho : forall t, queue_ok cfg t -> queue_ok cfg (opacity_sync M cfg t)).
  { intros t Ht. unfold queue_ok.
    destruct (opacity_sync_same M cfg t) as (_ & -> & _ & -> & _). exact Ht. }
  apply Ho. unfold scheduler.
  assert (Ha : queue_ok cfg (leave_ACTIVE M cfg f s)).
  { destruct H as [Hr Hact].
    destruct (leave_ACTIVE_effect f s) as (Eq & _ & [Ew | (_ & Hq & Ew)]);
      unfold queue_ok; rewrite Eq, Ew; [auto |].
    split; [exact Hr | intros; lia]. }
  set (sa := leave_ACTIVE M cfg f s) in *.
  assert (Hb : queue_ok cfg (leave_WAITING cfg sa)).
  { destruct Ha as [Hr Hact].
    destruct (leave_WAITING_effect sa) as (Eq & _ & [Ew | (Ew0 & Ew)]);
      unfold queue_ok; rewrite Eq, Ew; [auto |].
    split; [exact Hr |]. intros Hq. specialize (Hact Hq). congruence. }
  set (sb := leave_WAITING cfg sa) in *.
  destruct (leave_SWELLING_effect sb) as [-> | (_ & Ew & Eq & _)]; [exact Hb |].
  unfold queue_ok. rewrite Ew, Eq. split; [lia | reflexivity].
Qed.

Lemma queue_ok_animate (fuel : nat) (f : Frame) (s s' : State) :
  (0 <= PARTICLES_PER_WAVE (WAVES cfg))%Z ->
  animate M cfg fuel f s = Ok s' -> queue_ok cfg s -> queue_ok cfg s'.
Proof.
  intros HP Ha H.
  destruct (animate_frame_fields M cfg fuel f s s' Ha)
    as (s1 & new & H1 & Hp & _ & _ & Ew & Eq & _).
  unfold queue_ok. rewrite Ew, Eq.
  apply scheduler_queue_ok; [exact HP |].
  (* the spawn phase *)
  destruct H as [[H0 Hmax] Hact].
  unfold spawn_phase in H1. cbn [tick_clock set_clock spawnQueue] in H1.
  destruct (Z.ltb_spec 0 (spawnQueue s)) as [Hq | Hq].
  - destruct (spawn_loop_placed M cfg f _ fuel 0 0%nat _ s1 H1)
      as (new' & Hp' & Hl).
    destruct Hp' as (_ & Eq' & _ & _ & _ & (_ & Ew' & _) & _).
    cbn [tick_clock set_clock spawnQueue waveState] in Eq', Ew'.
    unfold queue_ok. rewrite Eq', Ew'.
    split; [lia | intros _; apply Hact, Hq].
  - injection H1 as <-. unfold queue_ok. cbn. split; [lia | exact Hact].
Qed.

Lemma queue_ok_run (es : list Event) :
  forall s s' : State,
    (0 <= PARTICLES_PER_WAVE (WAVES cfg))%Z ->
    run M cfg es s = Ok s' -> queue_ok cfg s -> queue_ok cfg s'.
Proof.
  induction es as [| e es IH]; intros s s' HP Hr H.
  - injection Hr as <-. exact H.
  - cbn [run] in Hr. destruct (step M cfg e s) as [s1 | err] eqn:Hs;
      cbn [res_bind] in Hr; [| discriminate].
    apply (IH s1 s' HP Hr).
    destruct e as [fuel f | reticle]; cbn [step] in Hs.
    + eapply queue_ok_animate; eassumption.
    + injection Hs as <-.
      destruct (handleClick_same M cfg reticle s) as (_ & Ew & _ & Eq & _).
      unfold queue_ok. rewrite Ew, Eq. exact H.
Qed.

(** The frame clock. *)
Lemma clock_run (es : list Event) :
  forall s s' : State,
    run M cfg es s = Ok s' ->
    timeRef s' - timeRef s == (lastFrameTime s' - lastFrameTime s) / 1000.
Proof.
  induction es as [| e es IH]; intros s s' Hr.
  - injection Hr as <-. field.
  - cbn [run] in Hr. destruct (step M cfg e s) as [s1 | err] eqn:Hs;
      cbn [res_bind] in Hr; [| discriminate].
    specialize (IH s1 s' Hr).
    destruct e as [fuel f | reticle]; cbn [step] in Hs.
    + destruct (animate_frame_fields M cfg fuel f s s1 Hs)
        as (_ & _ & _ & _ & Et & El & _).
      rewrite Et, El in IH.
      assert (E : timeRef s' - timeRef s
                  == (timeRef s' - (timeRef s + (now f - lastFrameTime s) / 1000))
                     + (now f - lastFrameTime s) / 1000) by ring.
      rewrite E, IH. field.
    + injection Hs as <-.
      destruct (handleClick_same M cfg reticle s) as (Et & _ & _ & _ & El & _).
      rewrite Et, El in IH. exact IH.
Qed.

(** The opacity of the wireframe. *)
Section Opacity.
Hypothesis pow_nonneg : forall x, 0 <= Math_pow M x 2.0.
Hypothesis decay : 0 <= FLASH_DECAY (WAVES cfg) <= 1.
Hypothesis swell : WIREFRAME_OPACITY (TERRAIN cfg) <= MAX_SWELL_OPACITY (WAVES cfg).

Lemma opacity_scheduler (f : Frame) (s : State) :
  WIREFRAME_OPACITY (TERRAIN cfg) <= wireframe_opacity s ->
  WIREFRAME_OPACITY (TERRAIN cfg)
  <= wireframe_opacity (opacity_sync M cfg (scheduler M cfg f s)).
Proof.
  intros H.
  assert (Hs : WIREFRAME_OPACITY (TERRAIN cfg)
               <= wireframe_opacity (scheduler M cfg f s)).
  { unfold scheduler.
    destruct (leave_SWELLING_effect (leave_WAITING cfg (leave_ACTIVE M cfg f s)))
      as [-> | (_ & _ & _ & ->)]; [| exact swell].
    destruct (leave_WAITING_effect (leave_ACTIVE M cfg f s)) as (_ & -> & _).
    destruct (leave_ACTIVE_effect f s) as (_ & -> & _). exact H. }
  set (t := scheduler M cfg f s) in *.
  destruct (opacity_sync_effect t) as [(_ & ->) | [(_ & Hgt & ->) | (_ & _ & ->)]].
  - unfold MathUtils.lerp.
    pose proof (pow_nonneg ((timeRef t - stateStartTime t) / SWELL_TIME (WAVES cfg))) as He.
    set (e := Math_pow M _ 2.0) in *. nra.
  - destruct decay as [D0 D1]. nra.
  - exact Hs.
Qed.

Lemma opacity_run (es : list Event) :
  forall s s' : State,
    run M cfg es s = Ok s' ->
    WIREFRAME_OPACITY (TERRAIN cfg) <= wireframe_opacity s ->
    WIREFRAME_OPACITY (TERRAIN cfg) <= wireframe_opacity s'.
Proof.
  induction es as [| e es IH]; intros s s' Hr H.
  - injection Hr as <-. exact H.
  - cbn [run] in Hr. destruct (step M cfg e s) as [s1 | err] eqn:Hs;
      cbn [res_bind] in Hr; [| discriminate].
    apply (IH s1 s' Hr).
    destruct e as [fuel f | reticle]; cbn [step] in Hs.
    + destruct (animate_frame_fields M cfg fuel f s s1 Hs)
        as (s0 & new & _ & Hp & _ & _ & _ & _ & ->).
      apply opacity_scheduler.
      destruct Hp as (_ & _ & _ & _ & _ & (_ & _ & _ & _ & _ & -> & _) & _).
      exact H.
    + injection Hs as <-. destruct reticle; exact H.
Qed.

End Opacity.

End Transitions.

Section Frozen.
Variable M : JSMath.
Variable cfg : VisualConfig.

Lemma frozen_step (e : Event) (s s' : State) (p : Particle) :
  step M cfg e s = Ok s' -> (pid p < nextId s)%nat ->
  frozen_as p s -> frozen_as p s'.
Proof.
  destruct e as [fuel f | reticle]; cbn [step].
  - intros Ha Hlt Hfr p' Hp' Hpid. apply animate_inv in Ha.
    destruct Ha as (s1 & kept & removed & H1 & HS & ->). cbn in Hp'.
    destruct (Steps_kept_from _ _ _ _ p' HS Hp') as (q & Hq & Hb).
    apply particle_body_kept in Hb.
    destruct Hb as (Hpq & Hfq & _ & Hfade & _).
    assert (Hq0 : isFading q = true /\ same_motion p q).
    { destruct (loop_input M cfg fuel f s s1 H1) as (new & Hpl & [E | E]);
        rewrite E in Hq.
      - apply elem_of_app in Hq. destruct Hq as [Hq | Hq].
        + apply Hfr; [exact Hq | congruence].
        + exfalso. destruct Hpl as (_ & _ & _ & Hids & _).
          assert (Hin : pid q ∈ pid <$> new) by (apply list_elem_of_fmap_2, Hq).
          rewrite Hids in Hin. apply elem_of_seq in Hin. cbn in Hin. lia.
      - apply list_elem_of_fmap in Hq. destruct Hq as (q0 & -> & Hq0).
        apply elem_of_app in Hq0. destruct Hq0 as [Hq0 | Hq0].
        + destruct (Hfr q0) as [_ Hm];
            [exact Hq0 | rewrite <- Hpid, Hpq; destruct q0; reflexivity |].
          split; [destruct q0; reflexivity |].
          destruct q0; exact Hm.
        + exfalso. destruct Hpl as (_ & _ & _ & Hids & _).
          assert (Hin : pid q0 ∈ pid <$> new) by (apply list_elem_of_fmap_2, Hq0).
          rewrite Hids in Hin. apply elem_of_seq in Hin. cbn in Hin.
          assert (pid (set_isFading true q0) = pid q0) by (destruct q0; reflexivity).
          lia. }
    destruct Hq0 as [Hfq0 (Ex & Ez & Evx & Evz)].
    destruct (Hfade Hfq0) as (_ & _ & Ex' & Ez' & Evx' & Evz').
    split; [congruence |]. unfold same_motion. repeat split; congruence.
  - intros [= <-] Hlt Hfr p' Hp' Hpid.
    destruct reticle as [pos |]; [| apply Hfr; assumption].
    cbn in Hp'. apply elem_of_app in Hp'. destruct Hp' as [Hp' | Hp'].
    + apply Hfr; assumption.
    + apply list_elem_of_singleton in Hp'. subst p'. cbn in Hpid. lia.
Qed.

Lemma frozen_run (es : list Event) :
  forall (s s' : State) (p : Particle),
    run M cfg es s = Ok s' -> (pid p < nextId s)%nat ->
    frozen_as p s -> frozen_as p s'.
Proof.
  induction es as [| e es IH]; intros s s' p Hr Hlt Hfr.
  - injection Hr as <-. exact Hfr.
  - cbn [run] in Hr. destruct (step M cfg e s) as [s1 | err] eqn:Hs;
      cbn [res_bind] in Hr; [| discriminate].
    apply (IH s1 s' p Hr).
    + pose proof (nextId_step M cfg e s s1 Hs). lia.
    + eapply frozen_step; eassumption.
Qed.

Lemma frozen_of (s : State) (p : Particle) :
  ids_ok s -> p ∈ particles s -> isFading p = true ->
  (pid p < nextId s)%nat /\ frozen_as p s.
Proof.
  intros (Hnd & Hlt & _) Hp Hf. split; [apply Hlt, Hp |].
  intros q Hq Hpid.
  assert (E : q = p).
  { apply list_elem_of_lookup in Hp, Hq.
    destruct Hp as [i Hi], Hq as [j Hj].
    assert (Eij : i = j).
    { eapply NoDup_lookup; [exact Hnd | |].
      - rewrite list_lookup_fmap, Hi. reflexivity.
      - rewrite list_lookup_fmap, Hj. cbn. congruence. }
    subst j. congruence. }
  subst q. split; [exact Hf |]. unfold same_motion. auto.
Qed.

End Frozen.

Lemma fading_stays (M : JSMath) (cfg : VisualConfig)
    (es : list Event) (s s' : State) (p : Particle) :
  ids_ok s -> p ∈ particles s -> isFading p = true ->
  run M cfg es s = Ok s' ->
  forall q, q ∈ particles s' -> pid q = pid p ->
    isFading q = true
    /\ p_x q = p_x p /\ p_z q = p_z p /\ p_vx q = p_vx p /\ p_vz q = p_vz p.
Proof.
  intros Hids Hp Hf Hr q Hq Hpid.
  destruct (frozen_of s p Hids Hp Hf) as [Hlt Hfr].
  exact (frozen_run M cfg es s s' p Hr Hlt Hfr q Hq Hpid).
Qed.

Lemma staged_wait (M : JSMath) (cfg : VisualConfig)
    (fuel : nat) (f : Frame) (s s1 s' : State) :
  let s2 := opacity_sync M cfg (scheduler M cfg f s1) in
  animate M cfg fuel f s = Ok s' ->
  spawn_phase M cfg fuel f (tick_clock f s) = Ok s1 ->
  spawnQueue s2 <> 0%Z ->
  forall p, p ∈ particles s2 -> isFading p = false ->
    exists p', p' ∈ particles s' /\ pid p' = pid p /\ isFading p' = false
      /\ age p' = S (age p)
      /\ p_x p' = p_x p /\ p_z p' = p_z p
      /\ p_vx p' = p_vx p /\ p_vz p' = p_vz p.
Proof.
  intros s2 Ha H1 Hq p Hp Hf.
  apply animate_inv in Ha.
  destruct Ha as (s1' & kept & removed & H1' & HS & ->).
  rewrite H1 in H1'. injection H1' as <-. fold s2 in HS |- *.
  destruct (Steps_of_elem _ _ _ _ p HS Hp) as [(p' & Hb & Hk) | (Hb & _)].
  - unfold frame_body in Hb.
    destruct (particle_body_kept M cfg _ _ _ p p' Hb)
      as (Hpid & Hfad & Hage & _ & _ & Hstay).
    destruct (Hstay Hf Hq) as (Ex & Ez & Evx & Evz).
    exists p'. cbn [particles set_disposed set_particles].
    split; [exact Hk |]. split; [exact Hpid |]. split; [congruence |].
    auto.
  - apply particle_body_removed in Hb. destruct Hb as [Hb _]. congruence.
Qed.

Lemma mesh_follows (M : JSMath) (cfg : VisualConfig) :
  (forall es s s', run M cfg es s = Ok s' ->
     Forall mesh_mirrors (particles s) -> Forall mesh_mirrors (particles s'))
  /\ (forall fuel f s s' p',
        animate M cfg fuel f s = Ok s' -> p' ∈ particles s' ->
        mesh_position p'
        = {| v_x := p_x p';
             v_y := lossFunction M (TERRAIN cfg) (p_x p') (p_z p')
                    + HEIGHT_OFFSET (PARTICLES cfg);
             v_z := - p_z p' |})
  /\ (forall x z y s,
        exists p, particles (spawnParticle M cfg x z (Some y) s)
                  = particles s ++ [p]
          /\ mesh_position p
             = {| v_x := x; v_y := y + SPAWN_HEIGHT_OFFSET (PARTICLES cfg);
                  v_z := - z |}).
Proof.
  split; [intros es s s'; apply mesh_mirrors_run |]. split.
  - intros fuel f s s' p' Ha Hp'. apply animate_inv in Ha.
    destruct Ha as (s1 & kept & removed & _ & HS & ->). cbn in Hp'.
    destruct (Steps_kept_from _ _ _ _ p' HS Hp') as (q & _ & Hb).
    apply particle_body_mesh in Hb. exact (proj1 Hb).
  - intros x z y s. eexists. split; reflexivity.
Qed.

Lemma gradient_Legacy (M : JSMath) (cfg : VisualConfig)
    (ix iz : nat) :
  let R := GRADIENT_MAP_RESOLUTION (PHYSICS cfg) in
  let x := cell_x cfg ix in
  let z := cell_z cfg iz in
  0 < WIDTH (TERRAIN cfg) -> 0 < DEPTH (TERRAIN cfg) -> (2 <= R)%nat ->
  (ix < R)%nat -> (iz < R)%nat ->
  isFinite M (lossFunction M (TERRAIN cfg) x z) = true ->
  exists g,
    gradient cfg (Some (buildGradientMap M cfg)) x z = Some g
    /\ dx g == dx (Legacy.gradient M cfg x z)
    /\ dz g == dz (Legacy.gradient M cfg x z).
Proof.
  intros R x z HW HD HR Hix Hiz Hfin.
  destruct (node_round_trip M cfg ix iz HW HD HR Hix Hiz)
    as (g & Hg & Ex & Ez).
  exists g. split; [exact Hg |].
  unfold Legacy.gradient. fold x z. rewrite Hfin. cbn [negb dx dz].
  split; [exact Ex | exact Ez].
Qed.

Section Sprites.
Variable M : JSMath.
Variable cfg : VisualConfig.
Variable V : MaterialsConfig.

Lemma sprite_body_inv (fs : Q) (q : Z) (map : option GradientMap)
    (p p' : Particle) (v v' : Visual) :
  sprite_body M cfg V fs q map (p, v) = Ok (Some (p', v')) ->
  particle_body M cfg fs q map p = Ok (Some p')
  /\ v' = visual_body M cfg V q p' v.
Proof.
  unfold sprite_body. cbn [fst snd].
  destruct (particle_body M cfg fs q map p) as [[p0 |] | err];
    cbn [res_bind]; try discriminate.
  intros [= <- <-]. auto.
Qed.

Lemma spawn_visual_trail (x z : Q) (overrideY : option Q) :
  trail (spawn_visual M cfg V x z overrideY)
  = replicate (TRAIL_LENGTH V)
      {| v_x := x;
         v_y := match overrideY with
                | Some y => y
                | None => lossFunction M (TERRAIN cfg) x z
                end + SPAWN_HEIGHT_OFFSET (PARTICLES cfg);
         v_z := - z |}.
Proof.
  unfold spawn_visual. cbn [trail]. rewrite lock_trail_spec, length_replicate.
  reflexivity.
Qed.

End Sprites.

Lemma trail_length (M : JSMath) (cfg : VisualConfig)
    (V : MaterialsConfig) :
  (forall x z overrideY,
     exists spawnY,
       spawnY = match overrideY with
                | Some y => y
                | None => lossFunction M (TERRAIN cfg) x z
                end + SPAWN_HEIGHT_OFFSET (PARTICLES cfg)
       /\ trail (spawn_visual M cfg V x z overrideY)
          = replicate (TRAIL_LENGTH V) {| v_x := x; v_y := spawnY; v_z := - z |})
  /\ (forall fs q map p v p' v',
        sprite_body M cfg V fs q map (p, v) = Ok (Some (p', v')) ->
        length (trail v') = length (trail v)).
Proof.
  split.
  - intros x z oy. eexists. split; [reflexivity |]. apply spawn_visual_trail.
  - intros fs q map p v p' v' H. apply sprite_body_inv in H.
    destruct H as [_ ->]. apply visual_body_length.
Qed.

Lemma trail_follows (M : JSMath) (cfg : VisualConfig)
    (V : MaterialsConfig) (fs : Q) (map : option GradientMap)
    (p p' : Particle) (v v' : Visual) :
  sprite_body M cfg V fs 0 map (p, v) = Ok (Some (p', v')) ->
  isFading p = false ->
  trail v' = take (length (trail v)) (mesh_position p' :: trail v)
  /\ trail_opacity v' = trail_opacity v.
Proof.
  intros H Hf. apply sprite_body_inv in H. destruct H as [Hb ->].
  pose proof (particle_body_kept M cfg _ _ _ _ _ Hb) as (_ & Hfad & _).
  pose proof (particle_body_mesh M cfg _ _ _ _ _ Hb) as [Em _].
  rewrite visual_body_moving by congruence. cbn [trail trail_opacity].
  rewrite advance_trail_spec, Em. auto.
Qed.

Lemma fading_visual (M : JSMath) (cfg : VisualConfig)
    (V : MaterialsConfig) (fs : Q) (q : Z) (map : option GradientMap)
    (p p' : Particle) (v v' : Visual) :
  let k := 1.0 - FADE_OUT_SPEED (WAVES cfg) in
  sprite_body M cfg V fs q map (p, v) = Ok (Some (p', v')) ->
  isFading p = true ->
  uOpacity v' = uOpacity v * k
  /\ uGlowIntensity v' = uGlowIntensity v * k
  /\ trail_opacity v' = trail_opacity v * k
  /\ uColor v' = uColor v /\ trail_color v' = trail_color v
  /\ mesh_scale p' = multiplyScalar (multiplyScalar (mesh_scale p) k) k
  /\ trail v' !! 0%nat = trail v !! 0%nat
  /\ forall j, (1 <= j < length (trail v))%nat ->
       exists curr next,
         trail v !! j = Some curr /\ trail v !! (j - 1)%nat = Some next
         /\ trail v' !! j
            = Some {| v_x := v_x curr + (v_x next - v_x curr) * 0.15;
                      v_y := v_y curr + (v_y next - v_y curr) * 0.15;
                      v_z := v_z curr + (v_z next - v_z curr) * 0.15 |}.
Proof.
  intros k H Hf. apply sprite_body_inv in H. destruct H as [Hb ->].
  pose proof (particle_body_kept M cfg _ _ _ _ _ Hb) as (_ & Hfad & _ & Hsc & _).
  destruct (Hsc Hf) as (Esc & _).
  rewrite visual_body_fading by congruence.
  cbn [uOpacity uGlowIntensity trail_opacity uColor trail_color trail].
  destruct (collapse_trail_spec (trail v)) as (_ & H0 & Hj).
  repeat match goal with |- _ /\ _ => split end;
    try reflexivity; try assumption.
Qed.

Lemma active_visual (M : JSMath) (cfg : VisualConfig)
    (V : MaterialsConfig) (fs : Q) (q : Z) (map : option GradientMap)
    (p p' : Particle) (v v' : Visual) :
  sprite_body M cfg V fs q map (p, v) = Ok (Some (p', v')) ->
  isFading p = false ->
  uColor v' = trail_color v'
  /\ ((0 < q)%Z ->
      uColor v' = setHex (STAGING_COLOR V)
      /\ uOpacity v' = 1.0 /\ uGlowIntensity v' = 2.5
      /\ trail_opacity v' = 0.8
      /\ trail v' = replicate (length (trail v)) (mesh_position p'))
  /\ ((q <= 0)%Z ->
      0 <= speed M p' -> 0 <= SENSITIVITY (REACTION V) ->
      MIN_GLOW (REACTION V) <= MAX_GLOW (REACTION V) ->
      MIN_OPACITY (REACTION V) <= MAX_OPACITY (REACTION V) ->
      MIN_GLOW (REACTION V) <= uGlowIntensity v' <= MAX_GLOW (REACTION V)
      /\ MIN_OPACITY (REACTION V) <= uOpacity v' <= MAX_OPACITY (REACTION V)
      /\ (speed M p' == 0 ->
          uGlowIntensity v' == MIN_GLOW (REACTION V)
          /\ uOpacity v' == MIN_OPACITY (REACTION V))
      /\ (1 <= speed M p' * SENSITIVITY (REACTION V) ->
          uGlowIntensity v' == MAX_GLOW (REACTION V)
          /\ uOpacity v' == MAX_OPACITY (REACTION V))).
Proof.
  intros H Hf. apply sprite_body_inv in H. destruct H as [Hb ->].
  pose proof (particle_body_kept M cfg _ _ _ _ _ Hb) as (_ & Hfad & _).
  pose proof (particle_body_mesh M cfg _ _ _ _ _ Hb) as [Em _].
  assert (Hf' : isFading p' = false) by congruence.
  set (rf := Math_min 1.0 (speed M p' * SENSITIVITY (REACTION V))).
  set (glow := MathUtils.lerp (MIN_GLOW (REACTION V)) (MAX_GLOW (REACTION V)) rf).
  set (opac := MathUtils.lerp (MIN_OPACITY (REACTION V))
                 (MAX_OPACITY (REACTION V)) rf).
  assert (Hreact :
            0 <= speed M p' -> 0 <= SENSITIVITY (REACTION V) ->
            MIN_GLOW (REACTION V) <= MAX_GLOW (REACTION V) ->
            MIN_OPACITY (REACTION V) <= MAX_OPACITY (REACTION V) ->
            MIN_GLOW (REACTION V) <= glow <= MAX_GLOW (REACTION V)
            /\ MIN_OPACITY (REACTION V) <= opac <= MAX_OPACITY (REACTION V)
            /\ (speed M p' == 0 ->
                glow == MIN_GLOW (REACTION V)
                /\ opac == MIN_OPACITY (REACTION V))
            /\ (1 <= speed M p' * SENSITIVITY (REACTION V) ->
                glow == MAX_GLOW (REACTION V)
                /\ opac == MAX_OPACITY (REACTION V))).
  { intros Hs HS Hg Ho. subst glow opac rf. unfold MathUtils.lerp.
    assert (Hprod : 0 <= speed M p' * SENSITIVITY (REACTION V))
      by (apply Qmult_le_0_compat; assumption).
    destruct (Math_min_spec 1.0 (speed M p' * SENSITIVITY (REACTION V)))
      as [[Hle ->] | [Hlt ->]].
    - split; [split; lra |]. split; [split; lra |]. split.
      + intros E. rewrite E in Hle. lra.
      + intros _. split; ring.
    - set (t := speed M p' * SENSITIVITY (REACTION V)) in *.
      split; [split; nra |]. split; [split; nra |]. split.
      + intros E.
        assert (Et : t == 0) by (subst t; rewrite E; ring).
        rewrite Et. split; ring.
      + intros H1. lra. }
  destruct (Z.lt_trichotomy q 0) as [Hq | [-> | Hq]].
  - rewrite visual_body_negative by assumption.
    cbn [uColor trail_color uOpacity uGlowIntensity trail_opacity trail].
    split; [reflexivity |]. split; [intros; lia |].
    intros _. exact Hreact.
  - rewrite visual_body_moving by assumption.
    cbn [uColor trail_color uOpacity uGlowIntensity trail_opacity trail].
    split; [reflexivity |]. split; [intros; lia |].
    intros _. exact Hreact.
  - rewrite visual_body_staging by assumption.
    cbn [uColor trail_color uOpacity uGlowIntensity trail_opacity trail].
    split; [reflexivity |]. split; [| intros; lia].
    intros _. rewrite lock_trail_spec, Em. auto.
Qed.

Section SpawnSites.
Variable M : JSMath.
Variable cfg : VisualConfig.

Lemma classify_Accepted (f : Frame) (hit : option (Q * Q)) (x z y : Q) :
  classify M cfg f hit = Accepted x z y ->
  exists hx hz,
    hit = Some (hx, hz) /\ x = hx /\ z = - hz
    /\ y = lossFunction M (TERRAIN cfg) hx hz
    /\ Math_abs hx <= WIDTH (TERRAIN cfg) / 2
    /\ Math_abs hz <= DEPTH (TERRAIN cfg) / 2
    /\ MIN_SPAWN_HEIGHT (WAVES cfg) <= y
    /\ isVisible M cfg (camPos f) hx hz y = true.
Proof.
  unfold classify. destruct hit as [[hx hz] |]; [| discriminate].
  destruct (Qle_bool (Math_abs hx) (WIDTH (TERRAIN cfg) / 2)) eqn:E1;
    cbn [andb]; [| discriminate].
  destruct (Qle_bool (Math_abs hz) (DEPTH (TERRAIN cfg) / 2)) eqn:E2;
    [| discriminate].
  destruct (Qltb _ _) eqn:E3; [discriminate |].
  destruct (isVisible _ _ _ _ _ _) eqn:E4; [| discriminate].
  intros [= <- <- <-]. exists hx, hz.
  apply Qle_bool_iff in E1, E2. apply Qltb_ge in E3.
  repeat split; assumption.
Qed.

Lemma spawn_loop_sites (f : Frame) (toSpawn : Z) (fuel : nat) :
  forall (i : Z) (k : nat) (s s' : State),
    spawn_loop M cfg fuel f toSpawn i k s = Ok s' ->
    exists new, particles s' = particles s ++ new
                /\ Forall (spawn_site M cfg f) new.
Proof.
  induction fuel as [| fuel IH]; intros i k s s' H; [discriminate |].
  cbn [spawn_loop] in H.
  destruct (i <? toSpawn)%Z.
  2: { injection H as <-. exists []. rewrite app_nil_r.
       split; [reflexivity | apply Forall_nil_2]. }
  destruct (classify M cfg f (casts f k)) as [| | | x z y] eqn:Ec;
    try (eapply IH; eassumption).
  destruct (IH _ _ _ _ H) as (new & Ep & Hall).
  apply classify_Accepted in Ec.
  destruct Ec as (hx & hz & _ & -> & -> & -> & Hx & Hz & Hmin & Hvis).
  eexists (_ :: new). split.
  - rewrite Ep. unfold place.
    match goal with |- context [if ?c then _ else _] => destruct c end;
      cbn [particles set_lastWaveTime set_spawnQueue spawnParticle
           set_nextId set_particles];
      rewrite <- app_assoc; reflexivity.
  - apply Forall_cons. split; [| exact Hall].
    exists hx, hz. cbn. repeat split; assumption.
Qed.

End SpawnSites.

(** * Theorems on the rest of the component *)

(** ** Elevation *)

(** X1.  The hash is a fractional part: it lies in [0, 1).  The noise is
    a blend of the hashes of the four corners of a lattice cell: it lies
    in [0, 1) as well, and at the points of the integer lattice it is
    the hash of the point. *)
Theorem noise_between_0_and_1 (M : JSMath) (T : TerrainConfig) :
  (forall px pz, 0 <= hash M T px pz < 1)
  /\ (forall tx tz, 0 <= noise M T tx tz < 1)
  /\ (forall i j : Z,
        noise M T (inject_Z i) (inject_Z j)
        == hash M T (inject_Z i) (inject_Z j)).
Proof.
  split; [apply hash_range |]. split; [apply noise_range |].
  apply noise_lattice.
Qed.

(** X2.  The elevation is bounded.  When [Math.pow(n, 3.0)] maps [0, 1]
    into [0, 1] and [HEIGHT_MULTIPLIER] is not negative, the five
    octaves add between 0 and 28 * (1 + 0.55 + ... + 0.55^4) = 59.090675,
    so that [lossFunction] lies between [-12 * HEIGHT_MULTIPLIER] and
    [47.090675 * HEIGHT_MULTIPLIER]. *)
Theorem lossFunction_bounded (M : JSMath) (T : TerrainConfig) (x z : Q) :
  (forall n, 0 <= n <= 1 -> 0 <= Math_pow M n 3.0 <= 1) ->
  0 <= HEIGHT_MULTIPLIER T ->
  -12 * HEIGHT_MULTIPLIER T <= lossFunction M T x z
  <= 47.090675 * HEIGHT_MULTIPLIER T.
Proof. intros Hpow HM. apply lossFunction_range_lemma; assumption. Qed.

Lemma lossFunction_bounded_witness :
  -12 * 3.0 <= lossFunction Math0 (TERRAIN VISUAL_CONFIG) 250 (-40)
  <= 47.090675 * 3.0.
Proof.
  apply (lossFunction_bounded Math0 (TERRAIN VISUAL_CONFIG) 250 (-40)).
  - intros n Hn. exact Hn.
  - apply Qle_bool_iff. reflexivity.
Defined.

(** ** Gradient map *)



(** X4.  Inside the extent of the map [gradient] interpolates: the two
    weights lie in [0, 1], and each component of the result lies between
    any two bounds of the entries of its array. *)
Theorem gradient_interpolates_inside (cfg : VisualConfig) (map : GradientMap)
    (x z lo hi : Q) :
  let G := GRADIENT_MAP_CONFIG cfg in
  0 < WIDTH (TERRAIN cfg) -> 0 < DEPTH (TERRAIN cfg) ->
  (2 <= RESOLUTION G)%nat -> well_formed_map cfg map ->
  MIN_X G <= x <= MAX_X G -> MIN_Z G <= z <= MAX_Z G ->
  let tx := grid_x cfg x - inject_Z (cell0 cfg (grid_x cfg x)) in
  let tz := grid_z cfg z - inject_Z (cell0 cfg (grid_z cfg z)) in
  0 <= tx <= 1 /\ 0 <= tz <= 1
  /\ (Forall (fun v => lo <= v <= hi) (dxMap map) ->
      exists g, gradient cfg (Some map) x z = Some g /\ lo <= dx g <= hi)
  /\ (Forall (fun v => lo <= v <= hi) (dzMap map) ->
      exists g, gradient cfg (Some map) x z = Some g /\ lo <= dz g <= hi).
Proof. intros G. apply gradient_inside. Qed.

Lemma ramp_bounds (R : nat) :
  Forall (fun v => 0 <= v <= Qnat R - 1) (ramp R).
Proof.
  apply Forall_forall. intros v Hv. unfold ramp in Hv.
  apply list_elem_of_fmap in Hv. destruct Hv as (i & -> & Hi).
  apply elem_of_seq in Hi.
  assert (HR : (0 < R)%nat) by (destruct R; [cbn in Hi; lia | lia]).
  pose proof (Nat.mod_upper_bound i R) as Hm.
  split; [apply Qnat_nonneg |].
  rewrite (Qnat_minus_Z R 1%Z). unfold Qnat. rewrite <- Zle_Qle. lia.
Qed.

Lemma gradient_interpolates_inside_witness :
  let tx := grid_x VISUAL_CONFIG 333
            - inject_Z (cell0 VISUAL_CONFIG (grid_x VISUAL_CONFIG 333)) in
  0 <= tx <= 1
  /\ exists g, gradient VISUAL_CONFIG (Some RAMP_MAP) 333 (-1000) = Some g
               /\ 0 <= dx g <= Qnat 512 - 1.
Proof.
  intros tx.
  assert (H : 0 < WIDTH (TERRAIN VISUAL_CONFIG)) by (apply Qltb_lt; reflexivity).
  assert (H' : 0 < DEPTH (TERRAIN VISUAL_CONFIG)) by (apply Qltb_lt; reflexivity).
  assert (HR : (2 <= RESOLUTION (GRADIENT_MAP_CONFIG VISUAL_CONFIG))%nat)
    by (cbn; lia).
  assert (Hx : MIN_X (GRADIENT_MAP_CONFIG VISUAL_CONFIG) <= 333
               <= MAX_X (GRADIENT_MAP_CONFIG VISUAL_CONFIG))
    by (split; apply Qle_bool_iff; reflexivity).
  assert (Hz : MIN_Z (GRADIENT_MAP_CONFIG VISUAL_CONFIG) <= -1000
               <= MAX_Z (GRADIENT_MAP_CONFIG VISUAL_CONFIG))
    by (split; apply Qle_bool_iff; reflexivity).
  pose proof (gradient_interpolates_inside VISUAL_CONFIG RAMP_MAP 333 (-1000)
                0 (Qnat 512 - 1) H H' HR RAMP_MAP_well_formed Hx Hz)
    as (Ht & _ & Hd & _).
  split; [exact Ht | exact (Hd (ramp_bounds 512))].
Defined.



(** ** Terrain colours *)



(** X7.  Pass 2 pushes three numbers for every vertex, none of them
    above 1. *)
Theorem terrain_colours_capped (M : JSMath) (T : TerrainConfig)
    (C : TerrainColours) (positions : list (Q * Q)) :
  length (terrain_colours M T C positions) = (3 * length positions)%nat
  /\ forall c, c ∈ terrain_colours M T C positions -> c <= 1.
Proof. apply terrain_colours_spec. Qed.

(** ** Pointer and camera *)

(** X8.  With limits that are not negative, the rotation of the camera
    stays within them under all pointer events once it is within them,
    and a move of a drag puts it within them wherever it was. *)
Theorem camera_rotation_within_limits (C : CameraConfig)
    (es : list PointerEvent) (c : Controls) :
  0 <= LEFT (LIMITS C) /\ 0 <= RIGHT (LIMITS C)
  /\ 0 <= UP (LIMITS C) /\ 0 <= DOWN (LIMITS C) ->
  (in_limits C c -> in_limits C (dispatch_all C es c))
  /\ (forall clientX clientY rect,
        isMiddleClickDown c = true ->
        in_limits C (handleMouseMove C clientX clientY rect c)).
Proof.
  intros Hlim. split.
  - apply dispatch_all_in_limits, Hlim.
  - intros x y rect. apply drag_in_limits, Hlim.
Qed.

Lemma camera_rotation_within_limits_witness :
  in_limits CAMERA (initial_controls CAMERA)
  /\ in_limits CAMERA (dispatch_all CAMERA long_drag (initial_controls CAMERA)).
Proof.
  assert (Hlim : 0 <= LEFT (LIMITS CAMERA) /\ 0 <= RIGHT (LIMITS CAMERA)
                 /\ 0 <= UP (LIMITS CAMERA) /\ 0 <= DOWN (LIMITS CAMERA))
    by (repeat match goal with |- _ /\ _ => split end;
        apply Qle_bool_iff; reflexivity).
  assert (H0 : in_limits CAMERA (initial_controls CAMERA))
    by (split; split; apply Qle_bool_iff; reflexivity).
  split; [exact H0 |].
  exact (proj1 (camera_rotation_within_limits CAMERA long_drag
                  (initial_controls CAMERA) Hlim) H0).
Defined.

(** X9.  The camera turns during a drag with the middle button only:
    from controls whose middle button is up, events among which no
    [mousedown] of button 1 occurs leave yaw and pitch as they are. *)
Theorem no_turn_without_middle_button (C : CameraConfig)
    (es : list PointerEvent) (c : Controls) :
  isMiddleClickDown c = false ->
  Forall (fun e => starts_drag e = false) es ->
  yaw (dispatch_all C es c) = yaw c
  /\ pitch (dispatch_all C es c) = pitch c
  /\ isMiddleClickDown (dispatch_all C es c) = false.
Proof. apply no_drag_no_turn. Qed.

Lemma no_turn_without_middle_button_witness :
  yaw (dispatch_all CAMERA left_button (initial_controls CAMERA)) = 0.0
  /\ pitch (dispatch_all CAMERA left_button (initial_controls CAMERA)) = -0.3.
Proof.
  destruct (no_turn_without_middle_button CAMERA left_button
              (initial_controls CAMERA)) as (Ey & Ep & _).
  - reflexivity.
  - repeat (apply Forall_cons; split; [reflexivity |]). apply Forall_nil_2.
  - split; [exact Ey | exact Ep].
Defined.

(** X10.  For a pointer inside a container of positive size the mouse
    coordinates lie in [-1, 1]; the left edge gives -1 and the right edge
    1, the top edge 1 and the bottom edge -1. *)
Theorem mouse_is_normalised (C : CameraConfig) (clientX clientY : Q)
    (rect : Rect) (c : Controls) :
  0 < rect_width rect -> 0 < rect_height rect ->
  inside clientX clientY rect ->
  let m := mouse (handleMouseMove C clientX clientY rect c) in
  -1 <= fst m <= 1 /\ -1 <= snd m <= 1
  /\ (clientX == rect_left rect -> fst m == -1)
  /\ (clientX == rect_left rect + rect_width rect -> fst m == 1)
  /\ (clientY == rect_top rect -> snd m == 1)
  /\ (clientY == rect_top rect + rect_height rect -> snd m == -1).
Proof. apply mouse_normalised. Qed.

Lemma mouse_is_normalised_witness :
  let m := mouse (handleMouseMove CAMERA 200 600 CONTAINER
                    (initial_controls CAMERA)) in
  -1 <= fst m <= 1 /\ -1 <= snd m <= 1 /\ snd m == -1.
Proof.
  intros m.
  destruct (mouse_is_normalised CAMERA 200 600 CONTAINER (initial_controls CAMERA))
    as (Hx & Hy & _ & _ & _ & Hb).
  - apply Qltb_lt. reflexivity.
  - apply Qltb_lt. reflexivity.
  - split; split; apply Qle_bool_iff; reflexivity.
  - split; [exact Hx |]. split; [exact Hy |]. apply Hb. reflexivity.
Defined.

(** X11.  During a drag that does not reach a limit, two moves turn the
    camera as the second move alone would: the rotation depends on
    where the pointer is, not on the path it took. *)
Theorem drag_is_path_independent (C : CameraConfig) (x1 y1 x2 y2 : Q)
    (r1 r2 : Rect) (c : Controls) :
  isMiddleClickDown c = true ->
  let newYaw := yaw c - (x1 - fst (lastMousePos c)) * RELATIVE_SENSITIVITY_X C in
  let newPitch :=
    pitch c - (y1 - snd (lastMousePos c)) * RELATIVE_SENSITIVITY_Y C in
  - LEFT (LIMITS C) * (Math_PI / 180) <= newYaw
    <= RIGHT (LIMITS C) * (Math_PI / 180) ->
  - DOWN (LIMITS C) * (Math_PI / 180) <= newPitch
    <= UP (LIMITS C) * (Math_PI / 180) ->
  let two := handleMouseMove C x2 y2 r2 (handleMouseMove C x1 y1 r1 c) in
  let one := handleMouseMove C x2 y2 r2 c in
  yaw two == yaw one /\ pitch two == pitch one
  /\ mouse two = mouse one /\ lastMousePos two = lastMousePos one.
Proof. apply drag_composes. Qed.

Lemma drag_is_path_independent_witness :
  let c := handleMouseDown 1 400 300 (initial_controls CAMERA) in
  yaw (handleMouseMove CAMERA 500 320 CONTAINER
         (handleMouseMove CAMERA 450 290 CONTAINER c))
  == yaw (handleMouseMove CAMERA 500 320 CONTAINER c).
Proof.
  intros c.
  destruct (drag_is_path_independent CAMERA 450 290 500 320 CONTAINER CONTAINER c)
    as (Ey & _).
  - reflexivity.
  - split; apply Qle_bool_iff; reflexivity.
  - split; apply Qle_bool_iff; reflexivity.
  - exact Ey.
Defined.

(** X12.  The smoothed mouse does not overshoot as long as
    [MOUSE_SMOOTHING * frameScale] lies in [0, 1]: with the mouse in
    [-1, 1] it stays in [-1, 1]. *)
Theorem smoothed_mouse_stays_in_range (C : CameraConfig) (frameScale : Q)
    (c : Controls) :
  0 <= MOUSE_SMOOTHING C * frameScale <= 1 ->
  -1 <= fst (mouse c) <= 1 -> -1 <= snd (mouse c) <= 1 ->
  -1 <= fst (smoothMouse c) <= 1 -> -1 <= snd (smoothMouse c) <= 1 ->
  let s := smooth_mouse C frameScale c in
  -1 <= fst s <= 1 /\ -1 <= snd s <= 1.
Proof. apply smooth_mouse_between. Qed.

Lemma smoothed_mouse_stays_in_range_witness :
  let c := handleMouseMove CAMERA 200 600 CONTAINER
             (handleMouseDown 1 400 300 (initial_controls CAMERA)) in
  let s := smooth_mouse CAMERA 2 c in
  -1 <= fst s <= 1 /\ -1 <= snd s <= 1.
Proof.
  intros c.
  apply (smoothed_mouse_stays_in_range CAMERA 2 c);
    split; apply Qle_bool_iff; reflexivity.
Defined.

(** ** FPS counter *)

(** X13.  The FPS element shows a count, not a rate: after frames less
    than a second after the last update and one that is a second or more
    after it, it shows the number of frames since that update, the last
    one included, however long they took; the counter starts again from
    zero at that frame.  Without [SHOW_FPS] nothing is counted. *)
Theorem fps_shows_frame_count (mounted : bool) (quick : list Q) (late : Q)
    (c : FpsCounter) :
  Forall (fun now => now - lastFpsUpdateTime c < 1000) quick ->
  1000 <= late - lastFpsUpdateTime c ->
  count_frames true mounted (quick ++ [late]) c
  = {| frameCount := 0;
       lastFpsUpdateTime := late;
       innerText := if mounted
                    then Some (frameCount c + length quick + 1)%nat
                    else innerText c |}
  /\ count_frames false mounted (quick ++ [late]) c = c.
Proof.
  intros Hq Hl. split.
  - apply count_frames_late; assumption.
  - apply count_frames_hidden.
Qed.

Lemma fps_shows_frame_count_witness :
  count_frames true true ([16; 500; 999] ++ [5000])
    {| frameCount := 0; lastFpsUpdateTime := 0; innerText := None |}
  = {| frameCount := 0; lastFpsUpdateTime := 5000; innerText := Some 4%nat |}.
Proof.
  apply (fps_shows_frame_count true [16; 500; 999] 5000
           {| frameCount := 0; lastFpsUpdateTime := 0; innerText := None |}).
  - repeat (apply Forall_cons; split; [apply Qltb_lt; reflexivity |]).
    apply Forall_nil_2.
  - apply Qle_bool_iff. reflexivity.
Defined.

(** ** Spawn candidates *)

(** X14.  When [Math.pow] with the two bias exponents maps [0, 1] into
    [0, 1], the screen coordinates of a candidate lie in [-1, 1], and
    [screenX] is on the side of the centre its draw is on. *)
Theorem screen_coordinates_in_range (M : JSMath) (B : SpawnBias)
    (random1 random2 : Q) :
  (forall n, 0 <= n <= 1 ->
             0 <= Math_pow M n (HORIZONTAL_CENTRAL_BIAS B) <= 1) ->
  (forall n, 0 <= n <= 1 ->
             0 <= Math_pow M n (1 / DISTANCE_BIAS B) <= 1) ->
  0 <= random1 < 1 -> 0 <= random2 < 1 ->
  -1 <= screenX M B random1 <= 1
  /\ (random1 < 0.5 -> screenX M B random1 <= 0)
  /\ (0.5 < random1 -> 0 <= screenX M B random1)
  /\ (random1 == 0.5 -> screenX M B random1 == 0)
  /\ -1 <= screenY M B random2 <= 1.
Proof. intros Hx Hy. apply screen_range; assumption. Qed.

Lemma screen_coordinates_in_range_witness :
  -1 <= screenX Math0 SPAWN_BIAS 0.25 <= 1
  /\ screenX Math0 SPAWN_BIAS 0.25 <= 0
  /\ -1 <= screenY Math0 SPAWN_BIAS 0.9 <= 1.
Proof.
  destruct (screen_coordinates_in_range Math0 SPAWN_BIAS 0.25 0.9)
    as (Hx & Hneg & _ & _ & Hy).
  - intros n Hn. exact Hn.
  - intros n Hn. exact Hn.
  - split; [apply Qle_bool_iff | apply Qltb_lt]; reflexivity.
  - split; [apply Qle_bool_iff | apply Qltb_lt]; reflexivity.
  - split; [exact Hx |]. split; [| exact Hy].
    apply Hneg. apply Qltb_lt. reflexivity.
Defined.

(** ** Ambient dust *)

(** X15.  The dust keeps its number of motes, a mote keeps its [z], and
    after a frame no mote is above [HEIGHT_RANGE].  A mote is created
    between [MIN_HEIGHT] and [MIN_HEIGHT + HEIGHT_RANGE]; one that is
    more than 0.05 above [HEIGHT_RANGE] is at height 0 after the first
    frame, below [MIN_HEIGHT]. *)
Theorem dust_stays_below_and_resets (M : JSMath) (Math_cos : Q -> Q)
    (T : TerrainConfig) (D : DustConfig) (random : nat -> Q) (time : Q)
    (i : nat) :
  0 <= HEIGHT_RANGE D -> (forall a, -1 <= Math_sin M a <= 1) ->
  (i < COUNT D)%nat -> 0 <= random (6 * i + 1)%nat < 1 ->
  let ps := dustPositions T D random in
  length (animate_dust M Math_cos D time ps) = COUNT D
  /\ exists p p',
       ps !! i = Some p
       /\ animate_dust M Math_cos D time ps !! i = Some p'
       /\ MIN_HEIGHT D <= v_y p <= MIN_HEIGHT D + HEIGHT_RANGE D
       /\ v_z p' = v_z p
       /\ v_y p' <= HEIGHT_RANGE D
       /\ (HEIGHT_RANGE D + 0.05 < v_y p -> v_y p' = 0).
Proof. apply dust_frame. Qed.

Lemma dust_stays_below_and_resets_witness :
  exists p p',
    dustPositions (TERRAIN VISUAL_CONFIG) AMBIENT_DUST (fun _ => 0.75) !! 7%nat
    = Some p
    /\ animate_dust Math0 (fun _ => 1) AMBIENT_DUST 0.016
         (dustPositions (TERRAIN VISUAL_CONFIG) AMBIENT_DUST (fun _ => 0.75))
       !! 7%nat = Some p'
    /\ v_y p == 375 /\ v_y p' = 0.
Proof.
  destruct (dust_stays_below_and_resets Math0 (fun _ => 1)
              (TERRAIN VISUAL_CONFIG) AMBIENT_DUST (fun _ => 0.75) 0.016 7)
    as (_ & p & p' & Ep & Ep' & _ & _ & _ & Hreset).
  - apply Qle_bool_iff. reflexivity.
  - intros a. split; apply Qle_bool_iff; reflexivity.
  - cbn. lia.
  - split; [apply Qle_bool_iff | apply Qltb_lt]; reflexivity.
  - exists p, p'. split; [exact Ep |]. split; [exact Ep' |].
    assert (E : p = dust_position (TERRAIN VISUAL_CONFIG) AMBIENT_DUST
                      (fun _ => 0.75) 7).
    { unfold dustPositions in Ep.
      change (map ?f ?l) with (f <$> l) in Ep.
      rewrite list_lookup_fmap, lookup_seq_lt in Ep by (cbn; lia).
      injection Ep as <-. reflexivity. }
    split; [rewrite E; reflexivity |].
    apply Hreset. rewrite E. apply Qltb_lt. reflexivity.
Defined.

(** ** Materials and trail *)








(** ** Invariants of the simulation *)

(** X20.  The scale of every mesh is uniform along every run: its
    three components are equal, so that the removal test, which reads
    the x component only, reads the scale. *)
Theorem mesh_scale_stays_uniform (M : JSMath) (cfg : VisualConfig)
    (es : list Event) (s s' : State) :
  run M cfg es s = Ok s' ->
  Forall uniform_scale (particles s) -> Forall uniform_scale (particles s').
Proof. apply uniform_scale_run. Qed.

Lemma mesh_scale_stays_uniform_witness :
  exists s',
    run Math0 GRID3
      [Click (Some camera0); Animate 0 (frame_at 533.2 no_hit)] one_rolling = Ok s'
    /\ Forall uniform_scale (particles s').
Proof.
  assert (H : match run Math0 GRID3
                      [Click (Some camera0); Animate 0 (frame_at 533.2 no_hit)]
                      one_rolling
              with Ok _ => True | Fail _ => False end)
    by (vm_compute; exact I).
  apply Ok_match in H. destruct H as (s' & Hr & _).
  exists s'. split; [exact Hr |].
  apply (mesh_scale_stays_uniform Math0 GRID3 _ one_rolling s' Hr).
  apply Forall_cons. split; [split; reflexivity | apply Forall_nil_2].
Defined.

(** X21.  The mesh of a particle is at the particle: its x is the
    particle's [x] and its z is minus the particle's [z] along every
    run; after a frame its height is the elevation there plus
    [HEIGHT_OFFSET], while a particle spawned on a given height starts
    [SPAWN_HEIGHT_OFFSET] above it. *)
Theorem mesh_follows_particle (M : JSMath) (cfg : VisualConfig) :
  (forall es s s', run M cfg es s = Ok s' ->
     Forall mesh_mirrors (particles s) -> Forall mesh_mirrors (particles s'))
  /\ (forall fuel f s s' p',
        animate M cfg fuel f s = Ok s' -> p' ∈ particles s' ->
        mesh_position p'
        = {| v_x := p_x p';
             v_y := lossFunction M (TERRAIN cfg) (p_x p') (p_z p')
                    + HEIGHT_OFFSET (PARTICLES cfg);
             v_z := - p_z p' |})
  /\ (forall x z y s,
        exists p, particles (spawnParticle M cfg x z (Some y) s)
                  = particles s ++ [p]
          /\ mesh_position p
             = {| v_x := x; v_y := y + SPAWN_HEIGHT_OFFSET (PARTICLES cfg);
                  v_z := - z |}).
Proof. apply mesh_follows. Qed.

(** X22.  The scale of a mesh stays in range.  When [Math.sqrt] is not
    negative on what is not negative, [Math.pow(n, 1.2)] maps [0, 1]
    into [0, 1], [0 < MIN_LOSS_SCALE <= 1 <= MAX_LOSS_SCALE] and
    [0 <= FADE_OUT_SPEED < 1], every scale is positive and at most
    [1.5 * MAX_LOSS_SCALE] along every run, and the scale of a particle
    that is not fading is at least [MIN_LOSS_SCALE]. *)
Theorem mesh_scale_stays_in_range (M : JSMath) (cfg : VisualConfig)
    (es : list Event) (s s' : State) :
  (forall x, 0 <= x -> 0 <= Math_sqrt M x) ->
  (forall n, 0 <= n <= 1 -> 0 <= Math_pow M n 1.2 <= 1) ->
  0 < MIN_LOSS_SCALE (PARTICLES cfg) <= 1
  /\ 1 <= MAX_LOSS_SCALE (PARTICLES cfg) ->
  0 <= FADE_OUT_SPEED (WAVES cfg) < 1 ->
  run M cfg es s = Ok s' ->
  Forall (scale_in_range cfg) (particles s) ->
  Forall (scale_in_range cfg) (particles s').
Proof. intros H1 H2 H3 H4. apply scale_in_range_run; assumption. Qed.

Lemma mesh_scale_stays_in_range_witness :
  exists s',
    run Math0 GRID3
      [Click (Some camera0); Animate 0 (frame_at 533.2 no_hit)] one_rolling = Ok s'
    /\ Forall (scale_in_range GRID3) (particles s').
Proof.
  assert (H : match run Math0 GRID3
                      [Click (Some camera0); Animate 0 (frame_at 533.2 no_hit)]
                      one_rolling
              with Ok _ => True | Fail _ => False end)
    by (vm_compute; exact I).
  apply Ok_match in H. destruct H as (s' & Hr & _).
  exists s'. split; [exact Hr |].
  apply (mesh_scale_stays_in_range Math0 GRID3
           [Click (Some camera0); Animate 0 (frame_at 533.2 no_hit)]
           one_rolling s').
  - intros x Hx. exact Hx.
  - intros n Hn. exact Hn.
  - split; [split |]; first [apply Qltb_lt | apply Qle_bool_iff]; reflexivity.
  - split; [apply Qle_bool_iff | apply Qltb_lt]; reflexivity.
  - exact Hr.
  - apply Forall_cons. split; [| apply Forall_nil_2].
    split; [split |]; [apply Qltb_lt | apply Qle_bool_iff
                      | intros _; apply Qle_bool_iff]; reflexivity.
Defined.

(** X23.  The spawn queue stays between 0 and [PARTICLES_PER_WAVE]
    along every run, and it is not zero in ACTIVE only: particles of a
    wave are placed in ACTIVE only, and a click takes nothing off the
    queue. *)
Theorem spawn_queue_stays_in_range (M : JSMath) (cfg : VisualConfig)
    (es : list Event) (s s' : State) :
  (0 <= PARTICLES_PER_WAVE (WAVES cfg))%Z ->
  run M cfg es s = Ok s' -> queue_ok cfg s -> queue_ok cfg s'.
Proof. apply queue_ok_run. Qed.

Lemma spawn_queue_stays_in_range_witness :
  exists s',
    run Math0 VISUAL_CONFIG first_frames (init Math0 VISUAL_CONFIG 0) = Ok s'
    /\ queue_ok VISUAL_CONFIG s'.
Proof.
  destruct (first_frames_release Math0) as (s5 & E5 & _).
  exists s5. split; [exact E5 |].
  apply (spawn_queue_stays_in_range Math0 VISUAL_CONFIG first_frames
           (init Math0 VISUAL_CONFIG 0) s5).
  - cbn. lia.
  - exact E5.
  - unfold queue_ok, init. cbn [spawnQueue waveState].
    split; [cbn; lia | intros H; inversion H].
Defined.

(** X24.  The frame clock is the time since the mount: along every run
    [timeRef] grows by the thousandth of what [performance.now()] has
    advanced between the frames, whatever the frames and the clicks
    between them are. *)
Theorem timeRef_is_time_since_mount (M : JSMath) (cfg : VisualConfig)
    (es : list Event) (s s' : State) :
  run M cfg es s = Ok s' ->
  timeRef s' - timeRef s == (lastFrameTime s' - lastFrameTime s) / 1000.
Proof. apply clock_run. Qed.

Lemma timeRef_is_time_since_mount_witness :
  exists s',
    run Math0 VISUAL_CONFIG first_frames (init Math0 VISUAL_CONFIG 0) = Ok s'
    /\ timeRef s' - 0 == (lastFrameTime s' - 0) / 1000.
Proof.
  destruct (first_frames_release Math0) as (s5 & E5 & _).
  exists s5. split; [exact E5 |].
  exact (timeRef_is_time_since_mount Math0 VISUAL_CONFIG first_frames
           (init Math0 VISUAL_CONFIG 0) s5 E5).
Defined.

(** X25.  The opacity of the wireframe never falls below
    [WIREFRAME_OPACITY]: when [Math.pow(x, 2.0)] is not negative,
    [FLASH_DECAY] lies in [0, 1] and [MAX_SWELL_OPACITY] is not below
    [WIREFRAME_OPACITY], it is at least [WIREFRAME_OPACITY] along every
    run from a state in which it is. *)
Theorem wireframe_opacity_stays_above_base (M : JSMath) (cfg : VisualConfig)
    (es : list Event) (s s' : State) :
  (forall x, 0 <= Math_pow M x 2.0) ->
  0 <= FLASH_DECAY (WAVES cfg) <= 1 ->
  WIREFRAME_OPACITY (TERRAIN cfg) <= MAX_SWELL_OPACITY (WAVES cfg) ->
  run M cfg es s = Ok s' ->
  WIREFRAME_OPACITY (TERRAIN cfg) <= wireframe_opacity s ->
  WIREFRAME_OPACITY (TERRAIN cfg) <= wireframe_opacity s'.
Proof. intros H1 H2 H3. apply opacity_run; assumption. Qed.

Lemma wireframe_opacity_stays_above_base_witness :
  exists s',
    run MathSq VISUAL_CONFIG first_frames (init MathSq VISUAL_CONFIG 0) = Ok s'
    /\ 0.07 <= wireframe_opacity s'.
Proof.
  destruct (first_frames_release MathSq) as (s5 & E5 & _).
  exists s5. split; [exact E5 |].
  apply (wireframe_opacity_stays_above_base MathSq VISUAL_CONFIG first_frames
           (init MathSq VISUAL_CONFIG 0) s5).
  - intros x. cbn. nra.
  - split; apply Qle_bool_iff; reflexivity.
  - apply Qle_bool_iff. reflexivity.
  - exact E5.
  - apply Qle_bool_iff. reflexivity.
Defined.

(** X26.  A fading particle does not move: along every run from a
    state whose particle objects are distinct, a particle that is fading
    is still fading, at the same place and with the same velocity, as
    long as it is in the list. *)
Theorem fading_particle_stays (M : JSMath) (cfg : VisualConfig)
    (es : list Event) (s s' : State) (p : Particle) :
  ids_ok s -> p ∈ particles s -> isFading p = true ->
  run M cfg es s = Ok s' ->
  forall q, q ∈ particles s' -> pid q = pid p ->
    isFading q = true
    /\ p_x q = p_x p /\ p_z q = p_z p /\ p_vx q = p_vx p /\ p_vz q = p_vz p.
Proof. apply fading_stays. Qed.

Lemma fading_particle_stays_witness :
  exists s',
    run Math0 GRID3 [Click (Some camera0); Animate 0 (frame_at 533.2 no_hit)]
      one_fading = Ok s'
    /\ forall q, q ∈ particles s' -> pid q = 0%nat ->
         isFading q = true /\ p_x q = 10 /\ p_z q = 20
         /\ p_vx q = 0.5 /\ p_vz q = -0.25.
Proof.
  assert (H : match run Math0 GRID3
                      [Click (Some camera0); Animate 0 (frame_at 533.2 no_hit)]
                      one_fading
              with Ok _ => True | Fail _ => False end)
    by (vm_compute; exact I).
  apply Ok_match in H. destruct H as (s' & Hr & _).
  exists s'. split; [exact Hr |].
  apply (fading_particle_stays Math0 GRID3
           [Click (Some camera0); Animate 0 (frame_at 533.2 no_hit)]
           one_fading s' (set_isFading true rolling) ids_ok_one_fading).
  - apply list_elem_of_here.
  - reflexivity.
  - exact Hr.
Defined.

(** X27.  While a wave is being released the particles wait: in a
    frame whose particle loop runs with a spawn queue that is not zero,
    every particle that is not fading stays in the list, one frame
    older, at the same place and with the same velocity. *)
Theorem staged_particles_wait (M : JSMath) (cfg : VisualConfig)
    (fuel : nat) (f : Frame) (s s1 s' : State) :
  let s2 := opacity_sync M cfg (scheduler M cfg f s1) in
  animate M cfg fuel f s = Ok s' ->
  spawn_phase M cfg fuel f (tick_clock f s) = Ok s1 ->
  spawnQueue s2 <> 0%Z ->
  forall p, p ∈ particles s2 -> isFading p = false ->
    exists p', p' ∈ particles s' /\ pid p' = pid p /\ isFading p' = false
      /\ age p' = S (age p)
      /\ p_x p' = p_x p /\ p_z p' = p_z p
      /\ p_vx p' = p_vx p /\ p_vz p' = p_vz p.
Proof. intros s2. apply staged_wait. Qed.

Lemma staged_particles_wait_witness :
  exists s' p',
    animate Math0 GRID3 10 (frame_at 533.2 no_hit) one_staged = Ok s'
    /\ p' ∈ particles s' /\ pid p' = 0%nat /\ age p' = 8%nat
    /\ p_x p' = 10 /\ p_z p' = 20 /\ p_vx p' = 0.5 /\ p_vz p' = -0.25.
Proof.
  assert (H : match animate Math0 GRID3 10 (frame_at 533.2 no_hit) one_staged
              with Ok _ => True | Fail _ => False end)
    by (vm_compute; exact I).
  apply Ok_match in H. destruct H as (s' & Ha & _).
  assert (E1 : spawn_phase Math0 GRID3 10 (frame_at 533.2 no_hit)
                 (tick_clock (frame_at 533.2 no_hit) one_staged)
               = Ok (tick_clock (frame_at 533.2 no_hit) one_staged))
    by (vm_compute; reflexivity).
  destruct (staged_particles_wait Math0 GRID3 10 (frame_at 533.2 no_hit)
              one_staged (tick_clock (frame_at 533.2 no_hit) one_staged) s'
              Ha E1) with (p := rolling)
    as (p' & Hin & Hpid & _ & Hage & Hx & Hz & Hvx & Hvz).
  - vm_compute. discriminate.
  - vm_compute. apply list_elem_of_here.
  - reflexivity.
  - exists s', p'. repeat split; assumption.
Defined.

(** ** Spawning *)

(** X28.  Every particle the spawn loop of a frame places lies on a
    point of the ground plane inside the terrain bounds that is visible
    from the camera and at which [lossFunction] is not below
    [MIN_SPAWN_HEIGHT]; it starts at rest, [SPAWN_HEIGHT_OFFSET] above
    that elevation.  The elevation is taken at [(hit.x, hit.z)], while
    the particle gets the coordinate [z = -hit.z], at which the particle
    loop takes its elevation. *)
Theorem wave_particles_on_valid_sites (M : JSMath) (cfg : VisualConfig)
    (fuel : nat) (f : Frame) (s s' : State) :
  spawn_phase M cfg fuel f s = Ok s' ->
  exists new,
    particles s' = particles s ++ new
    /\ Forall (spawn_site M cfg f) new.
Proof.
  unfold spawn_phase. destruct (0 <? spawnQueue s)%Z.
  - apply spawn_loop_sites.
  - intros [= <-]. exists []. rewrite app_nil_r.
    split; [reflexivity | apply Forall_nil_2].
Qed.

Lemma wave_particles_on_valid_sites_witness :
  exists s' new,
    spawn_phase Math0 VALLEY_SITES 10 (frame_at 533.2 hit_origin) one_staged
    = Ok s'
    /\ particles s' = particles one_staged ++ new
    /\ length new = 5%nat
    /\ Forall (spawn_site Math0 VALLEY_SITES (frame_at 533.2 hit_origin)) new.
Proof.
  assert (H : match spawn_phase Math0 VALLEY_SITES 10
                      (frame_at 533.2 hit_origin) one_staged
              with Ok s' => length (particles s') = 6%nat | Fail _ => False end)
    by (vm_compute; reflexivity).
  apply Ok_match in H. destruct H as (s' & Hr & Hlen).
  destruct (wave_particles_on_valid_sites Math0 VALLEY_SITES 10
              (frame_at 533.2 hit_origin) one_staged s' Hr)
    as (new & Ep & Hall).
  exists s', new. split; [exact Hr |]. split; [exact Ep |].
  split; [| exact Hall].
  rewrite Ep, length_app in Hlen. cbn in Hlen. lia.
Defined.

